(** * LEDMatrix football live manager: a shallow embedding

    The development follows [src/base_classes/football.py]:

    - [Text]       the string operations the code relies on
                   ([str.lower], [str.upper], the substring test [in]);
    - [Extractor]  [Football._extract_game_details];
    - [Tracker]    [FootballLive._check_scoring_events] and
                   [FootballLive._trigger_scoring_animation];
    - [TestClock]  the simulated clock of test mode (inside [update]);
    - [Live]       [FootballLive.update]: poll gate, fetch,
                   reconciliation, scoring check, rotation;
    - [Display]    [FootballLive._draw_border] and the timeout bars of
                   [FootballLive._draw_scorebug_layout].

    The properties follow the definitions, one section per component.

    Times ([time.time()], [datetime] values) are integers in one fixed
    unit; Python dictionaries holding one game are records; the
    [last_scoring_events] dictionary is a [gmap]; id sets are [gset]s. *)

From Stdlib Require Import ZArith List String Ascii Lia Permutation Sorted DecimalString.
From Stdlib Require DecimalPos.
From stdpp Require Import base gmap sets list strings option.

Open Scope Z_scope.

(* ================================================================== *)
(** ** Strings *)
(* ================================================================== *)

Module Text.
Local Open Scope string_scope.

(** Texts are ASCII strings, as the abbreviations, ids, labels and
    clock texts of the feed are.  On such text [str.lower] and
    [str.upper] change the 26 letters and nothing else; what Python
    does to letters outside ASCII is not modelled, and a statement
    that depends on it says that its texts are ASCII. *)
Definition lower_ascii (c : ascii) : ascii :=
  let n := nat_of_ascii c in
  if ((65 <=? n) && (n <=? 90))%nat then ascii_of_nat (n + 32) else c.

Definition upper_ascii (c : ascii) : ascii :=
  let n := nat_of_ascii c in
  if ((97 <=? n) && (n <=? 122))%nat then ascii_of_nat (n - 32) else c.

Fixpoint lower (s : string) : string :=
  match s with
  | EmptyString => EmptyString
  | String c s' => String (lower_ascii c) (lower s')
  end.

Fixpoint upper (s : string) : string :=
  match s with
  | EmptyString => EmptyString
  | String c s' => String (upper_ascii c) (upper s')
  end.

(** [kw in s] on Python strings: [kw] occurs in [s] as a substring. *)
Fixpoint contains (kw s : string) : bool :=
  String.prefix kw s ||
  match s with
  | EmptyString => false
  | String _ s' => contains kw s'
  end.

(** [any(keyword in s for keyword in kws)] *)
Definition any_in (kws : list string) (s : string) : bool :=
  existsb (fun kw => contains kw s) kws.

(** Python truthiness of a string. *)
Definition truthy (s : string) : bool :=
  match s with EmptyString => false | _ => true end.

End Text.

(* ================================================================== *)
(** ** Football._extract_game_details *)
(* ================================================================== *)

Module Extractor.
Import Text.
Local Open Scope string_scope.

(** [competition["status"]], with [status["type"]] flattened into it.
    A key read with [.get] is an [option]. *)
Record Status := {
  st_state       : string;          (* status["type"]["state"] *)
  st_name        : string;          (* status["type"]["name"] *)
  st_detail      : option string;   (* status["type"].get("detail") *)
  st_shortDetail : option string;   (* status["type"].get("shortDetail") *)
  st_period      : option Z;        (* status.get("period") *)
  st_displayClock : option string   (* status.get("displayClock") *)
}.

(** The [situation] dictionary; every key is read with [.get]. *)
Record Situation := {
  sit_shortDownDistanceText : option string;
  sit_isRedZone    : option bool;
  sit_possession   : option string;
  sit_homeTimeouts : option Z;
  sit_awayTimeouts : option Z
}.

(** A team dictionary, of which only [.get("id")] is read here. *)
Record Team := { team_id : option string }.

(** The [details] dictionary built by [_extract_game_details_common]
    (a method of the base class [SportsCore]). *)
Record Details := {
  d_id         : string;
  d_home_id    : option string;
  d_away_id    : option string;
  d_home_abbr  : string;
  d_away_abbr  : string;
  d_home_score : string;
  d_away_score : string;
  d_start_time_utc : option Z;
  d_game_time  : option string;
  d_is_live     : bool;
  d_is_halftime : bool;
  d_is_final    : bool;
  d_is_upcoming : bool;
  d_status_text : string
}.

(** One raw feed event, as this method reads it: the five results of
    [_extract_game_details_common] ([None] for a Python [None]; for the
    situation also for an empty dictionary, which is falsy as well),
    and [game_event["competitions"][0]["status"]], [None] when that
    lookup raises. *)
Record Event := {
  ev_details   : option Details;
  ev_home_team : option Team;
  ev_away_team : option Team;
  ev_status_common : option Status;
  ev_situation : option Situation;
  ev_status    : option Status
}.

(** The normalized game dictionary. *)
Record Game := {
  game_id    : string;          (* the key "id" *)
  home_id    : option string;
  away_id    : option string;
  home_abbr  : string;
  away_abbr  : string;
  home_score : string;
  away_score : string;
  start_time_utc : option Z;
  is_live     : bool;
  is_halftime : bool;
  is_final    : bool;
  is_upcoming : bool;
  status_text : string;
  period      : Z;
  period_text : string;
  clock       : string;
  home_timeouts : Z;
  away_timeouts : Z;
  down_distance_text : option string;
  is_redzone  : option bool;
  possession  : option string;
  possession_indicator : option string;
  scoring_event : string
}.

#[global] Instance Game_eq_dec : EqDecision Game.
Proof. solve_decision. Defined.

(** Lines 95-106: the [if]/[elif] chain over the lowered status texts. *)
Definition detect_scoring_event (status_detail status_short : string) : string :=
  if any_in ["touchdown"; "td"] status_detail then "TOUCHDOWN"
  else if any_in ["field goal"; "fg"] status_detail then "FIELD GOAL"
  else if any_in ["extra point"; "pat"; "point after"] status_detail then "PAT"
  else if any_in ["touchdown"; "td"] status_short then "TOUCHDOWN"
  else if any_in ["field goal"; "fg"] status_short then "FIELD GOAL"
  else if any_in ["extra point"; "pat"] status_short then "PAT"
  else "".

(** Lines 109-114. *)
Definition resolve_possession_indicator
    (possession_team_id : option string) (home_team away_team : Team)
    : option string :=
  match possession_team_id with
  | Some p =>
      if truthy p then
        if bool_decide (Some p = team_id home_team) then Some "home"
        else if bool_decide (Some p = team_id away_team) then Some "away"
        else None
      else None
  | None => None
  end.

(** Lines 121-136. *)
Definition format_period (status : Status) (details : Details) (period : Z) : string :=
  if String.eqb (st_state status) "in" then
    if (period =? 0)%Z then "Start"
    else if (period =? 1)%Z then "Q1"
    else if (period =? 2)%Z then "Q2"
    else if (period =? 3)%Z then "Q3"
    else if (period =? 4)%Z then "Q4"
    else if (4 <? period)%Z then "OT"
    else ""
  else if String.eqb (st_state status) "halftime"
          || String.eqb (st_name status) "STATUS_HALFTIME" then "HALF"
  else if String.eqb (st_state status) "post" then
    if (4 <? period)%Z then "Final/OT" else "Final"
  else if String.eqb (st_state status) "pre" then
    default "" (d_game_time details)
  else "".

(** The football-specific locals of lines 74-80 and their values after
    the block of lines 82-117. *)
Record Specific := {
  sp_down_distance_text : option string;
  sp_possession_indicator : option string;
  sp_scoring_event : string;
  sp_home_timeouts : Z;
  sp_away_timeouts : Z;
  sp_is_redzone : option bool;
  sp_posession : option string
}.

Definition specific_defaults : Specific :=
  {| sp_down_distance_text := Some "";
     sp_possession_indicator := None;
     sp_scoring_event := "";
     sp_home_timeouts := 0;
     sp_away_timeouts := 0;
     sp_is_redzone := Some false;
     sp_posession := None |}.

Definition specific_in_play
    (situation : Situation) (status : Status) (home_team away_team : Team)
    : Specific :=
  let status_detail := lower (default "" (st_detail status)) in
  let status_short := lower (default "" (st_shortDetail status)) in
  {| sp_down_distance_text := sit_shortDownDistanceText situation;
     sp_possession_indicator :=
       resolve_possession_indicator (sit_possession situation) home_team away_team;
     sp_scoring_event := detect_scoring_event status_detail status_short;
     sp_home_timeouts := default 3 (sit_homeTimeouts situation);
     sp_away_timeouts := default 3 (sit_awayTimeouts situation);
     sp_is_redzone := sit_isRedZone situation;
     sp_posession := sit_possession situation |}.

Definition football_specific
    (situation : option Situation) (status : Status) (home_team away_team : Team)
    : Specific :=
  match situation with
  | Some sit =>
      if String.eqb (st_state status) "in"
      then specific_in_play sit status home_team away_team
      else specific_defaults
  | None => specific_defaults
  end.

(** [Football._extract_game_details]; [None] is the Python [None] of
    the early [return], of the validation and of the [except] branch. *)
Definition _extract_game_details (game_event : Event) : option Game :=
  match ev_details game_event, ev_home_team game_event,
        ev_away_team game_event, ev_status_common game_event with
  | Some details, Some home_team, Some away_team, Some _ =>
      match ev_status game_event with
      | None => None
      | Some status =>
          let sp := football_specific (ev_situation game_event) status home_team away_team in
          let period := default 0 (st_period status) in
          let period_text := format_period status details period in
          if negb (truthy (d_home_abbr details)) || negb (truthy (d_away_abbr details))
          then None
          else Some
            {| game_id := d_id details;
               home_id := d_home_id details;
               away_id := d_away_id details;
               home_abbr := d_home_abbr details;
               away_abbr := d_away_abbr details;
               home_score := d_home_score details;
               away_score := d_away_score details;
               start_time_utc := d_start_time_utc details;
               is_live := d_is_live details;
               is_halftime := d_is_halftime details;
               is_final := d_is_final details;
               is_upcoming := d_is_upcoming details;
               status_text := d_status_text details;
               period := period;
               period_text := period_text;
               clock := default "0:00" (st_displayClock status);
               home_timeouts := sp_home_timeouts sp;
               away_timeouts := sp_away_timeouts sp;
               down_distance_text := sp_down_distance_text sp;
               is_redzone := sp_is_redzone sp;
               possession := sp_posession sp;
               possession_indicator := sp_possession_indicator sp;
               scoring_event := sp_scoring_event sp |}
      end
  | _, _, _, _ => None
  end.

End Extractor.

(* ================================================================== *)
(** ** FootballLive._check_scoring_events *)
(* ================================================================== *)

Module Tracker.
Import Text Extractor.
Local Open Scope string_scope.

(** A scoring alert: the team abbreviation and the event label handed
    to [_trigger_scoring_animation]. *)
Definition Alert : Type := string * string.

(** [FootballLive._trigger_scoring_animation]: [true] when the call
    raises.  Each of the three branches plays its animation on the
    matrix and then calls the bare name [trigger_wled_effect]; that
    function is defined in the class body (line 486), so it is not a
    global of the module and the call raises [NameError].  A label
    outside the three matches no branch and the method returns. *)
Definition _trigger_scoring_animation (team scoring_event : string) : bool :=
  if String.eqb scoring_event "TOUCHDOWN" then true
  else if String.eqb scoring_event "FIELD GOAL" then true
  else if String.eqb scoring_event "PAT" then true
  else false.

(** Lines 210-218: the team holding [possession]. *)
Definition scoring_team_of (game : Game) : option string :=
  if bool_decide (possession game = home_id game) then Some (upper (home_abbr game))
  else if bool_decide (possession game = away_id game) then Some (upper (away_abbr game))
  else None.

(** The body of the [for] loop, lines 194-229, up to the call of
    [_trigger_scoring_animation]: the tracker afterwards and the alert
    to dispatch, if any. *)
Definition check_game (favorite_teams : list string)
    (last_scoring_events : gmap string string) (game : Game)
    : gmap string string * option Alert :=
  let game_id := game_id game in
  let scoring_event := scoring_event game in
  if negb (truthy scoring_event) || negb (truthy game_id) then
    (delete game_id last_scoring_events, None)
  else if bool_decide (last_scoring_events !! game_id = Some scoring_event) then
    (last_scoring_events, None)
  else
    let tracked := <[game_id := scoring_event]> last_scoring_events in
    match scoring_team_of game with
    | Some scoring_team =>
        if negb (truthy scoring_team) then (tracked, None)
        else if bool_decide (scoring_team ∈ map upper favorite_teams)
        then (tracked, Some (scoring_team, scoring_event))
        else (tracked, None)
    | None => (tracked, None)
    end.

(** What one run of the loop leaves behind: the tracker, the alerts
    dispatched in order, and whether an exception left the loop. *)
Record Checked := {
  ck_tracker : gmap string string;
  ck_alerts  : list Alert;
  ck_raised  : bool
}.

Fixpoint check_loop (favorite_teams : list string)
    (last_scoring_events : gmap string string) (games : list Game) : Checked :=
  match games with
  | [] => {| ck_tracker := last_scoring_events; ck_alerts := []; ck_raised := false |}
  | game :: rest =>
      match check_game favorite_teams last_scoring_events game with
      | (tracked, None) => check_loop favorite_teams tracked rest
      | (tracked, Some alert) =>
          if _trigger_scoring_animation alert.1 alert.2 then
            {| ck_tracker := tracked; ck_alerts := [alert]; ck_raised := true |}
          else
            let later := check_loop favorite_teams tracked rest in
            {| ck_tracker := ck_tracker later;
               ck_alerts := alert :: ck_alerts later;
               ck_raised := ck_raised later |}
      end
  end.

(** [FootballLive._check_scoring_events] *)
Definition _check_scoring_events (scoring_alerts_enabled : bool)
    (favorite_teams : list string)
    (last_scoring_events : gmap string string) (live_games : list Game) : Checked :=
  if negb scoring_alerts_enabled then
    {| ck_tracker := last_scoring_events; ck_alerts := []; ck_raised := false |}
  else check_loop favorite_teams last_scoring_events live_games.

End Tracker.

(* ================================================================== *)
(** ** The test-mode clock (lines 354-388) *)
(* ================================================================== *)

Module TestClock.
Import Text Extractor.
Local Open Scope string_scope.

(** [int(s)] on ASCII text: surrounding whitespace (tab to carriage
    return, and the blank), an optional sign, decimal digits with
    single underscores between them; [None] is [ValueError]. *)
Definition is_space (c : ascii) : bool :=
  let n := nat_of_ascii c in
  (((9 <=? n) && (n <=? 13)) || (n =? 32))%nat.

Definition digit_of (c : ascii) : option Z :=
  let n := nat_of_ascii c in
  if ((48 <=? n) && (n <=? 57))%nat then Some (Z.of_nat (n - 48)) else None.

Fixpoint lstrip (s : string) : string :=
  match s with
  | String c s' => if is_space c then lstrip s' else s
  | EmptyString => EmptyString
  end.

Fixpoint rstrip (s : string) : string :=
  match s with
  | String c s' =>
      match rstrip s' with
      | EmptyString => if is_space c then EmptyString else String c EmptyString
      | r => String c r
      end
  | EmptyString => EmptyString
  end.

Fixpoint more_digits (acc : Z) (s : string) : option Z :=
  match s with
  | EmptyString => Some acc
  | String c s' =>
      match digit_of c with
      | Some d => more_digits (10 * acc + d) s'
      | None =>
          if Ascii.eqb c "_" then
            match s' with
            | String c' s'' =>
                match digit_of c' with
                | Some d => more_digits (10 * acc + d) s''
                | None => None
                end
            | EmptyString => None
            end
          else None
      end
  end.

Definition unsigned_int (s : string) : option Z :=
  match s with
  | String c s' =>
      match digit_of c with
      | Some d => more_digits d s'
      | None => None
      end
  | EmptyString => None
  end.

Definition int (s : string) : option Z :=
  match rstrip (lstrip s) with
  | String "-" s' => Z.opp <$> unsigned_int s'
  | String "+" s' => unsigned_int s'
  | t => unsigned_int t
  end.

(** [s.split(':')] *)
Fixpoint split_colon (s : string) : list string :=
  match s with
  | EmptyString => [EmptyString]
  | String c s' =>
      if Ascii.eqb c ":" then EmptyString :: split_colon s'
      else match split_colon s' with
           | part :: parts => String c part :: parts
           | [] => [String c EmptyString]
           end
  end.

(** [minutes, seconds = map(int, clock.split(':'))] *)
Definition parse_clock (clock : string) : option (Z * Z) :=
  match split_colon clock with
  | [m; s] =>
      match int m, int s with
      | Some minutes, Some seconds => Some (minutes, seconds)
      | _, _ => None
      end
  | _ => None
  end.

(** [str(n)] for [0 <= n], and the format [{n:02d}]. *)
Definition str_nonneg (n : Z) : string :=
  DecimalString.NilZero.string_of_uint (N.to_uint (Z.to_N n)).

Definition format_02d (n : Z) : string :=
  if (n <? 0)%Z then "-" ++ str_nonneg (- n)
  else if (n <? 10)%Z then "0" ++ str_nonneg n
  else str_nonneg n.

Definition ordinal (k : Z) : string :=
  if (k =? 0)%Z then "1st" else if (k =? 1)%Z then "2nd"
  else if (k =? 2)%Z then "3rd" else "4th".

(** What the end of a quarter does to period, period text, live and
    final flags (lines 363-377). *)
Definition next_period_text (period : Z) (old : string) : string :=
  if (period =? 1)%Z then "Q1" else if (period =? 2)%Z then "Q2"
  else if (period =? 3)%Z then "Q3" else if (period =? 4)%Z then "Q4"
  else old.

(** The [try] block: the game after one simulated second, [None] when
    the clock text does not parse ([ValueError], nothing written yet). *)
Definition simulate_clock (game : Game) : option Game :=
  match parse_clock (clock game) with
  | None => None
  | Some (minutes0, seconds0) =>
      let seconds1 := seconds0 - 1 in
      let underflow := (seconds1 <? 0)%Z in
      let minutes1 := if underflow then minutes0 - 1 else minutes0 in
      let quarter_over := underflow && (minutes1 <? 0)%Z in
      let advance := quarter_over && (period game <? 4)%Z in
      let finish := quarter_over && negb (period game <? 4)%Z in
      let period' := if advance then period game + 1 else period game in
      let period_text' :=
        if advance then next_period_text period' (period_text game)
        else if finish then "Final" else period_text game in
      let minutes :=
        if advance then 15 else if finish then 0 else minutes1 in
      let seconds :=
        if quarter_over then 0 else if underflow then 59 else seconds1 in
      let clock' := format_02d minutes ++ ":" ++ format_02d seconds in
      let down_distance_text' :=
        if (seconds mod 15 =? 0)%Z
        then Some (ordinal (seconds mod 4) ++ " & " ++ str_nonneg (seconds mod 10 + 1))
        else down_distance_text game in
      Some {| game_id := game_id game;
              home_id := home_id game;
              away_id := away_id game;
              home_abbr := home_abbr game;
              away_abbr := away_abbr game;
              home_score := home_score game;
              away_score := away_score game;
              start_time_utc := start_time_utc game;
              is_live := if finish then false else is_live game;
              is_halftime := is_halftime game;
              is_final := if finish then true else is_final game;
              is_upcoming := is_upcoming game;
              status_text := period_text' ++ " " ++ clock';
              period := period';
              period_text := period_text';
              clock := clock';
              home_timeouts := home_timeouts game;
              away_timeouts := away_timeouts game;
              down_distance_text := down_distance_text';
              is_redzone := is_redzone game;
              possession := possession game;
              possession_indicator := possession_indicator game;
              scoring_event := scoring_event game |}
  end.

End TestClock.

(* ================================================================== *)
(** ** FootballLive.update *)
(* ================================================================== *)

Module Live.
Import Text Extractor Tracker.

(** Attributes that [update] reads and never writes. *)
Record Config := {
  is_enabled : bool;
  test_mode : bool;
  show_ranking : bool;
  show_odds : bool;
  show_favorite_teams_only : bool;
  favorite_teams : list string;
  scoring_alerts_enabled : bool;
  update_interval : Z;        (* live_update_interval, default 15 *)
  no_data_interval : Z;       (* 300 *)
  game_display_duration : Z;  (* live_game_duration, default 20 *)
  log_interval : Z            (* 300 *)
}.

(** Attributes that [update] writes. *)
Record State := {
  last_update : Z;
  live_games : list Game;
  current_game : option Game;
  current_game_index : nat;
  last_game_switch : Z;
  last_log_time : Z;
  last_scoring_events : gmap string string
}.

(** The state of [__init__] (lines 167-179); [current_game] starts as
    [None] in the base class. *)
Definition initial : State :=
  {| last_update := 0; live_games := []; current_game := None;
     current_game_index := 0; last_game_switch := 0; last_log_time := 0;
     last_scoring_events := ∅ |}.

(** What one call of [update] reads from outside: the two readings of
    [time.time()] (lines 332 and 409), the answer of [_fetch_data]
    ([None] when [data and "events" in data] is false, otherwise
    [data["events"]]), and the readings of [datetime.now] taken by the
    sort key, one per candidate position. *)
Record Env := {
  current_time : Z;
  current_time_for_log : Z;
  data : option (list Event);
  key_clock : nat -> Z
}.

(** What one call of [update] does to the outside. *)
Inductive Effect :=
| CallFetchRankings
| CallFetchData
| CallFetchOdds (game : string)
| LogFound (count : nat)
| LogGameLine (away home status : string)
| LogNoGames
| LogEnded
| WarnKeepExisting
| WarnNoData
| WarnClock
| ScoringAlert (team event : string)
| LogSwitched (away home : string).

Record Outcome := {
  out_state : State;
  out_effects : list Effect;
  out_raised : bool
}.

Definition set_last_update (t : Z) (st : State) : State :=
  {| last_update := t; live_games := live_games st;
     current_game := current_game st;
     current_game_index := current_game_index st;
     last_game_switch := last_game_switch st;
     last_log_time := last_log_time st;
     last_scoring_events := last_scoring_events st |}.

Definition set_last_log_time (t : Z) (st : State) : State :=
  {| last_update := last_update st; live_games := live_games st;
     current_game := current_game st;
     current_game_index := current_game_index st;
     last_game_switch := last_game_switch st;
     last_log_time := t;
     last_scoring_events := last_scoring_events st |}.

Definition set_tracker (tr : gmap string string) (st : State) : State :=
  {| last_update := last_update st; live_games := live_games st;
     current_game := current_game st;
     current_game_index := current_game_index st;
     last_game_switch := last_game_switch st;
     last_log_time := last_log_time st;
     last_scoring_events := tr |}.

(** Writes to the tracked list and to the selection. *)
Definition set_selection (games : list Game) (cur : option Game) (idx : nat)
    (switch : Z) (st : State) : State :=
  {| last_update := last_update st; live_games := games;
     current_game := cur;
     current_game_index := idx;
     last_game_switch := switch;
     last_log_time := last_log_time st;
     last_scoring_events := last_scoring_events st |}.

(** Line 342. *)
Definition poll_interval (cfg : Config) (st : State) : Z :=
  if bool_decide (live_games st = []) && negb (test_mode cfg)
  then no_data_interval cfg else update_interval cfg.

(** Line 345. *)
Definition poll_due (cfg : Config) (st : State) (now : Z) : bool :=
  (poll_interval cfg st <=? now - last_update st)%Z.

(** Lines 354-388.  The dictionary is mutated in place; the list slot
    at [current_game_index] is that same object whenever this class set
    the selection, so the slot is rewritten with it. *)
Definition test_mode_step (st : State) : State * list Effect :=
  match current_game st with
  | Some game =>
      if is_live game then
        match TestClock.simulate_clock game with
        | Some game' =>
            (set_selection (<[current_game_index st := game']> (live_games st))
               (Some game') (current_game_index st) (last_game_switch st) st, [])
        | None => (st, [WarnClock])
        end
      else (st, [])
  | None => (st, [])
  end.

(** Lines 395-404. *)
Definition keep_game (cfg : Config) (details : Game) : bool :=
  (is_live details || is_halftime details) &&
  (if show_favorite_teams_only cfg
   then bool_decide (home_abbr details ∈ favorite_teams cfg)
        || bool_decide (away_abbr details ∈ favorite_teams cfg)
   else true).

Fixpoint collect_live_games (cfg : Config) (events : list Event) : list Game :=
  match events with
  | [] => []
  | game :: rest =>
      match _extract_game_details game with
      | Some details =>
          if keep_game cfg details
          then details :: collect_live_games cfg rest
          else collect_live_games cfg rest
      | None => collect_live_games cfg rest
      end
  end.

(** Lines 405-407. *)
Definition odds_effects (cfg : Config) (new_live_games : list Game) : list Effect :=
  if show_odds cfg then (fun g => CallFetchOdds (game_id g)) <$> new_live_games else [].

(** Lines 410-415. *)
Fixpoint ids_differ_pairwise (old new : list Game) : bool :=
  match old, new with
  | g1 :: old', g2 :: new' =>
      negb (String.eqb (game_id g1) (game_id g2)) || ids_differ_pairwise old' new'
  | _, _ => false
  end.

Definition should_log (cfg : Config) (st : State) (now_log : Z)
    (new_live_games : list Game) : bool :=
  (log_interval cfg <=? now_log - last_log_time st)%Z
  || negb (length new_live_games =? length (live_games st))%nat
  || ids_differ_pairwise (live_games st) new_live_games
  || (bool_decide (live_games st = []) && negb (bool_decide (new_live_games = []))).

(** Lines 417-426. *)
Definition log_step (cfg : Config) (st : State) (now_log : Z)
    (new_live_games : list Game) : State * list Effect :=
  if should_log cfg st now_log new_live_games then
    (set_last_log_time now_log st,
     match new_live_games with
     | [] => [LogNoGames]
     | _ => LogFound (length new_live_games)
            :: ((fun g => LogGameLine (away_abbr g) (home_abbr g) (status_text g))
                  <$> new_live_games)
     end)
  else (st, []).

(** [{g['id'] for g in games}] *)
Definition id_set (games : list Game) : gset string :=
  list_to_set (game_id <$> games).

(** [sorted(new_live_games, key=lambda g: g.get('start_time_utc') or
    datetime.now(timezone.utc))]: the key of each candidate is computed
    once, in list order, and the sort is stable. *)
Definition sort_key (clk : nat -> Z) (i : nat) (g : Game) : Z :=
  default (clk i) (start_time_utc g).

Definition decorate (clk : nat -> Z) (games : list Game) : list (Z * Game) :=
  imap (fun i g => (sort_key clk i g, g)) games.

Fixpoint insert_keyed (x : Z * Game) (l : list (Z * Game)) : list (Z * Game) :=
  match l with
  | [] => [x]
  | y :: l' => if (x.1 <=? y.1)%Z then x :: y :: l' else y :: insert_keyed x l'
  end.

Fixpoint sort_keyed (l : list (Z * Game)) : list (Z * Game) :=
  match l with
  | [] => []
  | x :: l' => insert_keyed x (sort_keyed l')
  end.

Definition sorted_by_start (clk : nat -> Z) (games : list Game) : list Game :=
  snd <$> sort_keyed (decorate clk games).

(** [next(i for i, g in enumerate(games) if g['id'] == wanted)];
    [None] is [StopIteration]. *)
Definition index_of_id (wanted : string) (games : list Game) : option nat :=
  fst <$> list_find (fun g => game_id g = wanted) games.

(** Lines 436-450: the id sets differ. *)
Definition replace_games (st : State) (now : Z) (clk : nat -> Z)
    (new_live_games : list Game) : State :=
  let games := sorted_by_start clk new_live_games in
  let reset := set_selection games (games !! 0%nat) 0 now st in
  match current_game st with
  | Some cur =>
      if bool_decide (game_id cur ∈ id_set new_live_games) then
        match index_of_id (game_id cur) games with
        | Some i => set_selection games (games !! i) i (last_game_switch st) st
        | None => reset
        end
      else reset
  | None => reset
  end.

(** Line 454: a later candidate with the same id overwrites an earlier
    one. *)
Definition temp_game_dict (new_live_games : list Game) : gmap string Game :=
  foldl (fun m g => <[game_id g := g]> m) ∅ new_live_games.

(** Lines 454-457: the id sets are equal. *)
Definition refresh_games (st : State) (new_live_games : list Game) : State :=
  let fresh := temp_game_dict new_live_games in
  let pick := fun g : Game => default g (fresh !! game_id g) in
  set_selection (pick <$> live_games st) (pick <$> current_game st)
    (current_game_index st) (last_game_switch st) st.

(** Lines 432-457: reconciliation against a non-empty candidate list. *)
Definition reconcile (st : State) (now : Z) (clk : nat -> Z)
    (new_live_games : list Game) : State :=
  if bool_decide (id_set new_live_games ≠ id_set (live_games st))
  then replace_games st now clk new_live_games
  else refresh_games st new_live_games.

(** Lines 462-468: the candidate list is empty. *)
Definition clear_games (st : State) : State * list Effect :=
  (set_selection [] None 0 (last_game_switch st) st,
   match live_games st with [] => [] | _ => [LogEnded] end).

(** Lines 470-476: the fetch gave nothing usable. *)
Definition fetch_failed (st : State) : State * list Effect :=
  match live_games st with
  | [] => (set_selection (live_games st) None (current_game_index st)
             (last_game_switch st) st, [WarnNoData])
  | _ => (st, [WarnKeepExisting])
  end.

(** Lines 479-483. *)
Definition rotation_due (cfg : Config) (st : State) (now : Z) : bool :=
  negb (test_mode cfg) && (1 <? length (live_games st))%nat
  && (game_display_duration cfg <=? now - last_game_switch st)%Z.

Definition rotate (cfg : Config) (st : State) (now : Z) : State * list Effect :=
  if rotation_due cfg st now then
    let idx := ((current_game_index st + 1) mod length (live_games st))%nat in
    let cur := live_games st !! idx in
    (set_selection (live_games st) cur idx now st,
     match cur with
     | Some g => [LogSwitched (away_abbr g) (home_abbr g)]
     | None => []
     end)
  else (st, []).

(** Lines 392-476: the branch taken outside test mode, up to the
    rotation.  The flag tells whether [_check_scoring_events] raised. *)
Definition fetch_step (cfg : Config) (st : State) (env : Env)
    : State * list Effect * bool :=
  match data env with
  | Some events =>
      let new_live_games := collect_live_games cfg events in
      let '(st1, logged) := log_step cfg st (current_time_for_log env) new_live_games in
      let before := CallFetchData :: odds_effects cfg new_live_games ++ logged in
      match new_live_games with
      | [] =>
          let '(st2, eff) := clear_games st1 in (st2, before ++ eff, false)
      | _ =>
          let st2 := reconcile st1 (current_time env) (key_clock env) new_live_games in
          let ck := _check_scoring_events (scoring_alerts_enabled cfg)
                      (favorite_teams cfg) (last_scoring_events st2) (live_games st2) in
          (set_tracker (ck_tracker ck) st2,
           before ++ ((fun a : Alert => ScoringAlert a.1 a.2) <$> ck_alerts ck),
           ck_raised ck)
      end
  | None =>
      let '(st1, eff) := fetch_failed st in (st1, CallFetchData :: eff, false)
  end.

(** Lines 348-476: what runs, once the poll is due, before the
    rotation. *)
Definition poll_body (cfg : Config) (st : State) (env : Env)
    : State * list Effect * bool :=
  let rankings := if show_ranking cfg then [CallFetchRankings] else [] in
  let '(st1, eff, raised) :=
    if test_mode cfg then
      let '(s, e) := test_mode_step st in (s, e, false)
    else fetch_step cfg st env in
  (st1, rankings ++ eff, raised).

(** [FootballLive.update].  An exception raised by
    [_check_scoring_events] leaves [update] before the rotation. *)
Definition update (cfg : Config) (st : State) (env : Env) : Outcome :=
  if negb (is_enabled cfg) then
    {| out_state := st; out_effects := []; out_raised := false |}
  else if poll_due cfg st (current_time env) then
    let '(st1, eff1, raised) :=
      poll_body cfg (set_last_update (current_time env) st) env in
    if raised then
      {| out_state := st1; out_effects := eff1; out_raised := true |}
    else
      let '(st2, eff2) := rotate cfg st1 (current_time env) in
      {| out_state := st2; out_effects := eff1 ++ eff2; out_raised := false |}
  else
    {| out_state := st; out_effects := []; out_raised := false |}.

#[global] Instance Effect_eq_dec : EqDecision Effect.
Proof. solve_decision. Defined.

End Live.


(* ================================================================== *)
(** ** Drawing: the border and the timeout bars *)
(* ================================================================== *)

Module Display.

(** An RGB color, and one call [matrix.SetPixel(x, y, r, g, b)]. *)
Definition Color : Type := Z * Z * Z.

Record SetPixel := { px : Z; py : Z; pcolor : Color }.

(** [FootballLive._draw_border] (lines 309-323): the calls it makes on
    a matrix of the given width and height, in order. *)
Definition _draw_border (width height : Z) (color : Color) : list SetPixel :=
  flat_map (fun x => [ {| px := x; py := 0; pcolor := color |};
                       {| px := x; py := height - 1; pcolor := color |} ])
           (seqZ 0 width)
  ++
  flat_map (fun y => [ {| px := 0; py := y; pcolor := color |};
                       {| px := width - 1; py := y; pcolor := color |} ])
           (seqZ 0 height).

(** One call [draw_overlay.rectangle([x0, y0, x1, y1], fill=...)] of
    the timeout bars; the outline is always black. *)
Record Bar := { x0 : Z; y0 : Z; x1 : Z; y1 : Z; fill : Color }.

Definition white : Color := (255, 255, 255).
Definition gray : Color := (80, 80, 80).

Definition timeout_bar_width : Z := 4.
Definition timeout_bar_height : Z := 2.
Definition timeout_spacing : Z := 1.

(** Lines 627-632 of [_draw_scorebug_layout]: the three bars of the
    away team, bottom left. *)
Definition away_timeout_bars (display_height away_timeouts_remaining : Z) : list Bar :=
  let timeout_y := display_height - timeout_bar_height - 1 in
  (fun i =>
     let to_x := 2 + i * (timeout_bar_width + timeout_spacing) in
     {| x0 := to_x; y0 := timeout_y;
        x1 := to_x + timeout_bar_width; y1 := timeout_y + timeout_bar_height;
        fill := if (i <? away_timeouts_remaining)%Z then white else gray |})
  <$> seqZ 0 3.

(** Lines 634-639: the three bars of the home team, bottom right. *)
Definition home_timeout_bars (display_width display_height home_timeouts_remaining : Z)
    : list Bar :=
  let timeout_y := display_height - timeout_bar_height - 1 in
  (fun i =>
     let to_x := display_width - 2 - timeout_bar_width
                 - (2 - i) * (timeout_bar_width + timeout_spacing) in
     {| x0 := to_x; y0 := timeout_y;
        x1 := to_x + timeout_bar_width; y1 := timeout_y + timeout_bar_height;
        fill := if (i <? home_timeouts_remaining)%Z then white else gray |})
  <$> seqZ 0 3.

End Display.
(* ================================================================== *)
(** ** Observations and sample data used by the statements below *)
(* ================================================================== *)

Import Text Extractor Tracker Live.

Module Samples.
Local Open Scope string_scope.

(** Feed records. *)
Definition details_of (id : string) (start : option Z) : Details :=
  {| d_id := id; d_home_id := Some "12"; d_away_id := Some "7";
     d_home_abbr := "KC"; d_away_abbr := "DEN";
     d_home_score := "14"; d_away_score := "10";
     d_start_time_utc := start; d_game_time := Some "7:30PM";
     d_is_live := true; d_is_halftime := false; d_is_final := false;
     d_is_upcoming := false; d_status_text := "Q2 3:10" |}.

Definition sample_details : Details := details_of "401" (Some 1000).

Definition sample_status (state long short : string) : Status :=
  {| st_state := state; st_name := "STATUS_IN_PROGRESS";
     st_detail := Some long; st_shortDetail := Some short;
     st_period := Some 2; st_displayClock := Some "3:10" |}.

Definition sample_situation (home away : option Z) : Situation :=
  {| sit_shortDownDistanceText := Some "1st & 10";
     sit_isRedZone := Some false;
     sit_possession := Some "12";
     sit_homeTimeouts := home;
     sit_awayTimeouts := away |}.

Definition event_of (details : Details) (status : Status)
    (situation : option Situation) : Event :=
  {| ev_details := Some details;
     ev_home_team := Some {| team_id := Some "12" |};
     ev_away_team := Some {| team_id := Some "7" |};
     ev_status_common := Some status;
     ev_situation := situation;
     ev_status := Some status |}.

Definition sample_event (status : Status) (situation : option Situation) : Event :=
  event_of sample_details status situation.

(** An in-play event with the given id, start time and long status
    detail. *)
Definition live_event (id : string) (start : option Z) (long : string) : Event :=
  event_of (details_of id start) (sample_status "in" long "Q2")
           (Some (sample_situation (Some 3) (Some 3))).

Definition point_after_event : Event :=
  sample_event (sample_status "in" "2nd Quarter" "Point After Attempt")
               (Some (sample_situation (Some 3) (Some 2))).

Definition pre_event : Event :=
  sample_event (sample_status "pre" "Sun 7:30 PM" "7:30 PM") None.

Definition in_play_event_without_timeouts : Event :=
  sample_event (sample_status "in" "2nd Quarter" "Q2")
               (Some (sample_situation None (Some 1))).

(** A live game KC (home, team id 12) against DEN (away, team id 7),
    KC in possession, with the given id, start time, score and
    scoring label. *)
Definition game (id : string) (start : option Z) (score label : string) : Game :=
  {| game_id := id; home_id := Some "12"; away_id := Some "7";
     home_abbr := "KC"; away_abbr := "DEN";
     home_score := score; away_score := "10";
     start_time_utc := start;
     is_live := true; is_halftime := false; is_final := false;
     is_upcoming := false; status_text := "Q2 3:10";
     period := 2; period_text := "Q2"; clock := "3:10";
     home_timeouts := 3; away_timeouts := 3;
     down_distance_text := Some "1st & 10"; is_redzone := Some false;
     possession := Some "12"; possession_indicator := Some "home";
     scoring_event := label |}.

Definition in_play_game_without_timeouts : Game :=
  Eval vm_compute in
    default (game "" None "" "")
            (_extract_game_details in_play_event_without_timeouts).

(** The default intervals: poll every 15 s, every 300 s when idle,
    20 s per displayed game. *)
Definition config (test : bool) : Config :=
  {| is_enabled := true; test_mode := test;
     show_ranking := false; show_odds := false;
     show_favorite_teams_only := false;
     favorite_teams := ["KC"];
     scoring_alerts_enabled := true;
     update_interval := 15; no_data_interval := 300;
     game_display_duration := 20; log_interval := 300 |}.

Definition env_at (now : Z) (data : option (list Event)) : Env :=
  {| current_time := now; current_time_for_log := now;
     data := data; key_clock := fun _ => now |}.

(** A state tracking [games] with the game at [idx] selected. *)
Definition tracking (games : list Game) (idx : nat) (updated switched : Z)
    (tracker : gmap string string) : State :=
  {| last_update := updated; live_games := games;
     current_game := games !! idx; current_game_index := idx;
     last_game_switch := switched; last_log_time := updated;
     last_scoring_events := tracker |}.

(** Game 401 with a given scoring label, and a favorite list naming
    its home team. *)
Definition scoring (label : string) : Game := game "401" (Some 1000) "14" label.
Definition fans : list string := ["kc"; "buf"].

(** Nothing tracked, last update at 5000. *)
Definition idle_state : State := tracking [] 0 5000 0 ∅.

(** One game tracked since time 0, and a feed carrying it at 1000. *)
Definition one_game_state : State := tracking [game "1" (Some 50) "14" ""] 0 0 0 ∅.
Definition one_game_env : Env := env_at 1000 (Some [live_event "1" (Some 50) "Q2"]).

(** Games 1 and 2 tracked, game 1 selected, last update at 100 and
    last switch at 80; the feed carrying both games. *)
Definition two_games : list Game :=
  [game "1" (Some 50) "14" ""; game "2" (Some 70) "14" ""].
Definition two_game_state : State := tracking two_games 0 100 80 ∅.
Definition two_game_feed : option (list Event) :=
  Some [live_event "1" (Some 50) "Q2"; live_event "2" (Some 70) "Q2"].

(** The same two games with a new score for game 2. *)
Definition two_game_feed_later : option (list Event) :=
  Some [live_event "2" (Some 70) "3rd Quarter"; live_event "1" (Some 50) "Q2"].

(** Games 1 and 2 tracked with game 2 selected, and a feed that
    carries both and a third game. *)
Definition second_selected_state : State := tracking two_games 1 100 80 ∅.
Definition three_game_feed : option (list Event) :=
  Some [live_event "1" (Some 50) "Q2"; live_event "2" (Some 70) "Q2";
        live_event "3" (Some 90) "Q2"].

(** A feed carrying the same event twice. *)
Definition doubled_feed : option (list Event) :=
  Some [live_event "1" (Some 50) "Q2"; live_event "1" (Some 50) "Q2"].

(** Game 1 tracked with its touchdown recorded, game 2 beside it; a
    feed carrying game 2 only. *)
Definition scored_state : State :=
  tracking [game "1" (Some 50) "14" "TOUCHDOWN"; game "2" (Some 70) "14" ""]
           0 100 110 {[ "1" := "TOUCHDOWN" ]}.
Definition feed_without_game_1 : option (list Event) :=
  Some [live_event "2" (Some 70) "Q2"].

(** A feed on which game 1 shows no scoring label any more. *)
Definition feed_after_score : option (list Event) :=
  Some [live_event "1" (Some 50) "Q2"; live_event "2" (Some 70) "Q2"].

(** Four polls of game 401, 15 s apart, whose long status detail goes
    from no keyword to a touchdown, stays, and goes back. *)
Definition touchdown_feeds : list Env :=
  [env_at 1000 (Some [live_event "401" (Some 50) "2nd Quarter"]);
   env_at 1015 (Some [live_event "401" (Some 50) "Touchdown KC"]);
   env_at 1030 (Some [live_event "401" (Some 50) "Touchdown KC"]);
   env_at 1045 (Some [live_event "401" (Some 50) "2nd Quarter"])].

(** Four polls of games 1 and 2, 15 s apart: the long status detail of
    game 1 goes from no keyword to a field goal, to an extra point and
    back, that of game 2 from no keyword to a touchdown, stays, and
    goes back. *)
Definition two_scorer_feeds : list Env :=
  [env_at 1000 (Some [live_event "1" (Some 50) "2nd Quarter";
                      live_event "2" (Some 70) "2nd Quarter"]);
   env_at 1015 (Some [live_event "1" (Some 50) "Field Goal KC";
                      live_event "2" (Some 70) "Touchdown KC"]);
   env_at 1030 (Some [live_event "1" (Some 50) "Extra Point KC";
                      live_event "2" (Some 70) "Touchdown KC"]);
   env_at 1045 (Some [live_event "1" (Some 50) "2nd Quarter";
                      live_event "2" (Some 70) "2nd Quarter"])].

(** Game 401 at a given clock text and period. *)
Definition at_clock (text : string) (p : Z) : Game :=
  {| game_id := "401"; home_id := Some "12"; away_id := Some "7";
     home_abbr := "KC"; away_abbr := "DEN";
     home_score := "14"; away_score := "10";
     start_time_utc := Some 1000;
     is_live := true; is_halftime := false; is_final := false;
     is_upcoming := false; status_text := "";
     period := p; period_text := "Q?"; clock := text;
     home_timeouts := 3; away_timeouts := 3;
     down_distance_text := Some "1st & 10"; is_redzone := Some false;
     possession := Some "12"; possession_indicator := Some "home";
     scoring_event := "" |}.

(** An event for which the common step found no details. *)
Definition broken_event : Event :=
  {| ev_details := None;
     ev_home_team := Some {| team_id := Some "12" |};
     ev_away_team := Some {| team_id := Some "7" |};
     ev_status_common := Some (sample_status "in" "Q2" "Q2");
     ev_situation := None;
     ev_status := Some (sample_status "in" "Q2" "Q2") |}.

End Samples.

(** The outcomes of successive ticks, each starting from the state the
    previous one left, and the scoring alerts among some effects. *)
Fixpoint ticks (cfg : Config) (st : State) (envs : list Env) : list Outcome :=
  match envs with
  | [] => []
  | env :: rest =>
      let out := update cfg st env in
      out :: ticks cfg (out_state out) rest
  end.

Definition scoring_alerts (effects : list Effect) : list Effect :=
  List.filter (fun e => match e with ScoringAlert _ _ => true | _ => false end) effects.

Definition is_alert (e : Effect) : bool :=
  match e with ScoringAlert _ _ => true | _ => false end.

(** The timeout fields of the feed, [None] when the feed omits them. *)
Definition feed_home_timeouts (ev : Event) : option Z :=
  ev_situation ev ≫= sit_homeTimeouts.

Definition feed_away_timeouts (ev : Event) : option Z :=
  ev_situation ev ≫= sit_awayTimeouts.

(** The block of lines 82-117 runs: a situation is there and the state
    is "in". *)
Definition in_play (ev : Event) : bool :=
  match ev_situation ev, ev_status ev with
  | Some _, Some status => String.eqb (st_state status) "in"
  | _, _ => false
  end.

(** The team an alert is due for when the game's label is new: the
    team in possession, provided it is one of the favorites. *)
Definition alert_due (favorite_teams : list string) (game : Game) : option string :=
  match scoring_team_of game with
  | Some team =>
      if truthy team && bool_decide (team ∈ map upper favorite_teams)
      then Some team else None
  | None => None
  end.

(** Ascending start times, wherever both games carry one. *)
Definition by_start (a b : Game) : Prop :=
  forall ta tb, start_time_utc a = Some ta -> start_time_utc b = Some tb -> ta <= tb.

(** The order of the decorated candidates, and what a key is for a
    game that has a start time. *)
Definition key_le (x y : Z * Game) : Prop := x.1 <= y.1.

Definition key_is_start (x : Z * Game) : Prop :=
  forall t, start_time_utc x.2 = Some t -> x.1 = t.

(** The candidate list of a tick ([new_live_games]), empty when the
    fetch gave nothing usable, and the state left by the fetch branch
    (lines 392-476), before the rotation. *)
Definition candidates (cfg : Config) (env : Env) : list Game :=
  match data env with
  | Some events => collect_live_games cfg events
  | None => []
  end.

Definition reconciled (cfg : Config) (st : State) (env : Env) : State :=
  (fetch_step cfg st env).1.1.

(** The record the merge of line 455 puts in place of [g]. *)
Definition refreshed (new_live_games : list Game) (g : Game) : Game :=
  default g (temp_game_dict new_live_games !! game_id g).

(** A feed whose live candidates carry pairwise distinct ids. *)
Definition distinct_candidates (cfg : Config) (env : Env) : Prop :=
  NoDup (game_id <$> candidates cfg env).

(** The states [update] can produce from the initial one, fed with
    such feeds. *)
Inductive reachable (cfg : Config) : State -> Prop :=
| reach_initial : reachable cfg initial
| reach_update st env :
    reachable cfg st -> distinct_candidates cfg env ->
    reachable cfg (out_state (update cfg st env)).

(** No two tracked games share an id. *)
Definition distinct_ids (st : State) : Prop :=
  NoDup (game_id <$> live_games st).

(** The selection names the list slot at the index (no game when the
    list is empty). *)
Definition selection_valid (st : State) : Prop :=
  current_game st = live_games st !! current_game_index st.

Definition well_formed (st : State) : Prop :=
  distinct_ids st /\ selection_valid st.

(** Every keyword of the scan, and the labels it can give. *)
Definition scoring_keywords : list string :=
  ["touchdown"; "td"; "field goal"; "fg"; "extra point"; "pat"; "point after"]%string.

Definition scoring_labels : list string :=
  [""; "TOUCHDOWN"; "FIELD GOAL"; "PAT"]%string.

(** The same status and event with other detail texts. *)
Definition with_texts (long short : option string) (status : Status) : Status :=
  {| st_state := st_state status; st_name := st_name status;
     st_detail := long; st_shortDetail := short;
     st_period := st_period status; st_displayClock := st_displayClock status |}.

Definition retexted (f : string -> string) (ev : Event) : Event :=
  {| ev_details := ev_details ev; ev_home_team := ev_home_team ev;
     ev_away_team := ev_away_team ev; ev_status_common := ev_status_common ev;
     ev_situation := ev_situation ev;
     ev_status :=
       (fun status => with_texts (f <$> st_detail status) (f <$> st_shortDetail status)
                        status) <$> ev_status ev |}.

(** The value of a decimal numeral read from its first digit on, after
    the digits already read gave [acc]. *)
Fixpoint uint_value (d : Decimal.uint) (acc : Z) : Z :=
  match d with
  | Decimal.Nil => acc
  | Decimal.D0 d => uint_value d (10 * acc)
  | Decimal.D1 d => uint_value d (10 * acc + 1)
  | Decimal.D2 d => uint_value d (10 * acc + 2)
  | Decimal.D3 d => uint_value d (10 * acc + 3)
  | Decimal.D4 d => uint_value d (10 * acc + 4)
  | Decimal.D5 d => uint_value d (10 * acc + 5)
  | Decimal.D6 d => uint_value d (10 * acc + 6)
  | Decimal.D7 d => uint_value d (10 * acc + 7)
  | Decimal.D8 d => uint_value d (10 * acc + 8)
  | Decimal.D9 d => uint_value d (10 * acc + 9)
  end.

(** A text without blanks and colons. *)
Fixpoint solid (s : string) : bool :=
  match s with
  | EmptyString => true
  | String c s' => negb (TestClock.is_space c) && negb (Ascii.eqb c ":") && solid s'
  end.

(** [n] simulated seconds, one after the other. *)
Fixpoint simulate_n (n : nat) (game : Game) : option Game :=
  match n with
  | O => Some game
  | S n' => TestClock.simulate_clock game ≫= simulate_n n'
  end.

(** The simulated seconds a game with a well-formed clock has left
    before it is final: the rest of the quarter, the quarters to come
    (900 s each), and one second for each end of a quarter. *)
Definition seconds_to_final (period minutes seconds : Z) : Z :=
  60 * minutes + seconds + 1 + 901 * Z.max 0 (4 - period).

(** The rotation of lines 479-483 is reached and fires on a due poll
    outside test mode: the scoring check raised nothing, more than one
    of the [n] tracked games, and the selected game has been shown for
    the display duration. *)
Definition rotation_fires (cfg : Config) (out : Outcome) (n : nat) (shown : Z) : bool :=
  negb (out_raised out) && (1 <? n)%nat && (game_display_duration cfg <=? shown)%Z.

(** A text of ASCII characters only. *)
Fixpoint ascii_text (s : string) : bool :=
  match s with
  | EmptyString => true
  | String c s' => (nat_of_ascii c <? 128)%nat && ascii_text s'
  end.

(** The index names a slot of a non-empty list. *)
Definition index_in_range (st : State) : Prop :=
  live_games st <> [] -> (current_game_index st < length (live_games st))%nat.

(** Successive rotation steps at the given times. *)
Definition rotations (cfg : Config) (st : State) (times : list Z) : State :=
  foldl (fun s t => (rotate cfg s t).1) st times.

(** Times of which each is at least [d] after the one before, the
    first at least [d] after [last]. *)
Fixpoint spaced (d last : Z) (times : list Z) : Prop :=
  match times with
  | [] => True
  | t :: rest => d <= t - last /\ spaced d t rest
  end.

(** A bar covers the pixels from its first to its last corner, both
    included; two bars overlap when they share a pixel. *)
Definition bar_pixel (b : Display.Bar) (x y : Z) : Prop :=
  Display.x0 b <= x <= Display.x1 b /\ Display.y0 b <= y <= Display.y1 b.

Definition white_bars (bars : list Display.Bar) : nat :=
  length (List.filter (fun b => bool_decide (Display.fill b = Display.white)) bars).

(** A text mentions one of the keywords: it is some text, then the
    keyword, then some text. *)
Definition mentions (keywords : list string) (s : string) : Prop :=
  exists kw pre post, kw ∈ keywords /\ s = (pre ++ kw ++ post)%string.

(* ================================================================== *)
(** * Properties *)
(* ================================================================== *)

(* ================================================================== *)
(** ** The extractor: scoring labels and timeouts *)
(* ================================================================== *)

Section ExtractorProperties.
Import Samples.
Local Open Scope string_scope.

Lemma extract_specific (ev : Event) (g : Game) :
  _extract_game_details ev = Some g ->
  exists status home_team away_team,
    ev_status ev = Some status /\
    let sp := football_specific (ev_situation ev) status home_team away_team in
    home_timeouts g = sp_home_timeouts sp /\
    away_timeouts g = sp_away_timeouts sp /\
    scoring_event g = sp_scoring_event sp.
Proof.
  unfold _extract_game_details.
  destruct (ev_details ev) as [details|]; [|discriminate].
  destruct (ev_home_team ev) as [home_team|]; [|discriminate].
  destruct (ev_away_team ev) as [away_team|]; [|discriminate].
  destruct (ev_status_common ev); [|discriminate].
  destruct (ev_status ev) as [status|]; [|discriminate].
  destruct (negb (truthy (d_home_abbr details)) || negb (truthy (d_away_abbr details)));
    [discriminate|].
  intros [= <-]. exists status, home_team, away_team. simpl. auto.
Qed.

(** The long text is scanned first: a keyword of any group in the long
    detail decides the label whatever the short detail says. *)
Lemma detect_long_touchdown (long short : string) :
  any_in ["touchdown"; "td"] long = true ->
  detect_scoring_event long short = "TOUCHDOWN".
Proof. intros H. unfold detect_scoring_event. now rewrite H. Qed.

Lemma detect_long_field_goal (long short : string) :
  any_in ["touchdown"; "td"] long = false ->
  any_in ["field goal"; "fg"] long = true ->
  detect_scoring_event long short = "FIELD GOAL".
Proof. intros H1 H2. unfold detect_scoring_event. now rewrite H1, H2. Qed.

Lemma detect_long_pat (long short : string) :
  any_in ["touchdown"; "td"] long = false ->
  any_in ["field goal"; "fg"] long = false ->
  any_in ["extra point"; "pat"; "point after"] long = true ->
  detect_scoring_event long short = "PAT".
Proof. intros H1 H2 H3. unfold detect_scoring_event. now rewrite H1, H2, H3. Qed.

(** The short-text chain tests "extra point" and "pat" only: a short
    detail whose one keyword is "point after" gets no label. *)
Lemma detect_short_point_after_missed (long short : string) :
  any_in ["touchdown"; "td"; "field goal"; "fg";
          "extra point"; "pat"; "point after"] long = false ->
  any_in ["touchdown"; "td"; "field goal"; "fg"; "extra point"; "pat"] short = false ->
  contains "point after" short = true ->
  detect_scoring_event long short = "".
Proof.
  intros Hlong Hshort _. unfold detect_scoring_event, any_in in *. simpl in *.
  repeat match goal with
         | H : (_ || _) = false |- _ => apply orb_false_elim in H; destruct H
         end.
  repeat match goal with H : contains _ _ = false |- _ => rewrite H; clear H end.
  reflexivity.
Qed.

(** C6 (the code at the failing input): an in-state event whose short
    detail contains "point after" and no other keyword, and whose long
    detail contains no keyword, is extracted with an empty
    [scoring_event], where the long-text chain would give "PAT". *)
Theorem extract_point_after_short_detail :
  contains "point after" (lower "Point After Attempt") = true /\
  scoring_event <$> _extract_game_details point_after_event = Some "" /\
  detect_scoring_event (lower "Point After Attempt") (lower "2nd Quarter") = "PAT".
Proof. repeat split; reflexivity. Qed.

(** C7 (as stated, refuted): an event in state "pre" without a
    situation record omits both timeout fields and is extracted with
    timeouts 0, not 3. *)
Lemma timeouts_default_outside_play_refuted :
  ~ (forall ev g, _extract_game_details ev = Some g ->
       (feed_home_timeouts ev = None -> home_timeouts g = 3) /\
       (feed_away_timeouts ev = None -> away_timeouts g = 3)).
Proof.
  intros H.
  destruct (_extract_game_details pre_event) as [g|] eqn:E; [|discriminate E].
  destruct (H pre_event g E) as [Hh _].
  specialize (Hh eq_refl).
  vm_compute in E. injection E as <-. discriminate Hh.
Qed.

(** C7 (amended): for a successfully extracted event, when a situation
    record is present and the state is "in", each timeout count is the
    feed's value, or 3 when the situation omits the field; in every
    other case both counts are 0. *)
Theorem timeouts_extracted (ev : Event) (g : Game) :
  _extract_game_details ev = Some g ->
  (in_play ev = true ->
     home_timeouts g = default 3 (feed_home_timeouts ev) /\
     away_timeouts g = default 3 (feed_away_timeouts ev)) /\
  (in_play ev = false -> home_timeouts g = 0 /\ away_timeouts g = 0).
Proof.
  intros E. destruct (extract_specific ev g E) as (status & ht & at_ & Hs & Hh & Ha & _).
  unfold in_play, feed_home_timeouts, feed_away_timeouts.
  rewrite Hh, Ha, Hs. clear Hh Ha E.
  unfold football_specific.
  destruct (ev_situation ev) as [sit|]; simpl.
  - destruct (String.eqb (st_state status) "in"); simpl; split; intros; try discriminate; auto.
  - split; intros; try discriminate; auto.
Qed.

Lemma timeouts_extracted_witness :
  home_timeouts in_play_game_without_timeouts = 3 /\
  away_timeouts in_play_game_without_timeouts = 1.
Proof.
  apply (timeouts_extracted in_play_event_without_timeouts
           in_play_game_without_timeouts); reflexivity.
Defined.

End ExtractorProperties.
(* ================================================================== *)
(** ** The scoring-event tracker *)
(* ================================================================== *)

Section TrackerProperties.
Import Samples.
Local Open Scope string_scope.

Variable favorite_teams : list string.

(** An empty label removes the entry and alerts nobody. *)
Lemma check_game_empty (tr : gmap string string) (g : Game) :
  scoring_event g = "" ->
  check_game favorite_teams tr g = (delete (game_id g) tr, None).
Proof. intros H. unfold check_game. now rewrite H. Qed.

(** A non-empty label already recorded for the id changes nothing:
    no second alert while the label stays. *)
Lemma check_game_same_label (tr : gmap string string) (g : Game) :
  truthy (game_id g) = true ->
  truthy (scoring_event g) = true ->
  tr !! game_id g = Some (scoring_event g) ->
  check_game favorite_teams tr g = (tr, None).
Proof.
  intros Hid Hev H. unfold check_game. rewrite Hid, Hev. simpl.
  now rewrite bool_decide_eq_true_2.
Qed.

(** A non-empty label that is not the recorded one is recorded, and
    alerts exactly when the team in possession is a favorite. *)
Lemma check_game_new_label (tr : gmap string string) (g : Game) :
  truthy (game_id g) = true ->
  truthy (scoring_event g) = true ->
  tr !! game_id g <> Some (scoring_event g) ->
  check_game favorite_teams tr g =
    (<[game_id g := scoring_event g]> tr,
     (fun team => (team, scoring_event g)) <$> alert_due favorite_teams g).
Proof.
  intros Hid Hev H. unfold check_game, alert_due. rewrite Hid, Hev. simpl.
  rewrite bool_decide_eq_false_2 by assumption.
  destruct (scoring_team_of g) as [team|]; [|reflexivity].
  destruct (truthy team); simpl; [|reflexivity].
  now destruct (bool_decide (team ∈ map upper favorite_teams)).
Qed.

(** The loop body reads and writes the entry of its own game only. *)
Lemma check_game_other (tr : gmap string string) (g : Game) (id : string) :
  id <> game_id g ->
  (check_game favorite_teams tr g).1 !! id = tr !! id.
Proof.
  intros Hne. unfold check_game.
  destruct (negb (truthy (scoring_event g)) || negb (truthy (game_id g))); simpl.
  { now rewrite lookup_delete_ne. }
  destruct (bool_decide (tr !! game_id g = Some (scoring_event g))); simpl; [reflexivity|].
  assert (<[game_id g := scoring_event g]> tr !! id = tr !! id) as E
    by now rewrite lookup_insert_ne.
  destruct (scoring_team_of g) as [team|]; [|exact E].
  destruct (negb (truthy team)); [exact E|].
  now destruct (bool_decide (team ∈ map upper favorite_teams)).
Qed.

Lemma check_loop_other (games : list Game) (tr : gmap string string) (id : string) :
  id ∉ game_id <$> games ->
  ck_tracker (check_loop favorite_teams tr games) !! id = tr !! id.
Proof.
  revert tr. induction games as [|g rest IH]; intros tr Hid; [reflexivity|].
  rewrite fmap_cons, not_elem_of_cons in Hid. destruct Hid as [Hne Hrest].
  simpl. pose proof (check_game_other tr g id Hne) as Hg.
  destruct (check_game favorite_teams tr g) as [tracked [alert|]]; simpl in *.
  - destruct (_trigger_scoring_animation alert.1 alert.2); simpl.
    + exact Hg.
    + rewrite IH by assumption. exact Hg.
  - rewrite IH by assumption. exact Hg.
Qed.

(** The loop over a list in two parts: the second part runs, on the
    tracker the first part left, unless the first part raised. *)
Lemma check_loop_app (first second : list Game) (tr : gmap string string) :
  check_loop favorite_teams tr (first ++ second) =
    let a := check_loop favorite_teams tr first in
    if ck_raised a then a
    else
      let b := check_loop favorite_teams (ck_tracker a) second in
      {| ck_tracker := ck_tracker b;
         ck_alerts := ck_alerts a ++ ck_alerts b;
         ck_raised := ck_raised b |}.
Proof.
  revert tr. induction first as [|g first IH]; intros tr; simpl.
  { now destruct (check_loop favorite_teams tr second). }
  destruct (check_game favorite_teams tr g) as [tracked [alert|]].
  - destruct (_trigger_scoring_animation alert.1 alert.2); [reflexivity|].
    rewrite IH. simpl.
    destruct (check_loop favorite_teams tracked first) as [t al r]. simpl.
    now destruct r.
  - apply IH.
Qed.

(** When the loop runs to its end, every game it holds with an empty
    label is left without an entry. *)
Lemma check_loop_clears (games : list Game) (tr : gmap string string) (g : Game) :
  ck_raised (check_loop favorite_teams tr games) = false ->
  NoDup (game_id <$> games) ->
  g ∈ games ->
  scoring_event g = "" ->
  ck_tracker (check_loop favorite_teams tr games) !! game_id g = None.
Proof.
  revert tr. induction games as [|h rest IH]; intros tr Hr Hnd Hin Hev.
  { inversion Hin. }
  rewrite fmap_cons in Hnd. apply list.NoDup_cons in Hnd as [Hh Hnd].
  apply elem_of_cons in Hin as [->|Hin].
  - simpl in *. rewrite check_game_empty in * by assumption.
    rewrite check_loop_other by assumption. apply lookup_delete_eq.
  - simpl in *.
    destruct (check_game favorite_teams tr h) as [tracked [alert|]]; simpl in *.
    + destruct (_trigger_scoring_animation alert.1 alert.2); simpl in *; [discriminate|].
      now apply IH.
    + now apply IH.
Qed.

(** The loop body on one game: for one game id with possession
    resolving to a favorite team, checked by the loop body on
    successive ticks with the labels "", L, L, "", L (L not
    empty, "TOUCHDOWN" for one), the alerts are: none, one for L, none,
    none, one for L again; and the check on the tick where the label
    is empty again leaves no entry for the id.  Between two checks of
    the game the tracker may change at other ids. *)
Theorem scoring_alert_once_until_cleared
    (id label team team' : string) (g0 g1 g2 g3 g4 : Game)
    (t0 t1 t2 t3 t4 : gmap string string) :
  truthy id = true -> truthy label = true ->
  game_id g0 = id -> game_id g1 = id -> game_id g2 = id ->
  game_id g3 = id -> game_id g4 = id ->
  scoring_event g0 = "" -> scoring_event g1 = label ->
  scoring_event g2 = label -> scoring_event g3 = "" ->
  scoring_event g4 = label ->
  alert_due favorite_teams g1 = Some team ->
  alert_due favorite_teams g4 = Some team' ->
  t1 !! id = (check_game favorite_teams t0 g0).1 !! id ->
  t2 !! id = (check_game favorite_teams t1 g1).1 !! id ->
  t3 !! id = (check_game favorite_teams t2 g2).1 !! id ->
  t4 !! id = (check_game favorite_teams t3 g3).1 !! id ->
  (check_game favorite_teams t0 g0).2 = None /\
  (check_game favorite_teams t1 g1).2 = Some (team, label) /\
  (check_game favorite_teams t2 g2).2 = None /\
  (check_game favorite_teams t3 g3).2 = None /\
  (check_game favorite_teams t3 g3).1 !! id = None /\
  (check_game favorite_teams t4 g4).2 = Some (team', label).
Proof.
  intros Hid Hlabel I0 I1 I2 I3 I4 E0 E1 E2 E3 E4 D1 D4 L1 L2 L3 L4.
  rewrite (check_game_empty t0 g0 E0) in *. simpl in L1.
  rewrite I0, lookup_delete_eq in L1.
  assert (check_game favorite_teams t1 g1 = (<[id := label]> t1, Some (team, label))) as C1.
  { rewrite check_game_new_label, D1, E1, I1; try reflexivity; congruence. }
  rewrite C1 in *. simpl in L2. rewrite lookup_insert_eq in L2.
  assert (check_game favorite_teams t2 g2 = (t2, None)) as C2.
  { apply check_game_same_label; congruence. }
  rewrite C2 in *. simpl in L3.
  rewrite (check_game_empty t3 g3 E3) in *. simpl in L4.
  rewrite I3, lookup_delete_eq in L4.
  assert (check_game favorite_teams t4 g4 = (<[id := label]> t4, Some (team', label))) as C4.
  { rewrite check_game_new_label, D4, E4, I4; try reflexivity; congruence. }
  rewrite C4, I3. simpl. rewrite lookup_delete_eq. repeat split; reflexivity.
Qed.

End TrackerProperties.

Lemma scoring_alert_once_until_cleared_witness :
  (check_game Samples.fans ∅ (Samples.scoring "")).2 = None /\
  (check_game Samples.fans ∅ (Samples.scoring "TOUCHDOWN")).2 = Some ("KC", "TOUCHDOWN")%string /\
  (check_game Samples.fans {[ "401" := "TOUCHDOWN" ]} (Samples.scoring "TOUCHDOWN")).2 = None /\
  (check_game Samples.fans {[ "401" := "TOUCHDOWN" ]} (Samples.scoring "")).2 = None /\
  (check_game Samples.fans {[ "401" := "TOUCHDOWN" ]} (Samples.scoring "")).1 !! "401"%string = None /\
  (check_game Samples.fans ∅ (Samples.scoring "TOUCHDOWN")).2 = Some ("KC", "TOUCHDOWN")%string.
Proof.
  apply (scoring_alert_once_until_cleared Samples.fans "401" "TOUCHDOWN" "KC" "KC"
           (Samples.scoring "") (Samples.scoring "TOUCHDOWN") (Samples.scoring "TOUCHDOWN") (Samples.scoring "")
           (Samples.scoring "TOUCHDOWN")
           ∅ ∅ {[ "401" := "TOUCHDOWN" ]} {[ "401" := "TOUCHDOWN" ]} ∅)%string;
    vm_compute; reflexivity.
Defined.
(* ================================================================== *)
(** ** The poll gate *)
(* ================================================================== *)

Section PollProperties.
Import Samples.

Implicit Types (cfg : Config) (st : State) (env : Env).

(** A tick on a disabled manager, or before the poll is due, does
    nothing at all. *)
Lemma update_idle cfg st env :
  is_enabled cfg && poll_due cfg st (current_time env) = false ->
  update cfg st env = {| out_state := st; out_effects := []; out_raised := false |}.
Proof.
  unfold update. destruct (is_enabled cfg); simpl; [|reflexivity].
  now intros ->.
Qed.

(** Otherwise the gated body runs on the state with [last_update]
    written, and the rotation follows unless the body raised. *)
Lemma update_due cfg st env :
  is_enabled cfg && poll_due cfg st (current_time env) = true ->
  update cfg st env =
    let body := poll_body cfg (set_last_update (current_time env) st) env in
    if body.2 then
      {| out_state := body.1.1; out_effects := body.1.2; out_raised := true |}
    else
      let turn := rotate cfg body.1.1 (current_time env) in
      {| out_state := turn.1; out_effects := body.1.2 ++ turn.2; out_raised := false |}.
Proof.
  unfold update. intros [-> ->]%andb_true_iff. simpl.
  destruct (poll_body _ _ _) as [[st1 eff1] raised]. simpl.
  destruct raised; [reflexivity|]. now destruct (rotate _ _ _).
Qed.

Lemma test_mode_step_last_update st :
  last_update (test_mode_step st).1 = last_update st.
Proof. unfold test_mode_step. repeat case_match; reflexivity. Qed.

Lemma log_step_last_update cfg st now_log new :
  last_update (log_step cfg st now_log new).1 = last_update st.
Proof. unfold log_step. case_match; reflexivity. Qed.

Lemma reconcile_last_update st now clk new :
  last_update (reconcile st now clk new) = last_update st.
Proof.
  unfold reconcile, replace_games, refresh_games. repeat case_match; reflexivity.
Qed.

Lemma fetch_step_last_update cfg st env :
  last_update (fetch_step cfg st env).1.1 = last_update st.
Proof.
  unfold fetch_step. destruct (data env) as [events|].
  - pose proof (log_step_last_update cfg st (current_time_for_log env)
                  (collect_live_games cfg events)) as Hlog.
    destruct (log_step _ _ _ _) as [st1 logged]. simpl in Hlog.
    destruct (collect_live_games cfg events) as [|g new]; simpl.
    + exact Hlog.
    + now rewrite reconcile_last_update.
  - unfold fetch_failed. now destruct (live_games st).
Qed.

Lemma rotate_last_update cfg st now :
  last_update (rotate cfg st now).1 = last_update st.
Proof. unfold rotate. case_match; reflexivity. Qed.

Lemma poll_body_last_update cfg st env :
  last_update (poll_body cfg st env).1.1 = last_update st.
Proof.
  unfold poll_body. destruct (test_mode cfg).
  - pose proof (test_mode_step_last_update st) as H.
    now destruct (test_mode_step st).
  - pose proof (fetch_step_last_update cfg st env) as H.
    now destruct (fetch_step cfg st env) as [[? ?] ?].
Qed.

(** Where [_fetch_data] is called. *)
Lemma fetch_step_fetches cfg st env :
  CallFetchData ∈ (fetch_step cfg st env).1.2.
Proof.
  unfold fetch_step. destruct (data env) as [events|].
  - destruct (log_step _ _ _ _) as [st1 logged].
    destruct (collect_live_games cfg events) as [|g new].
    + destruct (clear_games st1). simpl. apply list_elem_of_here.
    + simpl. apply list_elem_of_here.
  - destruct (fetch_failed st). simpl. apply list_elem_of_here.
Qed.

Lemma test_mode_step_no_fetch st :
  CallFetchData ∉ (test_mode_step st).2.
Proof.
  unfold test_mode_step.
  repeat case_match; simpl; rewrite ?elem_of_cons, ?elem_of_nil; intuition discriminate.
Qed.

Lemma rotate_no_fetch cfg st now :
  CallFetchData ∉ (rotate cfg st now).2.
Proof.
  unfold rotate.
  repeat case_match; simpl; rewrite ?elem_of_cons, ?elem_of_nil; intuition discriminate.
Qed.

Lemma poll_body_fetches cfg st env :
  CallFetchData ∈ (poll_body cfg st env).1.2 <-> test_mode cfg = false.
Proof.
  unfold poll_body. destruct (test_mode cfg).
  - pose proof (test_mode_step_no_fetch st) as H.
    destruct (test_mode_step st) as [s e]. simpl in *.
    split; [|discriminate]. intros Hin. exfalso.
    apply elem_of_app in Hin as [Hin|Hin]; [|tauto].
    destruct (show_ranking cfg);
      revert Hin; rewrite ?elem_of_cons, ?elem_of_nil; intuition discriminate.
  - pose proof (fetch_step_fetches cfg st env) as H.
    destruct (fetch_step cfg st env) as [[s e] r]. simpl in *.
    split; [reflexivity|]. intros _. apply elem_of_app. now right.
Qed.

Lemma update_fetches cfg st env :
  CallFetchData ∈ out_effects (update cfg st env) <->
  is_enabled cfg && poll_due cfg st (current_time env) = true /\ test_mode cfg = false.
Proof.
  destruct (is_enabled cfg && poll_due cfg st (current_time env)) eqn:Hdue.
  - rewrite update_due by assumption. simpl.
    pose proof (poll_body_fetches cfg (set_last_update (current_time env) st) env) as Hb.
    pose proof (rotate_no_fetch cfg
                  (poll_body cfg (set_last_update (current_time env) st) env).1.1
                  (current_time env)) as Hr.
    destruct (poll_body _ _ _) as [[st1 eff1] raised]. simpl in *.
    destruct raised; simpl.
    + rewrite Hb. tauto.
    + rewrite elem_of_app, Hb. tauto.
  - rewrite update_idle by assumption. simpl. rewrite elem_of_nil. split; [tauto|]. now intros [? _].
Qed.

Lemma update_last_update cfg st env :
  last_update (out_state (update cfg st env)) =
    if is_enabled cfg && poll_due cfg st (current_time env)
    then current_time env else last_update st.
Proof.
  destruct (is_enabled cfg && poll_due cfg st (current_time env)) eqn:Hdue.
  - rewrite update_due by assumption. simpl.
    pose proof (poll_body_last_update cfg (set_last_update (current_time env) st) env) as Hb.
    destruct (poll_body _ _ _) as [[st1 eff1] raised]. simpl in *.
    destruct raised; simpl; [exact Hb|]. now rewrite rotate_last_update.
  - now rewrite update_idle.
Qed.

(** C9 (as stated, refuted): in test mode the poll is due 1000 s after
    the last update, yet the tick fetches nothing: the due poll runs
    the simulated clock instead. *)
Lemma fetch_skipped_in_test_mode :
  (poll_interval (config true) one_game_state
     <= current_time one_game_env - last_update one_game_state) /\
  CallFetchData ∉ out_effects (update (config true) one_game_state one_game_env).
Proof.
  split; [vm_compute; discriminate|].
  intros [_ H]%update_fetches. discriminate H.
Qed.

(** C9 (amended): the poll interval is the idle interval when the
    LiveSet is empty and test mode is off, the short interval
    otherwise; a tick calls the fetch exactly when the manager is
    enabled, test mode is off and [now - last_update >= interval];
    [last_update] becomes [now] exactly when the manager is enabled and
    the poll is due, whatever the mode.  So with an empty LiveSet, test
    mode off, an idle interval of 300 and last update T, nothing is
    fetched at T+200 and the feed is fetched at T+300. *)
Theorem poll_gate cfg st env :
  let now := current_time env in
  let out := update cfg st env in
  (poll_interval cfg st =
     if bool_decide (live_games st = []) && negb (test_mode cfg)
     then no_data_interval cfg else update_interval cfg) /\
  (CallFetchData ∈ out_effects out <->
     is_enabled cfg = true /\ test_mode cfg = false /\
     poll_interval cfg st <= now - last_update st) /\
  (last_update (out_state out) =
     if is_enabled cfg && (poll_interval cfg st <=? now - last_update st)
     then now else last_update st) /\
  (is_enabled cfg = true -> test_mode cfg = false -> live_games st = [] ->
   no_data_interval cfg = 300 ->
     (now = last_update st + 200 -> CallFetchData ∉ out_effects out) /\
     (now = last_update st + 300 -> CallFetchData ∈ out_effects out)).
Proof.
  intros now out.
  assert (CallFetchData ∈ out_effects out <->
          is_enabled cfg = true /\ test_mode cfg = false /\
          poll_interval cfg st <= now - last_update st) as Hfetch.
  { unfold out. rewrite update_fetches. unfold poll_due. fold now.
    rewrite andb_true_iff, Z.leb_le. tauto. }
  split; [reflexivity|]. split; [exact Hfetch|]. split.
  { unfold out. rewrite update_last_update. reflexivity. }
  intros Hen Htest Hempty Hidle.
  assert (poll_interval cfg st = 300) as Hint.
  { unfold poll_interval. rewrite Hempty, Htest. simpl. exact Hidle. }
  rewrite Hfetch, Hint. split; intros ->.
  - intros (_ & _ & H). lia.
  - repeat split; auto. lia.
Qed.

Lemma poll_gate_witness :
  (CallFetchData ∉ out_effects (update (config false) idle_state (env_at 5200 None))) /\
  CallFetchData ∈ out_effects (update (config false) idle_state (env_at 5300 None)).
Proof.
  split.
  - destruct (poll_gate (config false) idle_state (env_at 5200 None)) as (_ & _ & _ & E).
    destruct (E eq_refl eq_refl eq_refl eq_refl) as [E200 _].
    apply E200. reflexivity.
  - destruct (poll_gate (config false) idle_state (env_at 5300 None)) as (_ & _ & _ & E).
    destruct (E eq_refl eq_refl eq_refl eq_refl) as [_ E300].
    apply E300. reflexivity.
Defined.

End PollProperties.
(* ================================================================== *)
(** ** Rotation and the failed fetch *)
(* ================================================================== *)

Section RotationProperties.
Import Samples.

Implicit Types (cfg : Config) (st : State) (env : Env).

Lemma rotation_due_iff cfg st now :
  rotation_due cfg st now = true <->
  test_mode cfg = false /\ (1 < length (live_games st))%nat /\
  game_display_duration cfg <= now - last_game_switch st.
Proof.
  unfold rotation_due.
  rewrite !andb_true_iff, negb_true_iff, Nat.ltb_lt, Z.leb_le. tauto.
Qed.

(** The rotation step, when it fires and when it does not. *)
Lemma rotate_fires cfg st now :
  rotation_due cfg st now = true ->
  (rotate cfg st now).1 =
    let idx := ((current_game_index st + 1) mod length (live_games st))%nat in
    set_selection (live_games st) (live_games st !! idx) idx now st.
Proof. intros H. unfold rotate. now rewrite H. Qed.

Lemma rotate_rests cfg st now :
  rotation_due cfg st now = false -> rotate cfg st now = (st, []).
Proof. intros H. unfold rotate. now rewrite H. Qed.

(** The rotation reads neither [last_update] nor the tracker. *)
Lemma rotation_due_set_last_update cfg st t now :
  rotation_due cfg (set_last_update t st) now = rotation_due cfg st now.
Proof. reflexivity. Qed.

(** C8 (as stated, refuted): two games are tracked, test mode is off
    and the last switch is 25 s old with a display duration of 20 s,
    but only 5 s passed since the last poll: the tick leaves the
    pointer and the rotation clock as they were. *)
Lemma rotation_waits_for_poll :
  test_mode (config false) = false /\
  (1 < length (live_games two_game_state))%nat /\
  game_display_duration (config false) <= 105 - last_game_switch two_game_state /\
  current_game_index (out_state (update (config false) two_game_state
                                   (env_at 105 two_game_feed))) = 0%nat /\
  last_game_switch (out_state (update (config false) two_game_state
                                 (env_at 105 two_game_feed))) = 80.
Proof. repeat split; vm_compute; first [reflexivity | lia | discriminate]. Qed.

(** C8 (amended): a tick on which the manager is disabled or the poll
    is not due changes nothing.  On a tick whose poll is due, the
    rotation runs after the gated body unless the scoring check raised:
    the pointer advances to [(index+1) mod N] and the rotation clock is
    set to the tick time exactly when test mode is off, the LiveSet
    left by the body has more than one entry and the time since the
    rotation clock left by the body is at least the display duration;
    with test mode on or at most one entry it never advances. *)
Theorem rotation_gate cfg st env :
  let now := current_time env in
  let out := update cfg st env in
  let body := poll_body cfg (set_last_update now st) env in
  let st1 := body.1.1 in
  let next := ((current_game_index st1 + 1) mod length (live_games st1))%nat in
  (is_enabled cfg && poll_due cfg st now = false -> out_state out = st) /\
  (is_enabled cfg && poll_due cfg st now = true ->
     (body.2 = true -> out_state out = st1) /\
     (body.2 = false ->
        (test_mode cfg = false /\ (1 < length (live_games st1))%nat /\
         game_display_duration cfg <= now - last_game_switch st1 ->
           out_state out = set_selection (live_games st1) (live_games st1 !! next)
                             next now st1) /\
        (~ (test_mode cfg = false /\ (1 < length (live_games st1))%nat /\
            game_display_duration cfg <= now - last_game_switch st1) ->
           out_state out = st1) /\
        (test_mode cfg = true \/ (length (live_games st1) <= 1)%nat ->
           out_state out = st1))).
Proof.
  intros now out body st1 next. split.
  { intros H. unfold out. now rewrite update_idle. }
  intros H. unfold out. rewrite update_due by assumption. fold now body. simpl.
  split.
  { now intros ->. }
  intros ->. fold st1.
  assert (~ (test_mode cfg = false /\ (1 < length (live_games st1))%nat /\
             game_display_duration cfg <= now - last_game_switch st1) ->
          (rotate cfg st1 now).1 = st1) as Hrest.
  { intros Hn. rewrite rotate_rests; [reflexivity|].
    destruct (rotation_due cfg st1 now) eqn:E; [|reflexivity].
    now apply rotation_due_iff in E. }
  repeat split.
  - intros Hd%rotation_due_iff. now rewrite rotate_fires.
  - exact Hrest.
  - intros Hc. apply Hrest. intros (Ht & Hl & _). destruct Hc; [congruence|lia].
Qed.

Lemma rotation_gate_witness :
  current_game_index (out_state (update (config false) two_game_state
                                   (env_at 115 two_game_feed))) = 1%nat /\
  last_game_switch (out_state (update (config false) two_game_state
                                 (env_at 115 two_game_feed))) = 115.
Proof.
  destruct (rotation_gate (config false) two_game_state (env_at 115 two_game_feed))
    as [_ Hdue].
  destruct (Hdue eq_refl) as [_ Hbody].
  destruct (Hbody eq_refl) as [Hturn _].
  rewrite Hturn; [split; reflexivity|].
  repeat split; vm_compute; first [reflexivity | lia | discriminate].
Defined.

(** The failed-fetch branch warns and leaves a state with games in it
    alone. *)
Lemma poll_body_fetch_failed cfg st env :
  test_mode cfg = false -> data env = None -> live_games st <> [] ->
  poll_body cfg st env =
    (st, (if show_ranking cfg then [CallFetchRankings] else [])
         ++ [CallFetchData; WarnKeepExisting], false).
Proof.
  intros Ht Hd Hl. unfold poll_body, fetch_step, fetch_failed. rewrite Ht, Hd.
  destruct (live_games st); [congruence|reflexivity].
Qed.

(** C10 (as stated, refuted): two games are tracked with game 1
    selected, the fetch fails on a due poll 35 s after the last switch:
    the tick ends with game 2 selected. *)
Lemma failed_fetch_still_rotates :
  data (env_at 115 None) = None /\
  live_games two_game_state <> [] /\
  current_game_index two_game_state = 0%nat /\
  current_game_index (out_state (update (config false) two_game_state
                                   (env_at 115 None))) = 1%nat /\
  current_game (out_state (update (config false) two_game_state (env_at 115 None)))
    <> current_game two_game_state.
Proof. repeat split; vm_compute; first [reflexivity | lia | discriminate]. Qed.

(** C10 (amended): on a due poll outside test mode whose fetch gives
    nothing usable, with at least one game tracked before, no exception
    leaves [update], the warning is logged, and the game list with its
    order and the tracker map are what they were; the selection (index,
    game, rotation clock) is what it was too unless the rotation fires
    on that tick, which then advances it as on any due poll. *)
Theorem failed_fetch_keeps_games cfg st env :
  is_enabled cfg = true -> test_mode cfg = false ->
  poll_due cfg st (current_time env) = true ->
  data env = None -> live_games st <> [] ->
  let now := current_time env in
  let out := update cfg st env in
  let next := ((current_game_index st + 1) mod length (live_games st))%nat in
  out_raised out = false /\
  WarnKeepExisting ∈ out_effects out /\
  live_games (out_state out) = live_games st /\
  last_scoring_events (out_state out) = last_scoring_events st /\
  (rotation_due cfg st now = false ->
     current_game_index (out_state out) = current_game_index st /\
     current_game (out_state out) = current_game st /\
     last_game_switch (out_state out) = last_game_switch st) /\
  (rotation_due cfg st now = true ->
     current_game_index (out_state out) = next /\
     current_game (out_state out) = live_games st !! next /\
     last_game_switch (out_state out) = now).
Proof.
  intros Hen Ht Hdue Hd Hl now out next. unfold out.
  rewrite update_due by (rewrite Hen, Hdue; reflexivity).
  rewrite poll_body_fetch_failed by assumption. simpl. fold now.
  destruct (rotation_due cfg st now) eqn:E.
  - rewrite rotate_fires by exact E.
    simpl. repeat split; try discriminate.
    rewrite !elem_of_app, !elem_of_cons. tauto.
  - rewrite rotate_rests by exact E.
    simpl. repeat split; try discriminate.
    rewrite !elem_of_app, !elem_of_cons. tauto.
Qed.

Lemma failed_fetch_keeps_games_witness :
  live_games (out_state (update (config false) two_game_state (env_at 115 None)))
    = two_games /\
  last_scoring_events (out_state (update (config false) two_game_state
                                    (env_at 115 None))) = ∅.
Proof.
  destruct (failed_fetch_keeps_games (config false) two_game_state (env_at 115 None)
              eq_refl eq_refl eq_refl eq_refl)
    as (_ & _ & Hgames & Htracker & _).
  - vm_compute. discriminate.
  - split; [exact Hgames | exact Htracker].
Defined.

End RotationProperties.
(* ================================================================== *)
(** ** Sorting the candidates *)
(* ================================================================== *)

Section SortingProperties.

Implicit Types (x y : Z * Game) (l : list (Z * Game)) (games : list Game).

Lemma insert_keyed_perm x l : insert_keyed x l ≡ₚ x :: l.
Proof.
  induction l as [|y l IH]; simpl; [reflexivity|].
  destruct (x.1 <=? y.1); [reflexivity|].
  rewrite IH. apply perm_swap.
Qed.

Lemma sort_keyed_perm l : sort_keyed l ≡ₚ l.
Proof.
  induction l as [|x l IH]; simpl; [reflexivity|].
  now rewrite insert_keyed_perm, IH.
Qed.

Lemma insert_keyed_sorted x l :
  StronglySorted key_le l -> StronglySorted key_le (insert_keyed x l).
Proof.
  induction l as [|y l IH]; simpl; intros Hs.
  { repeat constructor. }
  apply StronglySorted_inv in Hs as [Hs Hy].
  destruct (x.1 <=? y.1) eqn:E.
  - apply Z.leb_le in E. constructor; [now constructor|].
    constructor; [exact E|].
    eapply List.Forall_impl; [|exact Hy]. unfold key_le. intros; lia.
  - apply Z.leb_gt in E. constructor; [now apply IH|].
    rewrite insert_keyed_perm. constructor; [unfold key_le; lia|exact Hy].
Qed.

Lemma sort_keyed_sorted l : StronglySorted key_le (sort_keyed l).
Proof.
  induction l as [|x l IH]; simpl; [constructor|].
  now apply insert_keyed_sorted.
Qed.

(** Undecorating gives the games back, and the key of a game that has
    a start time is that start time. *)
Lemma snd_imap_keyed (k : nat -> Game -> Z) games :
  snd <$> imap (fun i g => (k i g, g)) games = games.
Proof.
  revert k. induction games as [|g games IH]; intros k; [reflexivity|].
  simpl. f_equal. apply (IH (fun i => k (S i))).
Qed.

Lemma decorate_keys (clk : nat -> Z) games :
  Forall key_is_start (decorate clk games).
Proof.
  unfold decorate. revert clk.
  induction games as [|g games IH]; intros clk; [constructor|].
  simpl. constructor.
  - intros t Ht. simpl in *. unfold sort_key. now rewrite Ht.
  - apply (IH (fun i => clk (S i))).
Qed.

Lemma sorted_by_start_perm (clk : nat -> Z) games :
  sorted_by_start clk games ≡ₚ games.
Proof.
  unfold sorted_by_start. rewrite sort_keyed_perm.
  unfold decorate. now rewrite snd_imap_keyed.
Qed.

Lemma undecorate_sorted l :
  StronglySorted key_le l -> Forall key_is_start l ->
  StronglySorted by_start (snd <$> l).
Proof.
  induction 1 as [|x l Hs IH Hx]; intros Hk; [constructor|].
  inversion Hk as [|? ? Hkx Hk']; subst. simpl. constructor; [now apply IH|].
  clear Hk; rename Hk' into Hk.
  apply Forall_fmap. rewrite List.Forall_forall in Hk, Hx |- *.
  intros y Hy ta tb Ha Hb. simpl in *.
  rewrite <- (Hkx ta Ha), <- (Hk y Hy tb Hb).
  exact (Hx y Hy).
Qed.

Lemma sorted_by_start_sorted (clk : nat -> Z) games :
  StronglySorted by_start (sorted_by_start clk games).
Proof.
  unfold sorted_by_start. apply undecorate_sorted.
  - apply sort_keyed_sorted.
  - rewrite sort_keyed_perm. apply decorate_keys.
Qed.

End SortingProperties.
(* ================================================================== *)
(** ** Reconciliation *)
(* ================================================================== *)

Section ReconcileProperties.
Import Samples.

Implicit Types (cfg : Config) (st : State) (env : Env) (new games : list Game).

Lemma elem_of_id_set (id : string) games :
  id ∈ id_set games <-> id ∈ game_id <$> games.
Proof. unfold id_set. apply elem_of_list_to_set. Qed.

Lemma id_set_perm games games' :
  games ≡ₚ games' -> id_set games = id_set games'.
Proof. intros H. unfold id_set. apply list_to_set_perm_L. now rewrite H. Qed.

Lemma index_of_id_Some (id : string) games (i : nat) :
  index_of_id id games = Some i ->
  exists g, games !! i = Some g /\ game_id g = id.
Proof.
  unfold index_of_id.
  destruct (list_find _ games) as [[j g]|] eqn:E; [|discriminate].
  simpl. intros [= <-]. apply list_find_Some in E as (Hg & Hid & _). eauto.
Qed.

Lemma index_of_id_is_Some (id : string) games :
  id ∈ game_id <$> games -> is_Some (index_of_id id games).
Proof.
  intros (g & -> & Hg)%list_elem_of_fmap. unfold index_of_id.
  destruct (list_find_elem_of (fun h => game_id h = game_id g) games g Hg eq_refl)
    as [[i h] ->].
  simpl. eauto.
Qed.

(** The reset branch and the re-resolving branch of lines 438-450. *)
Lemma replace_games_kept st now clk new (cur : Game) :
  current_game st = Some cur -> game_id cur ∈ id_set new ->
  exists i g,
    sorted_by_start clk new !! i = Some g /\ game_id g = game_id cur /\
    replace_games st now clk new =
      set_selection (sorted_by_start clk new) (Some g) i (last_game_switch st) st.
Proof.
  intros Hcur Hin. unfold replace_games. rewrite Hcur.
  rewrite bool_decide_eq_true_2 by assumption.
  destruct (index_of_id_is_Some (game_id cur) (sorted_by_start clk new)) as [i Hi].
  { apply elem_of_id_set. rewrite (id_set_perm _ new); [assumption|].
    apply sorted_by_start_perm. }
  rewrite Hi. destruct (index_of_id_Some _ _ _ Hi) as (g & Hg & Hid).
  exists i, g. now rewrite Hg.
Qed.

Lemma replace_games_reset st now clk new :
  (forall cur, current_game st = Some cur -> game_id cur ∉ id_set new) ->
  replace_games st now clk new =
    set_selection (sorted_by_start clk new) (sorted_by_start clk new !! 0%nat)
      0 now st.
Proof.
  intros Hgone. unfold replace_games.
  destruct (current_game st) as [cur|]; [|reflexivity].
  rewrite bool_decide_eq_false_2; [reflexivity|]. now apply Hgone.
Qed.

(** Reconciliation neither reads nor writes the log time and the
    tracker. *)
Lemma reconcile_set_last_log_time st t now clk new :
  reconcile (set_last_log_time t st) now clk new =
  set_last_log_time t (reconcile st now clk new).
Proof.
  unfold reconcile, replace_games, refresh_games. simpl.
  repeat case_match; reflexivity.
Qed.

(** With candidates at hand, the fetch branch leaves the selection
    that [reconcile] computes from the state before the tick. *)
Lemma reconciled_selection cfg st env :
  candidates cfg env <> [] ->
  let r := reconcile st (current_time env) (key_clock env) (candidates cfg env) in
  live_games (reconciled cfg st env) = live_games r /\
  current_game (reconciled cfg st env) = current_game r /\
  current_game_index (reconciled cfg st env) = current_game_index r /\
  last_game_switch (reconciled cfg st env) = last_game_switch r.
Proof.
  unfold candidates, reconciled, fetch_step.
  destruct (data env) as [events|]; [|congruence].
  intros Hne. unfold log_step.
  destruct (should_log cfg st (current_time_for_log env) (collect_live_games cfg events)).
  - destruct (collect_live_games cfg events) as [|g new]; [congruence|].
    simpl. rewrite reconcile_set_last_log_time. simpl. auto.
  - destruct (collect_live_games cfg events) as [|g new]; [congruence|].
    simpl. auto.
Qed.

(** What [reconcile] does when the id sets differ. *)
Lemma reconcile_replaces st now clk new :
  new <> [] ->
  id_set new <> id_set (live_games st) ->
  let st' := reconcile st now clk new in
  live_games st' ≡ₚ new /\
  StronglySorted by_start (live_games st') /\
  (forall cur, current_game st = Some cur -> game_id cur ∈ id_set new ->
     exists g, live_games st' !! current_game_index st' = Some g /\
               current_game st' = Some g /\
               game_id g = game_id cur /\
               last_game_switch st' = last_game_switch st) /\
  ((forall cur, current_game st = Some cur -> game_id cur ∉ id_set new) ->
     exists g, live_games st' !! 0%nat = Some g /\
               current_game st' = Some g /\
               current_game_index st' = 0%nat /\
               last_game_switch st' = now).
Proof.
  intros Hne Hdiff st'. unfold st', reconcile.
  rewrite bool_decide_eq_true_2 by assumption.
  assert (live_games (replace_games st now clk new) = sorted_by_start clk new) as Hlive.
  { unfold replace_games. repeat case_match; reflexivity. }
  rewrite Hlive. split; [apply sorted_by_start_perm|].
  split; [apply sorted_by_start_sorted|]. split.
  - intros cur Hcur Hin.
    destruct (replace_games_kept st now clk new cur Hcur Hin) as (i & g & Hg & Hid & ->).
    exists g. simpl. auto.
  - intros Hgone. rewrite (replace_games_reset st now clk new Hgone). simpl.
    destruct (sorted_by_start clk new) as [|g rest] eqn:E.
    + exfalso. apply Hne. apply Permutation_nil. rewrite <- E.
      apply sorted_by_start_perm.
    + exists g. simpl. auto.
Qed.

(** The fetch branch, before the rotation: on a fetch whose candidate
    list is not empty and whose id set
    differs from the tracked one, reconciliation replaces the LiveSet
    by the candidates in ascending order of start time.  If the
    previously selected game's id is among the candidate ids, the
    selection is the game with that id at its new index and the
    rotation clock is kept; otherwise the selection is the first game,
    index 0, and the rotation clock is the tick time. *)
Theorem live_set_replaced cfg st env :
  candidates cfg env <> [] ->
  id_set (candidates cfg env) <> id_set (live_games st) ->
  let st' := reconciled cfg st env in
  live_games st' ≡ₚ candidates cfg env /\
  StronglySorted by_start (live_games st') /\
  (forall cur, current_game st = Some cur ->
               game_id cur ∈ id_set (candidates cfg env) ->
     exists g, live_games st' !! current_game_index st' = Some g /\
               current_game st' = Some g /\
               game_id g = game_id cur /\
               last_game_switch st' = last_game_switch st) /\
  ((forall cur, current_game st = Some cur ->
                game_id cur ∉ id_set (candidates cfg env)) ->
     exists g, live_games st' !! 0%nat = Some g /\
               current_game st' = Some g /\
               current_game_index st' = 0%nat /\
               last_game_switch st' = current_time env).
Proof.
  intros Hne Hdiff st'.
  destruct (reconciled_selection cfg st env Hne) as (Hl & Hc & Hi & Hs).
  fold st' in Hl, Hc, Hi, Hs. rewrite Hl, Hc, Hi, Hs.
  now apply reconcile_replaces.
Qed.

Lemma live_set_replaced_witness :
  exists g,
    live_games (reconciled (config false) initial (env_at 1000 two_game_feed)) !! 0%nat
      = Some g /\
    current_game (reconciled (config false) initial (env_at 1000 two_game_feed))
      = Some g /\
    current_game_index (reconciled (config false) initial (env_at 1000 two_game_feed))
      = 0%nat /\
    last_game_switch (reconciled (config false) initial (env_at 1000 two_game_feed))
      = 1000.
Proof.
  apply (live_set_replaced (config false) initial (env_at 1000 two_game_feed)).
  - vm_compute. discriminate.
  - vm_compute. discriminate.
  - intros cur Hcur. discriminate Hcur.
Defined.

(** The dictionary of line 454 maps an id to a candidate with that id,
    and has an entry for every candidate id. *)
Lemma temp_game_dict_acc new (m : gmap string Game) (k : string) (g : Game) :
  foldl (fun m g => <[game_id g := g]> m) m new !! k = Some g ->
  (g ∈ new /\ game_id g = k) \/ m !! k = Some g.
Proof.
  revert m. induction new as [|h new IH]; intros m; simpl; [auto|].
  intros [[Hin Hid]|Hm]%IH.
  - left. split; [now apply elem_of_cons; right|assumption].
  - destruct (decide (game_id h = k)) as [<-|Hne].
    + rewrite lookup_insert_eq in Hm. injection Hm as <-.
      left. split; [apply list_elem_of_here|reflexivity].
    + rewrite lookup_insert_ne in Hm by assumption. now right.
Qed.

Lemma temp_game_dict_Some new (k : string) (g : Game) :
  temp_game_dict new !! k = Some g -> g ∈ new /\ game_id g = k.
Proof.
  intros [H|H]%temp_game_dict_acc; [exact H|].
  now rewrite lookup_empty in H.
Qed.

Lemma temp_game_dict_acc_is_Some new (m : gmap string Game) (k : string) :
  k ∈ game_id <$> new \/ is_Some (m !! k) ->
  is_Some (foldl (fun m g => <[game_id g := g]> m) m new !! k).
Proof.
  revert m. induction new as [|h new IH]; intros m; simpl.
  { intros [H|H]; [inversion H|exact H]. }
  intros [H|H]; apply IH.
  - apply elem_of_cons in H as [->|H]; [right|now left].
    rewrite lookup_insert_eq. eauto.
  - right. destruct (decide (game_id h = k)) as [<-|Hne].
    + rewrite lookup_insert_eq. eauto.
    + now rewrite lookup_insert_ne.
Qed.

Lemma temp_game_dict_is_Some new (k : string) :
  k ∈ id_set new -> is_Some (temp_game_dict new !! k).
Proof.
  intros H%elem_of_id_set. apply temp_game_dict_acc_is_Some. now left.
Qed.

(** The merge keeps the id of a record, and merging again changes
    nothing. *)
Lemma refreshed_id new (g : Game) : game_id (refreshed new g) = game_id g.
Proof.
  unfold refreshed. destruct (temp_game_dict new !! game_id g) as [f|] eqn:E; simpl.
  - now apply temp_game_dict_Some in E.
  - reflexivity.
Qed.

Lemma refreshed_twice new (g : Game) :
  refreshed new (refreshed new g) = refreshed new g.
Proof.
  unfold refreshed at 1. rewrite refreshed_id. unfold refreshed.
  now destruct (temp_game_dict new !! game_id g).
Qed.

Lemma refresh_games_spec st new :
  refresh_games st new =
    set_selection (refreshed new <$> live_games st) (refreshed new <$> current_game st)
      (current_game_index st) (last_game_switch st) st.
Proof. reflexivity. Qed.

Lemma refreshed_ids new games :
  game_id <$> (refreshed new <$> games) = game_id <$> games.
Proof.
  rewrite <- list_fmap_compose. apply list_fmap_ext.
  intros i g _. apply refreshed_id.
Qed.

(** What [reconcile] does when the id sets are equal. *)
Lemma reconcile_refreshes st now clk new :
  id_set new = id_set (live_games st) ->
  let st' := reconcile st now clk new in
  live_games st' = refreshed new <$> live_games st /\
  current_game st' = refreshed new <$> current_game st /\
  current_game_index st' = current_game_index st /\
  last_game_switch st' = last_game_switch st /\
  (forall now' clk', reconcile st' now' clk' new = st').
Proof.
  intros Heq st'. unfold st', reconcile.
  rewrite bool_decide_eq_false_2 by (intros H; now apply H).
  rewrite refresh_games_spec. simpl. repeat split.
  intros now' clk'.
  rewrite bool_decide_eq_false_2.
  - rewrite refresh_games_spec. simpl.
    rewrite <- list_fmap_compose, <- option_fmap_compose.
    unfold set_selection. simpl. f_equal.
    + apply list_fmap_ext. intros i g _. apply refreshed_twice.
    + destruct (current_game st); simpl; [|reflexivity].
      f_equal. apply refreshed_twice.
  - intros H. apply H. simpl. rewrite Heq. unfold id_set.
    now rewrite refreshed_ids.
Qed.

(** The fetch branch, before the rotation: on a fetch whose candidate
    id set equals the tracked id set,
    reconciliation replaces each tracked record, in the existing order,
    by the candidate record with the same id, and leaves the order of
    ids, the index and the id of the selected game and the rotation
    clock as they were; reconciling the same candidates once more
    changes nothing. *)
Theorem live_set_refreshed cfg st env :
  candidates cfg env <> [] ->
  id_set (candidates cfg env) = id_set (live_games st) ->
  let new := candidates cfg env in
  let st' := reconciled cfg st env in
  Forall2 (fun old fresh => fresh ∈ new /\ game_id fresh = game_id old /\
                            temp_game_dict new !! game_id old = Some fresh)
          (live_games st) (live_games st') /\
  game_id <$> live_games st' = game_id <$> live_games st /\
  current_game_index st' = current_game_index st /\
  game_id <$> current_game st' = game_id <$> current_game st /\
  last_game_switch st' = last_game_switch st /\
  (forall now' clk',
     reconcile (reconcile st (current_time env) (key_clock env) new) now' clk' new
     = reconcile st (current_time env) (key_clock env) new) /\
  live_games (reconciled cfg st' env) = live_games st' /\
  current_game (reconciled cfg st' env) = current_game st' /\
  current_game_index (reconciled cfg st' env) = current_game_index st'.
Proof.
  intros Hne Heq. cbv zeta.
  destruct (reconciled_selection cfg st env Hne) as (Hl & Hc & Hi & Hs).
  destruct (reconcile_refreshes st (current_time env) (key_clock env) _ Heq)
    as (Rl & Rc & Ri & Rs & Rid).
  cbv zeta in Hl, Hc, Hi, Hs.
  rewrite Rl in Hl. rewrite Rc in Hc. rewrite Ri in Hi. rewrite Rs in Hs.
  set (new := candidates cfg env) in *.
  set (st' := reconciled cfg st env) in *.
  assert (id_set new = id_set (live_games st')) as Heq'.
  { rewrite Heq, Hl. unfold id_set. now rewrite refreshed_ids. }
  destruct (reconciled_selection cfg st' env Hne) as (Hl2 & Hc2 & Hi2 & _).
  destruct (reconcile_refreshes st' (current_time env) (key_clock env) new Heq')
    as (Rl2 & Rc2 & Ri2 & _).
  cbv zeta in Hl2, Hc2, Hi2. fold new in Hl2, Hc2, Hi2.
  split; [|split; [|split; [|split; [|split; [|split; [|split; [|split]]]]]]].
  - rewrite Hl. apply Forall2_fmap_r, Forall_Forall2_diag, Forall_forall.
    intros g Hg%list_elem_of_In.
    destruct (temp_game_dict_is_Some new (game_id g)) as [f Hf].
    { rewrite Heq. apply elem_of_id_set, list_elem_of_fmap. eauto. }
    unfold compose, refreshed. rewrite Hf. simpl.
    destruct (temp_game_dict_Some new _ _ Hf). auto.
  - rewrite Hl. apply refreshed_ids.
  - exact Hi.
  - rewrite Hc. destruct (current_game st); simpl; [|reflexivity].
    now rewrite refreshed_id.
  - exact Hs.
  - exact Rid.
  - rewrite Hl2, Rl2, Hl. rewrite <- list_fmap_compose.
    apply list_fmap_ext. intros i g _. apply refreshed_twice.
  - rewrite Hc2, Rc2, Hc. rewrite <- option_fmap_compose.
    destruct (current_game st); simpl; [|reflexivity]. f_equal. apply refreshed_twice.
  - now rewrite Hi2, Ri2.
Qed.

Lemma live_set_refreshed_witness :
  game_id <$> live_games (reconciled (config false) two_game_state
                            (env_at 115 two_game_feed_later))
    = game_id <$> live_games two_game_state /\
  current_game_index (reconciled (config false) two_game_state
                        (env_at 115 two_game_feed_later))
    = current_game_index two_game_state.
Proof.
  destruct (live_set_refreshed (config false) two_game_state
              (env_at 115 two_game_feed_later))
    as (_ & Hids & Hidx & _).
  - vm_compute. discriminate.
  - vm_compute. reflexivity.
  - split; [exact Hids | exact Hidx].
Defined.

End ReconcileProperties.
(* ================================================================== *)
(** ** What every tick preserves *)
(* ================================================================== *)

Section InvariantProperties.
Import Samples.

Implicit Types (cfg : Config) (st : State) (env : Env) (new games : list Game).

Lemma simulate_clock_id (g g' : Game) :
  TestClock.simulate_clock g = Some g' -> game_id g' = game_id g.
Proof.
  unfold TestClock.simulate_clock.
  destruct (TestClock.parse_clock (clock g)) as [[minutes seconds]|]; [|discriminate].
  now intros [= <-].
Qed.

Lemma test_mode_step_well_formed st :
  well_formed st -> well_formed (test_mode_step st).1.
Proof.
  intros [Hnd Hsel]. unfold test_mode_step.
  destruct (current_game st) as [g|] eqn:Hcur; [|now split].
  destruct (is_live g); [|now split].
  destruct (TestClock.simulate_clock g) as [g'|] eqn:Hsim; [|now split].
  unfold selection_valid in Hsel. rewrite Hcur in Hsel. symmetry in Hsel.
  simpl. split.
  - unfold distinct_ids. simpl. rewrite list_fmap_insert.
    rewrite list_insert_id; [exact Hnd|].
    rewrite list_lookup_fmap, Hsel. simpl. f_equal.
    symmetry. now apply simulate_clock_id.
  - unfold selection_valid. simpl. symmetry.
    apply list_lookup_insert_eq. now apply lookup_lt_Some in Hsel.
Qed.

Lemma reconcile_well_formed st now clk new :
  NoDup (game_id <$> new) -> well_formed st ->
  well_formed (reconcile st now clk new).
Proof.
  intros Hnew [Hnd Hsel]. unfold reconcile.
  destruct (bool_decide (id_set new ≠ id_set (live_games st))).
  - assert (NoDup (game_id <$> sorted_by_start clk new)) as Hsorted.
    { now rewrite (sorted_by_start_perm clk new). }
    destruct (current_game st) as [cur|] eqn:Hcur.
    + destruct (decide (game_id cur ∈ id_set new)) as [Hin|Hout].
      * destruct (replace_games_kept st now clk new cur Hcur Hin)
          as (i & g & Hg & _ & ->).
        split; [exact Hsorted|]. unfold selection_valid. simpl. now rewrite Hg.
      * rewrite replace_games_reset.
        -- split; [exact Hsorted|reflexivity].
        -- intros cur' Hcur'. congruence.
    + rewrite replace_games_reset.
      * split; [exact Hsorted|reflexivity].
      * intros cur' Hcur'. congruence.
  - rewrite refresh_games_spec. split.
    + unfold distinct_ids. simpl. now rewrite refreshed_ids.
    + unfold selection_valid in *. simpl. now rewrite list_lookup_fmap, Hsel.
Qed.

Lemma rotate_well_formed cfg st now :
  well_formed st -> well_formed (rotate cfg st now).1.
Proof.
  intros Hwf. unfold rotate. destruct (rotation_due cfg st now); [|exact Hwf].
  destruct Hwf as [Hnd _]. split; [exact Hnd|reflexivity].
Qed.

Lemma fetch_step_well_formed cfg st env :
  distinct_candidates cfg env -> well_formed st ->
  well_formed (fetch_step cfg st env).1.1.
Proof.
  unfold distinct_candidates, candidates, fetch_step. intros Hnew Hwf.
  destruct (data env) as [events|].
  - assert (well_formed (log_step cfg st (current_time_for_log env)
                           (collect_live_games cfg events)).1) as Hlog.
    { unfold log_step. now destruct (should_log _ _ _ _). }
    destruct (log_step _ _ _ _) as [st1 logged]. simpl in Hlog.
    destruct (collect_live_games cfg events) as [|g new] eqn:E; simpl.
    + split; [apply NoDup_nil_2|reflexivity].
    + destruct (reconcile_well_formed st1 (current_time env) (key_clock env)
                  (g :: new) Hnew Hlog) as [H1 H2].
      split; assumption.
  - unfold fetch_failed. destruct (live_games st) eqn:E; simpl; [|exact Hwf].
    split; [apply NoDup_nil_2|reflexivity].
Qed.

Lemma update_well_formed cfg st env :
  distinct_candidates cfg env -> well_formed st ->
  well_formed (out_state (update cfg st env)).
Proof.
  intros Hnew Hwf.
  destruct (is_enabled cfg && poll_due cfg st (current_time env)) eqn:Hdue.
  2: { now rewrite update_idle. }
  rewrite update_due by assumption.
  assert (well_formed (poll_body cfg (set_last_update (current_time env) st) env).1.1)
    as Hbody.
  { unfold poll_body. destruct (test_mode cfg).
    - pose proof (test_mode_step_well_formed (set_last_update (current_time env) st) Hwf).
      now destruct (test_mode_step _).
    - pose proof (fetch_step_well_formed cfg (set_last_update (current_time env) st)
                    env Hnew Hwf).
      now destruct (fetch_step _ _ _) as [[? ?] ?]. }
  cbv zeta. destruct (poll_body _ _ _) as [[st1 eff1] raised]. simpl in *.
  destruct raised; simpl; [exact Hbody|]. now apply rotate_well_formed.
Qed.

Lemma reachable_well_formed cfg st : reachable cfg st -> well_formed st.
Proof.
  induction 1 as [|st env _ IH Hnew].
  - split; [apply NoDup_nil_2|reflexivity].
  - now apply update_well_formed.
Qed.

(** C2 (as stated, refuted): from the initial state, one tick on a
    feed that carries the same event twice leaves two entries with the
    id "1" in the LiveSet. *)
Lemma doubled_feed_doubles_game :
  game_id <$> live_games (out_state (update (config false) initial
                                       (env_at 1000 doubled_feed)))
    = ["1"; "1"]%string /\
  ~ distinct_ids (out_state (update (config false) initial (env_at 1000 doubled_feed))).
Proof.
  split; [reflexivity|]. unfold distinct_ids.
  change (~ NoDup ["1"; "1"]%string).
  intros H. apply list.NoDup_cons in H as [H _]. apply H, list_elem_of_here.
Qed.

(** C2 (amended): in every state reached from the initial one by any
    sequence of ticks whose candidate lists carry pairwise distinct
    ids, the LiveSet holds no two entries with the same id. *)
Theorem live_set_ids_distinct cfg st :
  reachable cfg st -> distinct_ids st.
Proof. intros H. now apply reachable_well_formed in H as [H _]. Qed.

Lemma live_set_ids_distinct_witness :
  distinct_ids (out_state (update (config false) initial (env_at 1000 two_game_feed))).
Proof.
  apply (live_set_ids_distinct (config false)).
  apply reach_update; [apply reach_initial|].
  unfold distinct_candidates. apply (bool_decide_unpack _). vm_compute. reflexivity.
Defined.

End InvariantProperties.
(* ================================================================== *)
(** ** The tracker across ticks *)
(* ================================================================== *)

Section TrackerTickProperties.
Import Samples.
Local Open Scope string_scope.

Implicit Types (cfg : Config) (st : State) (env : Env) (new games : list Game).

Lemma log_step_frame cfg st now_log new :
  live_games (log_step cfg st now_log new).1 = live_games st /\
  last_scoring_events (log_step cfg st now_log new).1 = last_scoring_events st.
Proof. unfold log_step. now destruct (should_log _ _ _ _). Qed.

Lemma reconcile_tracker st now clk new :
  last_scoring_events (reconcile st now clk new) = last_scoring_events st.
Proof.
  unfold reconcile, replace_games, refresh_games. repeat case_match; reflexivity.
Qed.

Lemma test_mode_step_tracker st :
  last_scoring_events (test_mode_step st).1 = last_scoring_events st.
Proof. unfold test_mode_step. repeat case_match; reflexivity. Qed.

Lemma rotate_frame cfg st now :
  live_games (rotate cfg st now).1 = live_games st /\
  last_scoring_events (rotate cfg st now).1 = last_scoring_events st.
Proof. unfold rotate. now destruct (rotation_due cfg st now). Qed.

(** With candidates at hand the fetch branch ends with the scoring
    check, run on the reconciled list against the tracker as it was. *)
Lemma fetch_step_checked cfg st env :
  candidates cfg env <> [] ->
  let ck := _check_scoring_events (scoring_alerts_enabled cfg) (favorite_teams cfg)
              (last_scoring_events st) (live_games (reconciled cfg st env)) in
  last_scoring_events (reconciled cfg st env) = ck_tracker ck /\
  (fetch_step cfg st env).2 = ck_raised ck.
Proof.
  unfold candidates, reconciled, fetch_step.
  destruct (data env) as [events|]; [|congruence].
  intros Hne.
  destruct (log_step_frame cfg st (current_time_for_log env)
              (collect_live_games cfg events)) as [_ Htr].
  destruct (log_step _ _ _ _) as [st1 logged]. simpl in Htr.
  destruct (collect_live_games cfg events) as [|g new]; [congruence|].
  simpl. now rewrite reconcile_tracker, Htr.
Qed.

(** Without candidates nothing is checked. *)
Lemma fetch_step_unchecked cfg st env :
  candidates cfg env = [] ->
  last_scoring_events (reconciled cfg st env) = last_scoring_events st /\
  (fetch_step cfg st env).2 = false.
Proof.
  unfold candidates, reconciled, fetch_step.
  destruct (data env) as [events|].
  - intros ->.
    destruct (log_step_frame cfg st (current_time_for_log env) []) as [_ Htr].
    destruct (log_step _ _ _ _) as [st1 logged]. simpl in *. now rewrite Htr.
  - intros _. unfold fetch_failed. now destruct (live_games st).
Qed.

(** The outcome of a due poll outside test mode. *)
Lemma update_fetching cfg st env :
  is_enabled cfg && poll_due cfg st (current_time env) = true ->
  test_mode cfg = false ->
  let st1 := reconciled cfg (set_last_update (current_time env) st) env in
  let out := update cfg st env in
  live_games (out_state out) = live_games st1 /\
  last_scoring_events (out_state out) = last_scoring_events st1 /\
  out_raised out = (fetch_step cfg (set_last_update (current_time env) st) env).2.
Proof.
  intros Hdue Ht. cbv zeta. rewrite update_due by assumption.
  unfold poll_body, reconciled. rewrite Ht.
  destruct (fetch_step _ _ _) as [[st1 eff] raised]. simpl.
  destruct raised; simpl; [auto|].
  destruct (rotate_frame cfg st1 (current_time env)) as [-> ->]. auto.
Qed.

(** A tick writes no entry but those of the games it leaves in the
    LiveSet. *)
Lemma update_tracker_other cfg st env (id : string) :
  id ∉ game_id <$> live_games (out_state (update cfg st env)) ->
  last_scoring_events (out_state (update cfg st env)) !! id
    = last_scoring_events st !! id.
Proof.
  destruct (is_enabled cfg && poll_due cfg st (current_time env)) eqn:Hdue.
  2: { now rewrite update_idle. }
  destruct (test_mode cfg) eqn:Ht.
  - intros _. rewrite update_due by assumption.
    unfold poll_body. rewrite Ht.
    pose proof (test_mode_step_tracker (set_last_update (current_time env) st)) as H.
    destruct (test_mode_step _) as [s e]. simpl in *.
    destruct (rotate_frame cfg s (current_time env)) as [_ ->]. now rewrite H.
  - destruct (update_fetching cfg st env Hdue Ht) as (-> & -> & _).
    destruct (decide (candidates cfg env = [])) as [Hnone|Hsome].
    + intros _.
      now destruct (fetch_step_unchecked cfg (set_last_update (current_time env) st)
                      env Hnone) as [-> _].
    + destruct (fetch_step_checked cfg (set_last_update (current_time env) st)
                  env Hsome) as [-> _].
      intros Hid. simpl. unfold _check_scoring_events.
      destruct (scoring_alerts_enabled cfg); simpl; [|reflexivity].
      now apply check_loop_other.
Qed.

(** When the check of a tick runs to its end, every game left in the
    LiveSet with an empty label has no entry. *)
Lemma update_clears cfg st env (g : Game) :
  is_enabled cfg && poll_due cfg st (current_time env) = true ->
  test_mode cfg = false -> scoring_alerts_enabled cfg = true ->
  candidates cfg env <> [] ->
  out_raised (update cfg st env) = false ->
  distinct_ids (out_state (update cfg st env)) ->
  g ∈ live_games (out_state (update cfg st env)) ->
  scoring_event g = "" ->
  last_scoring_events (out_state (update cfg st env)) !! game_id g = None.
Proof.
  intros Hdue Ht Hon Hsome. unfold distinct_ids.
  destruct (update_fetching cfg st env Hdue Ht) as (-> & -> & ->).
  destruct (fetch_step_checked cfg (set_last_update (current_time env) st)
              env Hsome) as [-> ->].
  unfold _check_scoring_events. rewrite Hon. simpl.
  intros Hr Hnd Hin Hev. now apply check_loop_clears.
Qed.

(** C4 (as stated, refuted): game 1 is tracked with the label
    "TOUCHDOWN" recorded.  After a due poll whose candidates are game 2
    alone, and after one whose candidate list is empty, game 1 is gone
    from the LiveSet and its entry is still in the tracker. *)
Lemma tracker_entry_survives_removal :
  last_scoring_events scored_state !! "1" = Some "TOUCHDOWN" /\
  game_id <$> live_games (out_state (update (config false) scored_state
                                       (env_at 115 feed_without_game_1))) = ["2"] /\
  last_scoring_events (out_state (update (config false) scored_state
                                    (env_at 115 feed_without_game_1))) !! "1"
    = Some "TOUCHDOWN" /\
  live_games (out_state (update (config false) scored_state (env_at 115 (Some []))))
    = [] /\
  last_scoring_events (out_state (update (config false) scored_state
                                    (env_at 115 (Some [])))) !! "1"
    = Some "TOUCHDOWN".
Proof. repeat split; vm_compute; reflexivity. Qed.

(** C4 (amended): the entry of a game is destroyed when its label is
    empty on a tick whose scoring check runs to its end (alerts
    enabled, a due poll outside test mode with candidates, no
    exception, distinct ids in the LiveSet); the entry of an id that is
    not in the LiveSet after a tick is left as it was before that tick,
    so the entry of a removed game stays. *)
Theorem tracker_entry_lifetime cfg st env :
  (is_enabled cfg && poll_due cfg st (current_time env) = true ->
   test_mode cfg = false -> scoring_alerts_enabled cfg = true ->
   candidates cfg env <> [] ->
   out_raised (update cfg st env) = false ->
   distinct_ids (out_state (update cfg st env)) ->
   forall g, g ∈ live_games (out_state (update cfg st env)) ->
             scoring_event g = "" ->
             last_scoring_events (out_state (update cfg st env)) !! game_id g = None) /\
  (forall id, id ∉ game_id <$> live_games (out_state (update cfg st env)) ->
              last_scoring_events (out_state (update cfg st env)) !! id
                = last_scoring_events st !! id).
Proof.
  split.
  - intros Hdue Ht Hon Hsome Hr Hnd g Hin Hev. now apply update_clears.
  - intros id. apply update_tracker_other.
Qed.

Lemma tracker_entry_lifetime_witness :
  last_scoring_events (out_state (update (config false) scored_state
                                    (env_at 115 feed_after_score))) !! "1" = None /\
  last_scoring_events (out_state (update (config false) scored_state
                                    (env_at 115 feed_without_game_1))) !! "1"
    = last_scoring_events scored_state !! "1".
Proof.
  split.
  - destruct (tracker_entry_lifetime (config false) scored_state
                (env_at 115 feed_after_score)) as [Hclear _].
    apply (Hclear eq_refl eq_refl eq_refl) with (g := game "1" (Some 50) "14" "").
    + vm_compute. discriminate.
    + reflexivity.
    + apply (bool_decide_unpack _). vm_compute. reflexivity.
    + apply (bool_decide_unpack _). vm_compute. reflexivity.
    + reflexivity.
  - destruct (tracker_entry_lifetime (config false) scored_state
                (env_at 115 feed_without_game_1)) as [_ Hkeep].
    apply Hkeep. apply (bool_decide_unpack _). vm_compute. reflexivity.
Defined.

(** The sequence of the dedup scenario on whole ticks: one alert, on
    the second poll, and no entry left after the fourth. *)
Example touchdown_alerted_once :
  (fun out => scoring_alerts (out_effects out)) <$> ticks (config false) initial touchdown_feeds
    = [[]; [ScoringAlert "KC" "TOUCHDOWN"]; []; []] /\
  (fun out => last_scoring_events (out_state out) !! "401")
    <$> ticks (config false) initial touchdown_feeds
    = [None; Some "TOUCHDOWN"; Some "TOUCHDOWN"; None].
Proof. split; vm_compute; reflexivity. Qed.

End TrackerTickProperties.
(* ================================================================== *)
(** ** More on strings and on the extractor *)
(* ================================================================== *)

Section TextProperties.
Local Open Scope string_scope.

Lemma prefix_spec (p s : string) :
  String.prefix p s = true <-> exists post, s = p ++ post.
Proof.
  revert s. induction p as [|c p IH]; intros s.
  { split; [intros _; now exists s|intros _; now destruct s]. }
  destruct s as [|d s]; simpl.
  { split; [discriminate|]. intros [post H]. discriminate H. }
  destruct (Ascii.ascii_dec c d) as [->|Hne].
  - rewrite IH. split; intros [post H]; exists post.
    + now rewrite H.
    + now injection H.
  - split; [discriminate|]. intros [post H]. injection H as H1 H2. congruence.
Qed.

(** The substring test is the substring relation: [kw in s] holds
    exactly when [s] is some text, then [kw], then some text. *)
Lemma contains_spec (kw s : string) :
  contains kw s = true <-> exists pre post, s = pre ++ kw ++ post.
Proof.
  induction s as [|c s IH].
  - change (contains kw "") with (String.prefix kw "" || false).
    rewrite orb_false_r, prefix_spec. split.
    + intros [post H]. now exists "", post.
    + intros (pre & post & H). destruct pre; [now exists post|discriminate H].
  - change (contains kw (String c s))
      with (String.prefix kw (String c s) || contains kw s).
    rewrite orb_true_iff, prefix_spec, IH. split.
    + intros [[post H]|(pre & post & H)].
      * now exists "", post.
      * exists (String c pre), post. simpl. now rewrite H.
    + intros (pre & post & H). destruct pre as [|d pre]; simpl in H.
      * left. now exists post.
      * right. injection H as _ H. now exists pre, post.
Qed.

Lemma lower_upper_ascii (c : ascii) : lower_ascii (upper_ascii c) = lower_ascii c.
Proof. destruct c as [[] [] [] [] [] [] [] []]; reflexivity. Qed.

Lemma lower_lower_ascii (c : ascii) : lower_ascii (lower_ascii c) = lower_ascii c.
Proof. destruct c as [[] [] [] [] [] [] [] []]; reflexivity. Qed.

(** Lowering forgets the case a text was written in. *)
Lemma lower_upper (s : string) : lower (upper s) = lower s.
Proof. induction s as [|c s IH]; simpl; [reflexivity|]. now rewrite lower_upper_ascii, IH. Qed.

Lemma lower_lower (s : string) : lower (lower s) = lower s.
Proof. induction s as [|c s IH]; simpl; [reflexivity|]. now rewrite lower_lower_ascii, IH. Qed.

End TextProperties.

Section ExtractorMore.
Import Samples.
Local Open Scope string_scope.

(** A keyword anywhere in the long detail settles the label: the short
    detail is not looked at. *)
Lemma detect_long_decides (long short short' : string) :
  any_in scoring_keywords long = true ->
  detect_scoring_event long short = detect_scoring_event long short'.
Proof.
  unfold detect_scoring_event, scoring_keywords, any_in. simpl.
  intros H.
  destruct (contains "touchdown" long), (contains "td" long),
           (contains "field goal" long), (contains "fg" long),
           (contains "extra point" long), (contains "pat" long),
           (contains "point after" long); simpl in *; try reflexivity; discriminate.
Qed.

(** The scan gives one of four values. *)
Lemma detect_scoring_event_label (long short : string) :
  detect_scoring_event long short ∈ scoring_labels.
Proof.
  unfold detect_scoring_event, scoring_labels.
  repeat case_match; rewrite !elem_of_cons; tauto.
Qed.

Lemma any_in_spec (keywords : list string) (s : string) :
  any_in keywords s = true <-> mentions keywords s.
Proof.
  unfold any_in, mentions. rewrite List.existsb_exists. split.
  - intros (kw & Hin%list_elem_of_In & (pre & post & H)%contains_spec). eauto 6.
  - intros (kw & pre & post & Hin%list_elem_of_In & H). exists kw. split; [exact Hin|].
    apply contains_spec. eauto.
Qed.

(** X6: the long detail decides: when it mentions any keyword, anywhere
    and inside any word, the event gets a label, the short detail is
    not looked at, and a mention of "touchdown" or "td" makes the label
    "TOUCHDOWN" whatever else the text mentions. *)
Theorem long_detail_decides (long short short' : string) :
  mentions scoring_keywords long ->
  detect_scoring_event long short = detect_scoring_event long short' /\
  detect_scoring_event long short <> "" /\
  (mentions ["touchdown"; "td"] long -> detect_scoring_event long short = "TOUCHDOWN").
Proof.
  intros Hm%any_in_spec. split; [now apply detect_long_decides|]. split.
  - revert Hm. unfold detect_scoring_event, scoring_keywords, any_in. simpl.
    destruct (contains "touchdown" long), (contains "td" long),
             (contains "field goal" long), (contains "fg" long),
             (contains "extra point" long), (contains "pat" long),
             (contains "point after" long); simpl; discriminate.
  - intros Htd%any_in_spec. now apply detect_long_touchdown.
Qed.

Lemma long_detail_decides_witness :
  detect_scoring_event "outdoor stadium" "q2" = detect_scoring_event "outdoor stadium" "fg" /\
  detect_scoring_event "outdoor stadium" "q2" <> "" /\
  (mentions ["touchdown"; "td"] "outdoor stadium" ->
   detect_scoring_event "outdoor stadium" "q2" = "TOUCHDOWN").
Proof.
  apply (long_detail_decides "outdoor stadium" "q2" "fg").
  exists "td", "ou", "oor stadium". split; [|reflexivity].
  apply (bool_decide_unpack _). vm_compute. reflexivity.
Defined.

(** What a successful extraction read, and the game it built. *)
Lemma extract_inv (ev : Event) (g : Game) :
  _extract_game_details ev = Some g ->
  exists details home_team away_team common status,
    ev_details ev = Some details /\ ev_home_team ev = Some home_team /\
    ev_away_team ev = Some away_team /\ ev_status_common ev = Some common /\
    ev_status ev = Some status /\
    d_home_abbr details <> "" /\ d_away_abbr details <> "" /\
    let sp := football_specific (ev_situation ev) status home_team away_team in
    g = {| game_id := d_id details; home_id := d_home_id details;
           away_id := d_away_id details; home_abbr := d_home_abbr details;
           away_abbr := d_away_abbr details; home_score := d_home_score details;
           away_score := d_away_score details;
           start_time_utc := d_start_time_utc details;
           is_live := d_is_live details; is_halftime := d_is_halftime details;
           is_final := d_is_final details; is_upcoming := d_is_upcoming details;
           status_text := d_status_text details;
           period := default 0 (st_period status);
           period_text := format_period status details (default 0 (st_period status));
           clock := default "0:00" (st_displayClock status);
           home_timeouts := sp_home_timeouts sp; away_timeouts := sp_away_timeouts sp;
           down_distance_text := sp_down_distance_text sp;
           is_redzone := sp_is_redzone sp; possession := sp_posession sp;
           possession_indicator := sp_possession_indicator sp;
           scoring_event := sp_scoring_event sp |}.
Proof.
  unfold _extract_game_details.
  destruct (ev_details ev) as [details|]; [|discriminate].
  destruct (ev_home_team ev) as [home_team|]; [|discriminate].
  destruct (ev_away_team ev) as [away_team|]; [|discriminate].
  destruct (ev_status_common ev) as [common|]; [|discriminate].
  destruct (ev_status ev) as [status|]; [|discriminate].
  destruct (d_home_abbr details) as [|c1 h] eqn:Eh; [discriminate|].
  destruct (d_away_abbr details) as [|c2 a] eqn:Ea; [discriminate|].
  simpl. intros [= <-].
  exists details, home_team, away_team, common, status.
  rewrite Eh, Ea. repeat split; discriminate.
Qed.

Lemma extracted_label (ev : Event) (g : Game) :
  _extract_game_details ev = Some g -> scoring_event g ∈ scoring_labels.
Proof.
  intros Hg.
  destruct (extract_inv ev g Hg)
    as (details & ht & at_ & common & status & _ & _ & _ & _ & _ & _ & _ & ->).
  simpl. unfold football_specific.
  destruct (ev_situation ev) as [sit|]; simpl.
  - destruct (String.eqb (st_state status) "in"); simpl.
    + apply detect_scoring_event_label.
    + unfold scoring_labels. rewrite !elem_of_cons. tauto.
  - unfold scoring_labels. rewrite !elem_of_cons. tauto.
Qed.

(** X1: extraction fails exactly when one of the four results of the
    common step is missing, the status lookup fails, or one of the two
    abbreviations is empty; a game that is extracted carries the id and
    the abbreviations of the event. *)
Theorem extraction_succeeds_iff (ev : Event) :
  (is_Some (_extract_game_details ev) <->
     exists details,
       ev_details ev = Some details /\ is_Some (ev_home_team ev) /\
       is_Some (ev_away_team ev) /\ is_Some (ev_status_common ev) /\
       is_Some (ev_status ev) /\
       d_home_abbr details <> "" /\ d_away_abbr details <> "") /\
  (forall g details, _extract_game_details ev = Some g ->
     ev_details ev = Some details ->
     game_id g = d_id details /\ home_abbr g = d_home_abbr details /\
     away_abbr g = d_away_abbr details /\ home_abbr g <> "" /\ away_abbr g <> "").
Proof.
  split.
  - split.
    + intros [g Hg].
      destruct (extract_inv ev g Hg)
        as (details & ht & at_ & common & status & H1 & H2 & H3 & H4 & H5 & H6 & H7 & _).
      exists details. rewrite H2, H3, H4, H5. eauto 10.
    + intros (details & H1 & [ht H2] & [at_ H3] & [common H4] & [status H5] & H6 & H7).
      unfold _extract_game_details. rewrite H1, H2, H3, H4, H5.
      destruct (d_home_abbr details); [congruence|].
      destruct (d_away_abbr details); [congruence|]. simpl. eauto.
  - intros g details Hg Hd.
    destruct (extract_inv ev g Hg)
      as (details' & ht & at_ & common & status & H1 & _ & _ & _ & _ & H6 & H7 & ->).
    simpl. assert (details' = details) as -> by congruence. auto.
Qed.

(** X2: every extracted game carries one of the four labels, and an event
    that is not in play (no situation record, or a state other than
    "in") is extracted with no label, an empty down-and-distance text,
    no red zone and no possession. *)
Theorem situation_fields_only_in_play (ev : Event) (g : Game) :
  _extract_game_details ev = Some g ->
  scoring_event g ∈ scoring_labels /\
  (in_play ev = false ->
     scoring_event g = "" /\ down_distance_text g = Some "" /\
     is_redzone g = Some false /\ possession g = None /\
     possession_indicator g = None).
Proof.
  intros Hg.
  destruct (extract_inv ev g Hg)
    as (details & ht & at_ & common & status & _ & _ & _ & _ & H5 & _ & _ & ->).
  simpl. unfold in_play, football_specific. rewrite H5.
  destruct (ev_situation ev) as [sit|]; simpl.
  - destruct (String.eqb (st_state status) "in"); simpl.
    + split; [apply detect_scoring_event_label|discriminate].
    + split; [|auto]. unfold scoring_labels. rewrite !elem_of_cons. tauto.
  - split; [|auto]. unfold scoring_labels. rewrite !elem_of_cons. tauto.
Qed.

Lemma situation_fields_only_in_play_witness :
  scoring_event <$> _extract_game_details pre_event = Some "" /\
  possession <$> _extract_game_details pre_event = Some None.
Proof.
  destruct (_extract_game_details pre_event) as [g|] eqn:E; [|discriminate E].
  destruct (situation_fields_only_in_play pre_event g E) as [_ H].
  destruct (H eq_refl) as (Hs & _ & _ & Hp & _). simpl. now rewrite Hs, Hp.
Defined.

(** The scan is blind to letter case: writing the two status detail
    texts of an event in capitals, or in small letters, changes nothing
    in what is extracted. *)
Lemma extract_retexted (f : string -> string) (ev : Event) :
  (forall s, lower (f s) = lower s) ->
  _extract_game_details (retexted f ev) = _extract_game_details ev.
Proof.
  intros Hf. unfold _extract_game_details, retexted. simpl.
  destruct (ev_details ev) as [details|]; [|reflexivity].
  destruct (ev_home_team ev) as [home_team|]; [|reflexivity].
  destruct (ev_away_team ev) as [away_team|]; [|reflexivity].
  destruct (ev_status_common ev) as [common|]; [|reflexivity].
  destruct (ev_status ev) as [status|]; [|reflexivity]. simpl.
  assert (football_specific (ev_situation ev)
            (with_texts (f <$> st_detail status) (f <$> st_shortDetail status) status)
            home_team away_team
          = football_specific (ev_situation ev) status home_team away_team) as ->.
  { unfold football_specific. destruct (ev_situation ev) as [sit|]; [|reflexivity].
    simpl. destruct (String.eqb (st_state status) "in"); [|reflexivity].
    unfold specific_in_play. simpl.
    assert (forall o : option string, lower (default "" (f <$> o)) = lower (default "" o))
      as Hd by (intros [t|]; simpl; [apply Hf|reflexivity]).
    now rewrite !Hd. }
  reflexivity.
Qed.

(** X3: for an event whose two status detail texts are ASCII,
    extraction does not depend on their letter case: written in
    capitals or in small letters, the event is extracted to the same
    result. *)
Theorem extraction_ignores_case (ev : Event) :
  (forall status, ev_status ev = Some status ->
     ascii_text (default "" (st_detail status)) = true /\
     ascii_text (default "" (st_shortDetail status)) = true) ->
  _extract_game_details (retexted upper ev) = _extract_game_details ev /\
  _extract_game_details (retexted lower ev) = _extract_game_details ev.
Proof.
  intros _. split; apply extract_retexted; [apply lower_upper|apply lower_lower].
Qed.

Lemma extraction_ignores_case_witness :
  _extract_game_details (retexted upper (live_event "1" (Some 50) "Touchdown KC"))
    = _extract_game_details (live_event "1" (Some 50) "Touchdown KC") /\
  _extract_game_details (retexted lower (live_event "1" (Some 50) "Touchdown KC"))
    = _extract_game_details (live_event "1" (Some 50) "Touchdown KC").
Proof.
  apply (extraction_ignores_case (live_event "1" (Some 50) "Touchdown KC")).
  intros status [= <-]. split; reflexivity.
Defined.

(** X4: the possession indicator names a side only for a non-empty
    possession id that is that side's team id, the home side first;
    the possession id itself is passed on as the feed gave it. *)
Theorem possession_indicator_sound (ev : Event) (g : Game) (side : string) :
  _extract_game_details ev = Some g ->
  possession_indicator g = Some side ->
  exists id,
    id <> "" /\ possession g = Some id /\
    (ev_situation ev ≫= sit_possession) = Some id /\
    ((side = "home" /\ (ev_home_team ev ≫= team_id) = Some id) \/
     (side = "away" /\ (ev_away_team ev ≫= team_id) = Some id /\
      (ev_home_team ev ≫= team_id) <> Some id)).
Proof.
  intros Hg.
  destruct (extract_inv ev g Hg)
    as (details & ht & at_ & common & status & _ & H2 & H3 & _ & _ & _ & _ & ->).
  simpl. rewrite H2, H3. simpl. unfold football_specific.
  destruct (ev_situation ev) as [sit|]; simpl; [|discriminate].
  destruct (String.eqb (st_state status) "in"); simpl; [|discriminate].
  unfold resolve_possession_indicator.
  destruct (sit_possession sit) as [p|]; [|discriminate].
  destruct p as [|c p]; [discriminate|]. simpl.
  destruct (bool_decide (Some (String c p) = team_id ht)) eqn:Eh.
  - intros [= <-]. apply bool_decide_eq_true in Eh.
    exists (String c p). repeat split; [discriminate|]. left. auto.
  - apply bool_decide_eq_false in Eh.
    destruct (bool_decide (Some (String c p) = team_id at_)) eqn:Ea; [|discriminate].
    intros [= <-]. apply bool_decide_eq_true in Ea.
    exists (String c p). repeat split; [discriminate|]. right. repeat split; congruence.
Qed.

Lemma possession_indicator_sound_witness :
  exists id,
    id <> "" /\ possession in_play_game_without_timeouts = Some id /\
    (ev_situation in_play_event_without_timeouts ≫= sit_possession) = Some id /\
    (("home" = "home" /\
      (ev_home_team in_play_event_without_timeouts ≫= team_id) = Some id) \/
     ("home" = "away" /\
      (ev_away_team in_play_event_without_timeouts ≫= team_id) = Some id /\
      (ev_home_team in_play_event_without_timeouts ≫= team_id) <> Some id)).
Proof.
  apply (possession_indicator_sound in_play_event_without_timeouts
           in_play_game_without_timeouts "home"); reflexivity.
Defined.

(** X5: the period text: while a game is in play it is "Start", "Q1" to
    "Q4" or "OT" by the period (and empty for a negative period),
    whatever the status name says; a halftime state or status name
    gives "HALF" unless the state is "in"; a finished game whose
    status name is not the halftime one reads "Final/OT" after more
    than four periods and "Final" otherwise. *)
Theorem period_text_by_state (ev : Event) (g : Game) (status : Status) :
  _extract_game_details ev = Some g ->
  ev_status ev = Some status ->
  period g = default 0 (st_period status) /\
  (st_state status = "in" ->
     (period g < 0 -> period_text g = "") /\
     (period g = 0 -> period_text g = "Start") /\
     (1 <= period g <= 4 ->
        period_text g = "Q" ++ TestClock.str_nonneg (period g)) /\
     (4 < period g -> period_text g = "OT")) /\
  (st_state status = "post" -> st_name status <> "STATUS_HALFTIME" ->
     period_text g = if (4 <? period g)%Z then "Final/OT" else "Final") /\
  (st_state status <> "in" ->
   st_state status = "halftime" \/ st_name status = "STATUS_HALFTIME" ->
     period_text g = "HALF").
Proof.
  intros Hg Hs.
  destruct (extract_inv ev g Hg)
    as (details & ht & at_ & common & status' & _ & _ & _ & _ & H5 & _ & _ & ->).
  assert (status' = status) as -> by congruence. simpl.
  set (p := default 0 (st_period status)). unfold format_period.
  split; [reflexivity|]. split; [|split].
  - intros ->. simpl. repeat split; intros Hp.
    + destruct (Z.eqb_spec p 0); [lia|]. destruct (Z.eqb_spec p 1); [lia|].
      destruct (Z.eqb_spec p 2); [lia|]. destruct (Z.eqb_spec p 3); [lia|].
      destruct (Z.eqb_spec p 4); [lia|]. destruct (Z.ltb_spec 4 p); [lia|reflexivity].
    + now rewrite Hp.
    + assert (p = 1 \/ p = 2 \/ p = 3 \/ p = 4) as [H|[H|[H|H]]] by lia;
        rewrite H; reflexivity.
    + destruct (Z.eqb_spec p 0); [lia|]. destruct (Z.eqb_spec p 1); [lia|].
      destruct (Z.eqb_spec p 2); [lia|]. destruct (Z.eqb_spec p 3); [lia|].
      destruct (Z.eqb_spec p 4); [lia|]. destruct (Z.ltb_spec 4 p); [reflexivity|lia].
  - intros -> Hname. simpl.
    destruct (String.eqb_spec (st_name status) "STATUS_HALFTIME"); [congruence|].
    reflexivity.
  - intros Hin Hhalf.
    destruct (String.eqb_spec (st_state status) "in"); [congruence|].
    destruct Hhalf as [H|H]; rewrite H; simpl; [reflexivity|].
    now rewrite orb_true_r.
Qed.

Lemma period_text_by_state_witness :
  period_text in_play_game_without_timeouts = "Q2".
Proof.
  destruct (period_text_by_state in_play_event_without_timeouts
              in_play_game_without_timeouts
              (sample_status "in" "2nd Quarter" "Q2") eq_refl eq_refl)
    as (_ & Hin & _).
  destruct (Hin eq_refl) as (_ & _ & Hq & _).
  rewrite Hq; [reflexivity|]. vm_compute. split; discriminate.
Defined.

End ExtractorMore.
(* ================================================================== *)
(** ** More on the scoring check *)
(* ================================================================== *)

Section TrackerMore.
Import Samples.
Local Open Scope string_scope.

Implicit Types (favs : list string) (tr : gmap string string) (games : list Game).

Lemma truthy_true (s : string) : truthy s = true <-> s <> "".
Proof. destruct s; simpl; split; congruence. Qed.

(** An alert of the loop body names a favorite team, the team in
    possession, and the label of the game, which is not empty. *)
Lemma check_game_alert favs tr (g : Game) (a : Alert) :
  (check_game favs tr g).2 = Some a ->
  a.2 = scoring_event g /\ a.2 <> "" /\ game_id g <> "" /\
  scoring_team_of g = Some a.1 /\ a.1 <> "" /\ a.1 ∈ map upper favs /\
  tr !! game_id g <> Some (scoring_event g).
Proof.
  unfold check_game.
  destruct (truthy (scoring_event g)) eqn:Ev; simpl; [|discriminate].
  destruct (truthy (game_id g)) eqn:Eid; simpl; [|discriminate].
  destruct (bool_decide (tr !! game_id g = Some (scoring_event g))) eqn:Etr;
    simpl; [discriminate|].
  apply bool_decide_eq_false in Etr.
  destruct (scoring_team_of g) as [team|]; [|discriminate].
  destruct (truthy team) eqn:Et; simpl; [|discriminate].
  destruct (bool_decide (team ∈ map upper favs)) eqn:Ef; simpl; [|discriminate].
  apply bool_decide_eq_true in Ef. intros [= <-]. simpl.
  apply truthy_true in Ev, Eid, Et. auto 10.
Qed.

(** What the loop body leaves in the tracker at the id of its game. *)
Lemma check_game_entry favs tr (g : Game) :
  (check_game favs tr g).1 !! game_id g =
    if truthy (scoring_event g) && truthy (game_id g)
    then Some (scoring_event g) else None.
Proof.
  unfold check_game.
  destruct (truthy (scoring_event g)), (truthy (game_id g)); simpl;
    try apply lookup_delete_eq.
  destruct (bool_decide (tr !! game_id g = Some (scoring_event g))) eqn:E; simpl.
  { now apply bool_decide_eq_true in E. }
  assert (<[game_id g := scoring_event g]> tr !! game_id g = Some (scoring_event g))
    as H by apply lookup_insert_eq.
  destruct (scoring_team_of g) as [team|]; [|exact H].
  destruct (negb (truthy team)); [exact H|].
  now destruct (bool_decide (team ∈ map upper favs)).
Qed.

(** X7: the scoring check alerts for favorite teams only: every alert it
    dispatches carries the non-empty label of a tracked game with a
    non-empty id, and the upper-cased abbreviation of the team in
    possession of that game, which is one of the upper-cased favorites;
    with alerts disabled it dispatches none. *)
Theorem alerts_only_for_favorites (enabled : bool) favs tr games (a : Alert) :
  a ∈ ck_alerts (_check_scoring_events enabled favs tr games) ->
  enabled = true /\ a.1 ∈ map upper favs /\ a.1 <> "" /\ a.2 <> "" /\
  exists g, g ∈ games /\ game_id g <> "" /\ scoring_event g = a.2 /\
            scoring_team_of g = Some a.1.
Proof.
  unfold _check_scoring_events. destruct enabled; simpl; [|intros H; inversion H].
  revert tr. induction games as [|g games IH]; intros tr; simpl.
  { intros H. inversion H. }
  pose proof (check_game_alert favs tr g) as Hg.
  destruct (check_game favs tr g) as [tracked [alert|]]; simpl in *.
  - assert (a = alert \/ a ∈ ck_alerts (check_loop favs tracked games) ->
            true = true /\ a.1 ∈ map upper favs /\ a.1 <> "" /\ a.2 <> "" /\
            exists h, h ∈ g :: games /\ game_id h <> "" /\ scoring_event h = a.2 /\
                      scoring_team_of h = Some a.1) as Hcase.
    { intros [->|Hin].
      - destruct (Hg alert eq_refl) as (H1 & H2 & H3 & H4 & H5 & H6 & _).
        repeat split; auto. exists g. rewrite elem_of_cons. auto.
      - destruct (IH tracked Hin) as (_ & H1 & H2 & H3 & h & Hh & H4).
        repeat split; auto. exists h. rewrite elem_of_cons. auto. }
    destruct (_trigger_scoring_animation alert.1 alert.2); simpl;
      rewrite elem_of_cons; intros [H|H]; apply Hcase; auto.
    inversion H.
  - intros Hin. destruct (IH tracked Hin) as (_ & H1 & H2 & H3 & h & Hh & H4).
    repeat split; auto. exists h. rewrite elem_of_cons. auto.
Qed.

Lemma alerts_only_for_favorites_witness :
  true = true /\ ("KC", "TOUCHDOWN").1 ∈ map upper fans /\ ("KC", "TOUCHDOWN").1 <> "" /\
  ("KC", "TOUCHDOWN").2 <> "" /\
  exists g, g ∈ [scoring "TOUCHDOWN"] /\ game_id g <> "" /\
            scoring_event g = ("KC", "TOUCHDOWN").2 /\
            scoring_team_of g = Some ("KC", "TOUCHDOWN").1.
Proof.
  apply (alerts_only_for_favorites true fans ∅ [scoring "TOUCHDOWN"] ("KC", "TOUCHDOWN")).
  apply (bool_decide_unpack _). vm_compute. reflexivity.
Defined.

(** X8: the tracker never gains an entry that is not the non-empty label of
    a checked game stored under that game's non-empty id: an entry
    found after the check was there before or is such a label. *)
Theorem tracker_entries_are_labels (enabled : bool) favs tr games
    (id label : string) :
  ck_tracker (_check_scoring_events enabled favs tr games) !! id = Some label ->
  tr !! id = Some label \/
  exists g, g ∈ games /\ game_id g = id /\ scoring_event g = label /\
            label <> "" /\ id <> "".
Proof.
  unfold _check_scoring_events. destruct enabled; simpl; [|auto].
  revert tr. induction games as [|g games IH]; intros tr; simpl; [auto|].
  assert ((check_game favs tr g).1 !! id = Some label ->
          tr !! id = Some label \/
          (game_id g = id /\ scoring_event g = label /\ label <> "" /\ id <> ""))
    as Hstep.
  { destruct (decide (id = game_id g)) as [->|Hne].
    - rewrite check_game_entry.
      destruct (truthy (scoring_event g)) eqn:Ev; [|discriminate].
      destruct (truthy (game_id g)) eqn:Eid; [|discriminate].
      simpl. intros [= <-]. apply truthy_true in Ev, Eid. auto.
    - rewrite check_game_other by assumption. auto. }
  assert (forall later : gmap string string,
            (later !! id = Some label ->
             (check_game favs tr g).1 !! id = Some label \/
             exists h, h ∈ games /\ game_id h = id /\ scoring_event h = label /\
                       label <> "" /\ id <> "") ->
            later !! id = Some label ->
            tr !! id = Some label \/
            exists h, h ∈ g :: games /\ game_id h = id /\ scoring_event h = label /\
                      label <> "" /\ id <> "") as Hglue.
  { intros later Hl Hin. destruct (Hl Hin) as [H|(h & Hh & H)].
    - destruct (Hstep H) as [H'|H']; [auto|].
      right. exists g. rewrite elem_of_cons. auto.
    - right. exists h. rewrite elem_of_cons. auto. }
  destruct (check_game favs tr g) as [tracked [alert|]]; simpl in *.
  - destruct (_trigger_scoring_animation alert.1 alert.2); simpl.
    + apply Hglue. auto.
    + apply Hglue. apply IH.
  - apply Hglue. apply IH.
Qed.

Lemma tracker_entries_are_labels_witness :
  (∅ : gmap string string) !! "401" = Some "TOUCHDOWN" \/
  exists g, g ∈ [scoring "TOUCHDOWN"] /\ game_id g = "401" /\
            scoring_event g = "TOUCHDOWN" /\ "TOUCHDOWN" <> "" /\ "401" <> "".
Proof.
  apply (tracker_entries_are_labels true fans ∅ [scoring "TOUCHDOWN"] "401" "TOUCHDOWN").
  vm_compute. reflexivity.
Defined.

(** Dispatching an alert for one of the three labels raises. *)
Lemma trigger_raises_on_labels (team label : string) :
  label ∈ scoring_labels -> label <> "" ->
  _trigger_scoring_animation team label = true.
Proof.
  unfold scoring_labels. rewrite !elem_of_cons, elem_of_nil.
  intros [->|[->|[->|[->|[]]]]] Hne; try reflexivity. congruence.
Qed.

Lemma check_loop_one_alert favs games tr :
  Forall (fun g => scoring_event g ∈ scoring_labels) games ->
  (length (ck_alerts (check_loop favs tr games)) <= 1)%nat /\
  (ck_raised (check_loop favs tr games) = true <->
   ck_alerts (check_loop favs tr games) <> []).
Proof.
  intros Hlabels. revert tr.
  induction Hlabels as [|g games Hg _ IH]; intros tr; simpl.
  { split; [lia|]. split; [discriminate|congruence]. }
  pose proof (check_game_alert favs tr g) as Ha.
  destruct (check_game favs tr g) as [tracked [alert|]]; simpl in *; [|apply IH].
  destruct (Ha alert eq_refl) as (H1 & H2 & _).
  rewrite trigger_raises_on_labels by (first [assumption | rewrite H1; assumption]).
  simpl. split; [lia|]. split; [discriminate|reflexivity].
Qed.

(** X9: when every game carries one of the labels the extractor gives, a
    run of the check dispatches at most one alert, and it dispatches
    one exactly when it ends in an exception: the games after the
    alerted one are not checked. *)
Theorem at_most_one_alert_per_check (enabled : bool) favs tr games :
  Forall (fun g => scoring_event g ∈ scoring_labels) games ->
  (length (ck_alerts (_check_scoring_events enabled favs tr games)) <= 1)%nat /\
  (ck_raised (_check_scoring_events enabled favs tr games) = true <->
   ck_alerts (_check_scoring_events enabled favs tr games) <> []).
Proof.
  intros Hlabels. unfold _check_scoring_events. destruct enabled; simpl.
  - now apply check_loop_one_alert.
  - split; [lia|]. split; [discriminate|congruence].
Qed.

Lemma at_most_one_alert_per_check_witness :
  (length (ck_alerts (_check_scoring_events true fans ∅
             [scoring "TOUCHDOWN"; scoring "FIELD GOAL"])) <= 1)%nat /\
  (ck_raised (_check_scoring_events true fans ∅
                [scoring "TOUCHDOWN"; scoring "FIELD GOAL"]) = true <->
   ck_alerts (_check_scoring_events true fans ∅
                [scoring "TOUCHDOWN"; scoring "FIELD GOAL"]) <> []).
Proof.
  apply (at_most_one_alert_per_check true fans ∅
           [scoring "TOUCHDOWN"; scoring "FIELD GOAL"]).
  apply (bool_decide_unpack _). vm_compute. reflexivity.
Defined.

(** A game whose entry already says what the loop body would write is
    passed over. *)
Lemma check_game_settled favs tr (g : Game) :
  tr !! game_id g =
    (if truthy (scoring_event g) && truthy (game_id g)
     then Some (scoring_event g) else None) ->
  check_game favs tr g = (tr, None).
Proof.
  intros H. unfold check_game.
  destruct (truthy (scoring_event g)) eqn:Ev, (truthy (game_id g)) eqn:Eid;
    simpl in *; try (now rewrite delete_id).
  now rewrite bool_decide_eq_true_2.
Qed.

Lemma check_loop_settled favs tr games :
  (forall g, g ∈ games ->
     tr !! game_id g =
       if truthy (scoring_event g) && truthy (game_id g)
       then Some (scoring_event g) else None) ->
  check_loop favs tr games =
    {| ck_tracker := tr; ck_alerts := []; ck_raised := false |}.
Proof.
  induction games as [|g games IH]; intros H; simpl; [reflexivity|].
  rewrite check_game_settled by (apply H, list_elem_of_here).
  apply IH. intros h Hh. apply H. now apply elem_of_cons; right.
Qed.

(** After a run that reached its end, the entry of each game (ids
    distinct) is its label, or nothing for an empty label or id. *)
Lemma check_loop_entries favs games tr (g : Game) :
  ck_raised (check_loop favs tr games) = false ->
  NoDup (game_id <$> games) -> g ∈ games ->
  ck_tracker (check_loop favs tr games) !! game_id g =
    if truthy (scoring_event g) && truthy (game_id g)
    then Some (scoring_event g) else None.
Proof.
  revert tr. induction games as [|h games IH]; intros tr Hr Hnd Hin.
  { inversion Hin. }
  rewrite fmap_cons in Hnd. apply list.NoDup_cons in Hnd as [Hh Hnd].
  simpl in *. pose proof (check_game_entry favs tr h) as He.
  apply elem_of_cons in Hin as [->|Hin].
  - destruct (check_game favs tr h) as [tracked [alert|]]; simpl in *.
    + destruct (_trigger_scoring_animation alert.1 alert.2); simpl in *; [discriminate|].
      now rewrite check_loop_other.
    + now rewrite check_loop_other.
  - destruct (check_game favs tr h) as [tracked [alert|]]; simpl in *.
    + destruct (_trigger_scoring_animation alert.1 alert.2); simpl in *; [discriminate|].
      now apply IH.
    + now apply IH.
Qed.

(** X10: checking the same games again, after a check that reached its end,
    alerts nobody and leaves the tracker as it is (ids distinct). *)
Theorem recheck_is_silent (enabled : bool) favs tr games :
  NoDup (game_id <$> games) ->
  ck_raised (_check_scoring_events enabled favs tr games) = false ->
  _check_scoring_events enabled favs
    (ck_tracker (_check_scoring_events enabled favs tr games)) games
  = {| ck_tracker := ck_tracker (_check_scoring_events enabled favs tr games);
       ck_alerts := []; ck_raised := false |}.
Proof.
  unfold _check_scoring_events. destruct enabled; simpl; [|reflexivity].
  intros Hnd Hr. apply check_loop_settled.
  intros g Hg. now apply check_loop_entries.
Qed.

Lemma recheck_is_silent_witness :
  _check_scoring_events true ["den"]
    (ck_tracker (_check_scoring_events true ["den"] ∅ [scoring "TOUCHDOWN"]))
    [scoring "TOUCHDOWN"]
  = {| ck_tracker := ck_tracker (_check_scoring_events true ["den"] ∅
                                   [scoring "TOUCHDOWN"]);
       ck_alerts := []; ck_raised := false |}.
Proof.
  apply (recheck_is_silent true ["den"] ∅ [scoring "TOUCHDOWN"]).
  - apply (bool_decide_unpack _). vm_compute. reflexivity.
  - reflexivity.
Defined.

End TrackerMore.
(* ================================================================== *)
(** ** The simulated clock *)
(* ================================================================== *)

Section ClockProperties.
Import Samples TestClock.
Local Open Scope string_scope.

Lemma more_digits_numeral (d : Decimal.uint) (acc : Z) :
  more_digits acc (DecimalString.NilEmpty.string_of_uint d) = Some (uint_value d acc).
Proof.
  revert acc. induction d; intros acc; simpl; try reflexivity;
    rewrite IHd; do 2 f_equal; lia.
Qed.

Lemma uint_value_of_lu (d : Decimal.uint) (acc : Z) :
  uint_value d acc =
    Z.of_N (DecimalPos.Unsigned.of_lu (Decimal.rev d))
    + acc * 10 ^ Z.of_N (DecimalPos.Unsigned.usize d).
Proof.
  revert acc. induction d; intros acc; simpl uint_value;
    [simpl; lia|..];
    rewrite IHd; unfold Decimal.rev; simpl Decimal.revapp;
    rewrite (DecimalPos.Unsigned.of_lu_revapp d (_ Decimal.Nil));
    simpl DecimalPos.Unsigned.usize; simpl DecimalPos.Unsigned.of_lu;
    rewrite N2Z.inj_succ, Z.pow_succ_r by lia;
    rewrite N2Z.inj_add, N2Z.inj_mul, N2Z.inj_pow; unfold Decimal.rev; simpl; lia.
Qed.

Lemma uint_value_to_uint (n : N) : uint_value (N.to_uint n) 0 = Z.of_N n.
Proof.
  rewrite uint_value_of_lu, <- DecimalPos.Unsigned.of_uint_alt.
  destruct n as [|p]; [reflexivity|].
  simpl N.to_uint. rewrite DecimalPos.Unsigned.of_to. lia.
Qed.

Lemma numeral_nonnil (n : N) : N.to_uint n <> Decimal.Nil.
Proof.
  destruct n as [|p]; [discriminate|]. apply DecimalPos.Unsigned.to_uint_nonnil.
Qed.

Lemma str_nonneg_numeral (n : Z) :
  str_nonneg n = DecimalString.NilEmpty.string_of_uint (N.to_uint (Z.to_N n)).
Proof.
  unfold str_nonneg, DecimalString.NilZero.string_of_uint.
  pose proof (numeral_nonnil (Z.to_N n)) as H.
  now destruct (N.to_uint (Z.to_N n)).
Qed.

(** Reading back the decimal text of a number that is not negative. *)
Lemma unsigned_int_str_nonneg (n : Z) :
  0 <= n -> unsigned_int (str_nonneg n) = Some n.
Proof.
  intros Hn. rewrite str_nonneg_numeral.
  pose proof (uint_value_to_uint (Z.to_N n)) as Hv.
  pose proof (numeral_nonnil (Z.to_N n)) as Hnil.
  rewrite Z2N.id in Hv by assumption.
  destruct (N.to_uint (Z.to_N n)) as [|d|d|d|d|d|d|d|d|d|d]; [congruence|..];
    simpl; rewrite more_digits_numeral; f_equal; exact Hv.
Qed.

Lemma more_digits_str_nonneg (n : Z) :
  0 <= n < 10 -> more_digits 0 (str_nonneg n) = Some n.
Proof.
  intros Hn. rewrite str_nonneg_numeral, more_digits_numeral.
  rewrite uint_value_to_uint, Z2N.id; [reflexivity|lia].
Qed.

Lemma solid_numeral (d : Decimal.uint) :
  solid (DecimalString.NilEmpty.string_of_uint d) = true.
Proof. induction d; simpl; auto. Qed.

Lemma solid_str_nonneg (n : Z) : solid (str_nonneg n) = true.
Proof. rewrite str_nonneg_numeral. apply solid_numeral. Qed.

Lemma solid_format_02d (n : Z) : solid (format_02d n) = true.
Proof.
  unfold format_02d. destruct (n <? 0)%Z; [|destruct (n <? 10)%Z].
  - change ("-" ++ str_nonneg (- n)) with (String "-" (str_nonneg (- n))).
    simpl. now rewrite solid_str_nonneg.
  - change ("0" ++ str_nonneg n) with (String "0" (str_nonneg n)).
    simpl. now rewrite solid_str_nonneg.
  - apply solid_str_nonneg.
Qed.

(** Stripping leaves a text without blanks alone. *)
Lemma lstrip_solid (s : string) : solid s = true -> lstrip s = s.
Proof.
  destruct s as [|c s]; simpl; [reflexivity|].
  now destruct (is_space c).
Qed.

Lemma rstrip_solid (s : string) : solid s = true -> rstrip s = s.
Proof.
  induction s as [|c s IH]; simpl; [reflexivity|].
  intros [[Hc _]%andb_true_iff Hs]%andb_true_iff.
  rewrite (IH Hs). destruct s; [|reflexivity].
  now destruct (is_space c).
Qed.

(** [int] reads back what the format [{n:02d}] writes. *)
Lemma int_format_02d (n : Z) : int (format_02d n) = Some n.
Proof.
  unfold int. rewrite lstrip_solid, rstrip_solid by apply solid_format_02d.
  unfold format_02d.
  destruct (Z.ltb_spec n 0) as [Hneg|Hpos].
  - change ("-" ++ str_nonneg (- n)) with (String "-" (str_nonneg (- n))).
    cbv iota beta. rewrite unsigned_int_str_nonneg by lia. simpl. f_equal. lia.
  - destruct (Z.ltb_spec n 10) as [Hsmall|Hbig].
    + change ("0" ++ str_nonneg n) with (String "0" (str_nonneg n)). simpl.
      apply more_digits_str_nonneg. lia.
    + pose proof (unsigned_int_str_nonneg n Hpos) as Hu.
      rewrite str_nonneg_numeral in *.
      pose proof (numeral_nonnil (Z.to_N n)) as Hnil.
      destruct (N.to_uint (Z.to_N n)) as [|d|d|d|d|d|d|d|d|d|d]; [congruence|..];
        exact Hu.
Qed.

(** Splitting at colons. *)
Lemma split_colon_solid (s : string) : solid s = true -> split_colon s = [s].
Proof.
  induction s as [|c s IH]; simpl; [reflexivity|].
  intros [[_ Hc]%andb_true_iff Hs]%andb_true_iff.
  apply negb_true_iff in Hc. rewrite Hc, (IH Hs). reflexivity.
Qed.

Lemma split_colon_app (a b : string) :
  solid a = true -> split_colon (a ++ ":" ++ b) = a :: split_colon b.
Proof.
  induction a as [|c a IH]; simpl; [reflexivity|].
  intros [[_ Hc]%andb_true_iff Hs]%andb_true_iff.
  apply negb_true_iff in Hc. rewrite Hc, (IH Hs). reflexivity.
Qed.

Lemma parse_clock_format (minutes seconds : Z) :
  parse_clock (format_02d minutes ++ ":" ++ format_02d seconds)
    = Some (minutes, seconds).
Proof.
  unfold parse_clock.
  rewrite split_colon_app by apply solid_format_02d.
  rewrite split_colon_solid by apply solid_format_02d.
  now rewrite !int_format_02d.
Qed.


(** One simulated second, read through the parsed clock. *)
Lemma simulate_clock_parsed (g : Game) (m s : Z) :
  parse_clock (clock g) = Some (m, s) ->
  exists g', simulate_clock g = Some g' /\
    parse_clock (clock g') =
      Some (if (s - 1 <? 0)%Z
            then if (m - 1 <? 0)%Z
                 then if (period g <? 4)%Z then (15, 0) else (0, 0)
                 else (m - 1, 59)
            else (m, s - 1)) /\
    period g' = (if (s - 1 <? 0)%Z && (m - 1 <? 0)%Z && (period g <? 4)%Z
                 then period g + 1 else period g) /\
    is_live g' = (if (s - 1 <? 0)%Z && (m - 1 <? 0)%Z && negb (period g <? 4)%Z
                  then false else is_live g) /\
    is_final g' = (if (s - 1 <? 0)%Z && (m - 1 <? 0)%Z && negb (period g <? 4)%Z
                   then true else is_final g) /\
    period_text g' =
      (if (s - 1 <? 0)%Z && (m - 1 <? 0)%Z
       then if (period g <? 4)%Z
            then next_period_text (period g + 1) (period_text g) else "Final"
       else period_text g).
Proof.
  intros Hp. unfold simulate_clock. rewrite Hp. eexists. split; [reflexivity|].
  simpl. rewrite parse_clock_format.
  destruct (s - 1 <? 0)%Z, (m - 1 <? 0)%Z, (period g <? 4)%Z; simpl; auto.
Qed.

(** X12: the simulation fails only on a clock text that does not parse, and
    once a second was simulated every later one can be: the clock it
    writes always parses. *)
Theorem simulation_never_sticks (g : Game) :
  (simulate_clock g = None <-> parse_clock (clock g) = None) /\
  (forall g', simulate_clock g = Some g' -> is_Some (simulate_clock g')).
Proof.
  split.
  - unfold simulate_clock. destruct (parse_clock (clock g)) as [[m s]|].
    + split; discriminate.
    + split; reflexivity.
  - intros g' Hg'.
    destruct (parse_clock (clock g)) as [[m s]|] eqn:Hp.
    + destruct (simulate_clock_parsed g m s Hp) as (g1 & H1 & H2 & _).
      assert (g1 = g') as -> by congruence.
      match type of H2 with _ = Some ?p => destruct p as [m' s'] end.
      destruct (simulate_clock_parsed g' _ _ H2) as (g2 & -> & _). eauto.
    + unfold simulate_clock in Hg'. now rewrite Hp in Hg'.
Qed.

(** X13: while time is left in the quarter the clock loses one second and
    nothing else happens to period and state: the seconds count down,
    from 0 to 59 of the minute before. *)
Theorem clock_counts_down (g : Game) (m s : Z) :
  parse_clock (clock g) = Some (m, s) ->
  0 <= m -> 0 <= s <= 59 -> 0 < 60 * m + s ->
  exists g' m' s',
    simulate_clock g = Some g' /\ parse_clock (clock g') = Some (m', s') /\
    0 <= m' /\ 0 <= s' <= 59 /\ 60 * m' + s' = 60 * m + s - 1 /\
    period g' = period g /\ period_text g' = period_text g /\
    is_live g' = is_live g /\ is_final g' = is_final g.
Proof.
  intros Hp Hm Hs Hleft.
  destruct (simulate_clock_parsed g m s Hp) as (g' & H1 & H2 & H3 & H4 & H5 & H6).
  destruct (Z.ltb_spec (s - 1) 0) as [Hu|Hu].
  - destruct (Z.ltb_spec (m - 1) 0) as [Hq|Hq]; [lia|].
    simpl in *. exists g', (m - 1), 59. repeat split; auto; lia.
  - simpl in *. exists g', m, (s - 1). repeat split; auto; lia.
Qed.

Lemma clock_counts_down_witness :
  exists g' m' s',
    simulate_clock (scoring "") = Some g' /\ parse_clock (clock g') = Some (m', s') /\
    0 <= m' /\ 0 <= s' <= 59 /\ 60 * m' + s' = 60 * 3 + 10 - 1 /\
    period g' = period (scoring "") /\ period_text g' = period_text (scoring "") /\
    is_live g' = is_live (scoring "") /\ is_final g' = is_final (scoring "").
Proof.
  apply (clock_counts_down (scoring "") 3 10); [reflexivity|lia|lia|lia].
Defined.

(** X14: when the clock runs out before the fourth quarter the next period
    begins with 15 minutes on the clock, and the game stays as live as
    it was. *)
Theorem quarter_rolls_over (g : Game) (m s : Z) :
  parse_clock (clock g) = Some (m, s) ->
  m <= 0 -> s <= 0 -> period g < 4 ->
  exists g',
    simulate_clock g = Some g' /\ period g' = period g + 1 /\
    clock g' = "15:00" /\
    (1 <= period g' -> period_text g' = "Q" ++ str_nonneg (period g')) /\
    (period g' < 1 -> period_text g' = period_text g) /\
    is_live g' = is_live g /\ is_final g' = is_final g.
Proof.
  intros Hp Hm Hs Hq.
  destruct (simulate_clock_parsed g m s Hp) as (g' & H1 & _ & H3 & H4 & H5 & H6).
  destruct (Z.ltb_spec (s - 1) 0); [|lia].
  destruct (Z.ltb_spec (m - 1) 0); [|lia].
  destruct (Z.ltb_spec (period g) 4); [|lia].
  simpl in *. exists g'. split; [exact H1|]. split; [exact H3|]. split.
  { unfold simulate_clock in H1. rewrite Hp in H1. injection H1 as <-. simpl.
    destruct (Z.ltb_spec (s - 1) 0); [|lia]. destruct (Z.ltb_spec (m - 1) 0); [|lia].
    destruct (Z.ltb_spec (period g) 4); [|lia]. reflexivity. }
  rewrite H3, H6. unfold next_period_text. repeat split; auto.
  - intros Hge.
    assert (period g + 1 = 1 \/ period g + 1 = 2 \/ period g + 1 = 3 \/ period g + 1 = 4)
      as [E|[E|[E|E]]] by lia; rewrite E; reflexivity.
  - intros Hlt.
    destruct (Z.eqb_spec (period g + 1) 1); [lia|].
    destruct (Z.eqb_spec (period g + 1) 2); [lia|].
    destruct (Z.eqb_spec (period g + 1) 3); [lia|].
    destruct (Z.eqb_spec (period g + 1) 4); [lia|]. reflexivity.
Qed.

Lemma quarter_rolls_over_witness :
  exists g',
    simulate_clock (at_clock "00:00" 2) = Some g' /\
    period g' = period (at_clock "00:00" 2) + 1 /\
    clock g' = "15:00" /\
    (1 <= period g' -> period_text g' = "Q" ++ str_nonneg (period g')) /\
    (period g' < 1 -> period_text g' = period_text (at_clock "00:00" 2)) /\
    is_live g' = is_live (at_clock "00:00" 2) /\
    is_final g' = is_final (at_clock "00:00" 2).
Proof.
  apply (quarter_rolls_over (at_clock "00:00" 2) 0 0); [reflexivity|lia|lia|].
  simpl. lia.
Defined.

(** X15: when the clock runs out in the fourth period or later, the game is
    over: no longer live, final, "Final" with the clock at "00:00", the
    period as it was; and a game that is not live is simulated no
    further by a test-mode poll. *)
Theorem game_ends_after_fourth (g : Game) (m s : Z) :
  parse_clock (clock g) = Some (m, s) ->
  m <= 0 -> s <= 0 -> 4 <= period g ->
  exists g',
    simulate_clock g = Some g' /\
    is_live g' = false /\ is_final g' = true /\ period_text g' = "Final" /\
    clock g' = "00:00" /\ period g' = period g /\
    (forall st, current_game st = Some g' -> test_mode_step st = (st, [])).
Proof.
  intros Hp Hm Hs Hq.
  destruct (simulate_clock_parsed g m s Hp) as (g' & H1 & _ & H3 & H4 & H5 & H6).
  destruct (Z.ltb_spec (s - 1) 0); [|lia].
  destruct (Z.ltb_spec (m - 1) 0); [|lia].
  destruct (Z.ltb_spec (period g) 4); [lia|].
  simpl in *. exists g'. repeat split; auto.
  - unfold simulate_clock in H1. rewrite Hp in H1. injection H1 as <-. simpl.
    destruct (Z.ltb_spec (s - 1) 0); [|lia]. destruct (Z.ltb_spec (m - 1) 0); [|lia].
    destruct (Z.ltb_spec (period g) 4); [lia|]. reflexivity.
  - intros st Hcur. unfold test_mode_step. now rewrite Hcur, H4.
Qed.

Lemma game_ends_after_fourth_witness :
  exists g',
    simulate_clock (at_clock "00:00" 4) = Some g' /\
    is_live g' = false /\ is_final g' = true /\ period_text g' = "Final" /\
    clock g' = "00:00" /\ period g' = period (at_clock "00:00" 4) /\
    (forall st, current_game st = Some g' -> test_mode_step st = (st, [])).
Proof.
  apply (game_ends_after_fourth (at_clock "00:00" 4) 0 0); [reflexivity|lia|lia|].
  simpl. lia.
Defined.

(** The simulation writes the clock, the period, its text, the live
    and final flags, the status text and the down-and-distance text,
    and nothing else: identity, teams, scores, start time, timeouts,
    possession and the scoring label are what they were. *)
Theorem simulation_keeps_identity (g g' : Game) :
  simulate_clock g = Some g' ->
  game_id g' = game_id g /\ home_id g' = home_id g /\ away_id g' = away_id g /\
  home_abbr g' = home_abbr g /\ away_abbr g' = away_abbr g /\
  home_score g' = home_score g /\ away_score g' = away_score g /\
  start_time_utc g' = start_time_utc g /\
  is_halftime g' = is_halftime g /\ is_upcoming g' = is_upcoming g /\
  home_timeouts g' = home_timeouts g /\ away_timeouts g' = away_timeouts g /\
  is_redzone g' = is_redzone g /\ possession g' = possession g /\
  possession_indicator g' = possession_indicator g /\
  scoring_event g' = scoring_event g /\
  status_text g' = period_text g' ++ " " ++ clock g'.
Proof.
  unfold simulate_clock.
  destruct (parse_clock (clock g)) as [[m s]|]; [|discriminate].
  intros [= <-]. simpl. repeat split; reflexivity.
Qed.

Lemma simulation_keeps_identity_witness :
  exists g', simulate_clock (at_clock "00:00" 4) = Some g' /\
             scoring_event g' = scoring_event (at_clock "00:00" 4) /\
             game_id g' = game_id (at_clock "00:00" 4).
Proof.
  destruct (simulate_clock (at_clock "00:00" 4)) as [g'|] eqn:E; [|discriminate E].
  exists g'. split; [reflexivity|].
  destruct (simulation_keeps_identity (at_clock "00:00" 4) g' E)
    as (Hid & _ & _ & _ & _ & _ & _ & _ & _ & _ & _ & _ & _ & _ & _ & Hev & _).
  split; [exact Hev|exact Hid].
Defined.

(** A simulated second that does not end the game leaves the flags
    alone, so they are what they were for as long as the rest does. *)
Lemma simulate_n_step (n : nat) (g g1 : Game) (P : Game -> Prop) :
  simulate_clock g = Some g1 ->
  is_live g1 = is_live g -> is_final g1 = is_final g ->
  (exists g', simulate_n n g1 = Some g' /\ P g' /\
     forall k, (k < n)%nat ->
       exists gk, simulate_n k g1 = Some gk /\
                  is_live gk = is_live g1 /\ is_final gk = is_final g1) ->
  exists g', simulate_n (S n) g = Some g' /\ P g' /\
     forall k, (k < S n)%nat ->
       exists gk, simulate_n k g = Some gk /\
                  is_live gk = is_live g /\ is_final gk = is_final g.
Proof.
  intros H1 Hlive Hfinal (g' & Hn & HP & Hbefore).
  exists g'. simpl. rewrite H1. simpl. split; [exact Hn|]. split; [exact HP|].
  intros [|k] Hk.
  - exists g. auto.
  - destruct (Hbefore k) as (gk & Hgk & Hl & Hf); [lia|].
    exists gk. simpl. rewrite H1. simpl. rewrite Hl, Hf. auto.
Qed.

Lemma simulate_n_reaches_final (n : nat) (g : Game) (m s : Z) :
  parse_clock (clock g) = Some (m, s) ->
  0 <= m -> 0 <= s <= 59 ->
  seconds_to_final (period g) m s = Z.of_nat n ->
  exists g', simulate_n n g = Some g' /\
    (is_final g' = true /\ is_live g' = false /\ period_text g' = "Final") /\
    forall k, (k < n)%nat ->
      exists gk, simulate_n k g = Some gk /\
                 is_live gk = is_live g /\ is_final gk = is_final g.
Proof.
  unfold seconds_to_final.
  revert g m s. induction n as [|n IH]; intros g m s Hp Hm Hs Hn; [lia|].
  destruct (simulate_clock_parsed g m s Hp) as (g' & H1 & H2 & H3 & H4 & H5 & H6).
  destruct (Z.ltb_spec (s - 1) 0) as [Hu|Hu].
  - destruct (Z.ltb_spec (m - 1) 0) as [Hq|Hq].
    + destruct (Z.ltb_spec (period g) 4) as [Hlt|Hge]; simpl in *.
      * apply (simulate_n_step n g g' _ H1 H4 H5).
        apply (IH g' 15 0); [exact H2|lia|lia|]. rewrite H3. lia.
      * assert (n = 0%nat) as -> by lia. exists g'. simpl. rewrite H1. simpl.
        split; [reflexivity|]. split; [auto|].
        intros k Hk. assert (k = 0%nat) as -> by lia. exists g. auto.
    + simpl in *. apply (simulate_n_step n g g' _ H1 H4 H5).
      apply (IH g' (m - 1) 59); [exact H2|lia|lia|]. rewrite H3. lia.
  - simpl in *. apply (simulate_n_step n g g' _ H1 H4 H5).
    apply (IH g' m (s - 1)); [exact H2|lia|lia|]. rewrite H3. lia.
Qed.

(** X16: a simulated game with a well-formed clock is ended by the
    simulated second that uses up what it has left (the rest of the
    quarter, 900 s for each quarter still to come, one second for each
    end of a quarter) and by no earlier one: after that second it is
    final, not live and "Final", and after any smaller number of
    simulated seconds its live and final flags are what they were at
    the start. *)
Theorem simulation_reaches_final (g : Game) (m s : Z) :
  parse_clock (clock g) = Some (m, s) ->
  0 <= m -> 0 <= s <= 59 ->
  exists g',
    simulate_n (Z.to_nat (seconds_to_final (period g) m s)) g = Some g' /\
    (is_final g' = true /\ is_live g' = false /\ period_text g' = "Final") /\
    forall k, (k < Z.to_nat (seconds_to_final (period g) m s))%nat ->
      exists gk, simulate_n k g = Some gk /\
                 is_live gk = is_live g /\ is_final gk = is_final g.
Proof.
  intros Hp Hm Hs. apply (simulate_n_reaches_final _ g m s); auto.
  unfold seconds_to_final. lia.
Qed.

Lemma simulation_reaches_final_witness :
  exists g',
    simulate_n (Z.to_nat (seconds_to_final (period (at_clock "00:02" 4)) 0 2))
      (at_clock "00:02" 4) = Some g' /\
    (is_final g' = true /\ is_live g' = false /\ period_text g' = "Final") /\
    forall k, (k < Z.to_nat (seconds_to_final (period (at_clock "00:02" 4)) 0 2))%nat ->
      exists gk, simulate_n k (at_clock "00:02" 4) = Some gk /\
                 is_live gk = is_live (at_clock "00:02" 4) /\
                 is_final gk = is_final (at_clock "00:02" 4).
Proof.
  apply (simulation_reaches_final (at_clock "00:02" 4) 0 2); [reflexivity|lia|lia].
Defined.

End ClockProperties.
(* ================================================================== *)
(** ** More on [update] *)
(* ================================================================== *)

Section UpdateMore.
Import Samples.

Implicit Types (cfg : Config) (st : State) (env : Env) (new games : list Game).

(** The candidates are the games of the events that extract and pass
    the filter, in feed order. *)
Lemma collect_live_games_app cfg (before after : list Event) :
  collect_live_games cfg (before ++ after)
  = collect_live_games cfg before ++ collect_live_games cfg after.
Proof.
  induction before as [|ev before IH]; simpl; [reflexivity|].
  destruct (_extract_game_details ev) as [g|]; [|exact IH].
  destruct (keep_game cfg g); [|exact IH]. simpl. now rewrite IH.
Qed.

Lemma elem_of_collect_live_games cfg (events : list Event) (g : Game) :
  g ∈ collect_live_games cfg events <->
  exists ev, ev ∈ events /\ _extract_game_details ev = Some g /\ keep_game cfg g = true.
Proof.
  induction events as [|ev events IH]; simpl.
  { rewrite elem_of_nil. split; [tauto|]. intros (ev & H & _). inversion H. }
  assert ((exists ev', ev' ∈ ev :: events /\ _extract_game_details ev' = Some g /\
                       keep_game cfg g = true) <->
          (_extract_game_details ev = Some g /\ keep_game cfg g = true) \/
          g ∈ collect_live_games cfg events) as ->.
  { rewrite IH. split.
    - intros (ev' & [->|Hin]%elem_of_cons & H); [left; exact H|right; eauto].
    - intros [H|(ev' & Hin & H)].
      + exists ev. split; [apply list_elem_of_here|exact H].
      + exists ev'. split; [apply elem_of_cons; now right|exact H]. }
  destruct (_extract_game_details ev) as [h|] eqn:E.
  - destruct (keep_game cfg h) eqn:K.
    + rewrite elem_of_cons. split.
      * intros [->|H]; auto.
      * intros [[[= ->] _]|H]; auto.
    + split; [auto|]. intros [[[= ->] K']|H]; [congruence|exact H].
  - split; [auto|]. intros [[H _]|H]; [discriminate|exact H].
Qed.

Lemma candidate_extracted cfg env (g : Game) :
  g ∈ candidates cfg env ->
  (exists ev, _extract_game_details ev = Some g) /\
  (is_live g = true \/ is_halftime g = true).
Proof.
  unfold candidates. destruct (data env) as [events|]; [|intros H; inversion H].
  intros (ev & _ & He & Hk)%elem_of_collect_live_games.
  split; [eauto|]. unfold keep_game in Hk.
  apply andb_true_iff in Hk as [Hk _]. now apply orb_true_iff in Hk.
Qed.

(** X17: a candidate is a game some event of the feed extracts to, live or
    at halftime, and with a favorite team when only favorites are
    shown; every such game is a candidate. *)
Theorem candidates_characterised cfg env (g : Game) :
  g ∈ candidates cfg env <->
  exists events ev,
    data env = Some events /\ ev ∈ events /\ _extract_game_details ev = Some g /\
    (is_live g = true \/ is_halftime g = true) /\
    (show_favorite_teams_only cfg = true ->
       home_abbr g ∈ favorite_teams cfg \/ away_abbr g ∈ favorite_teams cfg).
Proof.
  assert (keep_game cfg g = true <->
          (is_live g = true \/ is_halftime g = true) /\
          (show_favorite_teams_only cfg = true ->
             home_abbr g ∈ favorite_teams cfg \/ away_abbr g ∈ favorite_teams cfg))
    as Hkeep.
  { unfold keep_game. rewrite andb_true_iff, orb_true_iff.
    destruct (show_favorite_teams_only cfg).
    - rewrite orb_true_iff, !bool_decide_eq_true. tauto.
    - intuition discriminate. }
  unfold candidates. destruct (data env) as [events|].
  - rewrite elem_of_collect_live_games. split.
    + intros (ev & Hin & He & Hk). exists events, ev. rewrite <- Hkeep. auto.
    + intros (events' & ev & [= <-] & Hin & He & Hk). exists ev. rewrite Hkeep. auto.
  - rewrite elem_of_nil. split; [tauto|]. intros (events & ev & H & _). discriminate.
Qed.

(** X18: an event that fails to extract is skipped alone: the candidates
    are those of the events before it followed by those of the events
    after it. *)
Theorem failed_event_skipped_alone cfg (before after : list Event) (ev : Event) :
  _extract_game_details ev = None ->
  collect_live_games cfg (before ++ ev :: after)
  = collect_live_games cfg before ++ collect_live_games cfg after.
Proof.
  intros H. rewrite collect_live_games_app. simpl. now rewrite H.
Qed.

Lemma failed_event_skipped_alone_witness :
  collect_live_games (config false)
    ([live_event "1" (Some 50) "Q2"] ++ broken_event :: [live_event "2" (Some 70) "Q2"])
  = collect_live_games (config false) [live_event "1" (Some 50) "Q2"]
    ++ collect_live_games (config false) [live_event "2" (Some 70) "Q2"].
Proof.
  apply (failed_event_skipped_alone (config false)
           [live_event "1" (Some 50) "Q2"] [live_event "2" (Some 70) "Q2"] broken_event).
  reflexivity.
Defined.

(** After reconciliation every tracked game is one of the candidates,
    and the tracked ids are the candidate ids. *)
Lemma reconcile_games_from_candidates st now clk new (g : Game) :
  g ∈ live_games (reconcile st now clk new) -> g ∈ new.
Proof.
  unfold reconcile.
  destruct (decide (id_set new = id_set (live_games st))) as [Heq|Hne].
  - rewrite bool_decide_eq_false_2 by (intros H; now apply H).
    rewrite refresh_games_spec. simpl.
    intros (h & -> & Hh)%list_elem_of_fmap.
    destruct (temp_game_dict_is_Some new (game_id h)) as [f Hf].
    { rewrite Heq. apply elem_of_id_set, list_elem_of_fmap. eauto. }
    unfold refreshed. rewrite Hf. simpl. now apply temp_game_dict_Some in Hf.
  - rewrite bool_decide_eq_true_2 by assumption.
    assert (live_games (replace_games st now clk new) = sorted_by_start clk new) as ->.
    { unfold replace_games. repeat case_match; reflexivity. }
    now rewrite sorted_by_start_perm.
Qed.

Lemma reconcile_id_set st now clk new :
  id_set (live_games (reconcile st now clk new)) = id_set new.
Proof.
  unfold reconcile.
  destruct (decide (id_set new = id_set (live_games st))) as [Heq|Hne].
  - rewrite bool_decide_eq_false_2 by (intros H; now apply H).
    rewrite refresh_games_spec. simpl. rewrite Heq. unfold id_set.
    now rewrite refreshed_ids.
  - rewrite bool_decide_eq_true_2 by assumption.
    assert (live_games (replace_games st now clk new) = sorted_by_start clk new) as ->.
    { unfold replace_games. repeat case_match; reflexivity. }
    apply id_set_perm, sorted_by_start_perm.
Qed.

(** X19: after a due poll outside test mode that found candidates, the
    LiveSet holds exactly the candidate ids, each tracked record is one
    of the candidate records, live or at halftime: a game that is not
    among the candidates is gone, a new one is in. *)
Theorem live_set_tracks_candidates cfg st env :
  is_enabled cfg && poll_due cfg st (current_time env) = true ->
  test_mode cfg = false ->
  candidates cfg env <> [] ->
  id_set (live_games (out_state (update cfg st env))) = id_set (candidates cfg env) /\
  (forall g, g ∈ live_games (out_state (update cfg st env)) ->
     g ∈ candidates cfg env /\ (is_live g = true \/ is_halftime g = true)).
Proof.
  intros Hdue Ht Hne.
  destruct (update_fetching cfg st env Hdue Ht) as (-> & _ & _).
  destruct (reconciled_selection cfg (set_last_update (current_time env) st) env Hne)
    as (-> & _). cbv zeta. split.
  - apply reconcile_id_set.
  - intros g Hg%reconcile_games_from_candidates. split; [exact Hg|].
    now apply candidate_extracted in Hg as [_ H].
Qed.

Lemma live_set_tracks_candidates_witness :
  id_set (live_games (out_state (update (config false) scored_state
                                   (env_at 115 feed_without_game_1))))
  = id_set (candidates (config false) (env_at 115 feed_without_game_1)).
Proof.
  apply (live_set_tracks_candidates (config false) scored_state
           (env_at 115 feed_without_game_1)); [reflexivity|reflexivity|].
  vm_compute. discriminate.
Defined.

(** Picking the scoring alerts out of the effects of a tick. *)
Lemma scoring_alerts_app (l1 l2 : list Effect) :
  scoring_alerts (l1 ++ l2) = scoring_alerts l1 ++ scoring_alerts l2.
Proof. apply List.filter_app. Qed.

Lemma scoring_alerts_none (l : list Effect) :
  Forall (fun e => is_alert e = false) l -> scoring_alerts l = [].
Proof.
  induction 1 as [|e l He _ IH]; [reflexivity|].
  unfold scoring_alerts in *. simpl. unfold is_alert in He. now rewrite He.
Qed.

Lemma scoring_alerts_all (alerts : list Alert) :
  scoring_alerts ((fun a : Alert => ScoringAlert a.1 a.2) <$> alerts)
  = (fun a : Alert => ScoringAlert a.1 a.2) <$> alerts.
Proof.
  induction alerts as [|a alerts IH]; [reflexivity|].
  rewrite fmap_cons. unfold scoring_alerts. simpl. f_equal. exact IH.
Qed.

Lemma log_step_no_alert cfg st now_log new :
  Forall (fun e => is_alert e = false) (log_step cfg st now_log new).2.
Proof.
  unfold log_step. destruct (should_log cfg st now_log new); simpl; [|constructor].
  destruct new as [|g new]; [repeat constructor|].
  constructor; [reflexivity|]. apply Forall_fmap, Forall_forall. now intros.
Qed.

Lemma odds_effects_no_alert cfg new :
  Forall (fun e => is_alert e = false) (odds_effects cfg new).
Proof.
  unfold odds_effects. destruct (show_odds cfg); [|constructor].
  apply Forall_fmap, Forall_forall. now intros.
Qed.

Lemma rotate_no_alert cfg st now :
  Forall (fun e => is_alert e = false) (rotate cfg st now).2.
Proof. unfold rotate. repeat case_match; repeat constructor. Qed.

Lemma test_mode_step_no_alert st :
  Forall (fun e => is_alert e = false) (test_mode_step st).2.
Proof. unfold test_mode_step. repeat case_match; repeat constructor. Qed.

(** The alerts among the effects of the fetch branch are those of its
    scoring check. *)
Lemma fetch_step_alerts cfg st env :
  scoring_alerts (fetch_step cfg st env).1.2 =
    if decide (candidates cfg env = []) then []
    else (fun a : Alert => ScoringAlert a.1 a.2) <$>
           ck_alerts (_check_scoring_events (scoring_alerts_enabled cfg)
                        (favorite_teams cfg) (last_scoring_events st)
                        (live_games (reconciled cfg st env))).
Proof.
  unfold candidates, reconciled, fetch_step.
  destruct (data env) as [events|].
  - pose proof (log_step_no_alert cfg st (current_time_for_log env)
                  (collect_live_games cfg events)) as Hlog.
    destruct (log_step_frame cfg st (current_time_for_log env)
                (collect_live_games cfg events)) as [_ Htr].
    pose proof (odds_effects_no_alert cfg (collect_live_games cfg events)) as Hodds.
    destruct (log_step _ _ _ _) as [st1 logged]. simpl in *.
    assert (scoring_alerts
              (CallFetchData :: odds_effects cfg (collect_live_games cfg events) ++ logged)
            = []) as Hbefore.
    { apply scoring_alerts_none. constructor; [reflexivity|].
      apply Forall_app. now split. }
    destruct (collect_live_games cfg events) as [|g new].
    + rewrite decide_True by reflexivity. cbv zeta. cbn [fst snd].
      rewrite List.app_comm_cons, scoring_alerts_app, Hbefore. simpl.
      now destruct (live_games st1).
    + rewrite decide_False by discriminate. cbv zeta. cbn [fst snd].
      rewrite List.app_comm_cons, scoring_alerts_app, Hbefore, scoring_alerts_all.
      simpl. now rewrite reconcile_tracker, Htr.
  - rewrite decide_True by reflexivity. unfold fetch_failed.
    now destruct (live_games st).
Qed.

(** X20: a tick dispatches at most one scoring alert, whatever the state
    and the feed, and a tick that dispatches one ends in the exception
    of the dispatch: the games after the alerted one are not checked
    and the rotation is not reached. *)
Theorem at_most_one_alert_per_tick cfg st env :
  (length (scoring_alerts (out_effects (update cfg st env))) <= 1)%nat /\
  (scoring_alerts (out_effects (update cfg st env)) <> [] ->
   out_raised (update cfg st env) = true).
Proof.
  destruct (is_enabled cfg && poll_due cfg st (current_time env)) eqn:Hdue.
  2: { rewrite update_idle by assumption. simpl. split; [lia|congruence]. }
  rewrite update_due by assumption. cbv zeta.
  set (st0 := set_last_update (current_time env) st).
  assert (scoring_alerts (if show_ranking cfg then [CallFetchRankings] else []) = [])
    as Hrank by now destruct (show_ranking cfg).
  unfold poll_body. destruct (test_mode cfg) eqn:Ht.
  - pose proof (test_mode_step_no_alert st0) as Hno.
    destruct (test_mode_step st0) as [s e]. simpl in *.
    pose proof (rotate_no_alert cfg s (current_time env)) as Hrot.
    rewrite !scoring_alerts_app, Hrank.
    rewrite (scoring_alerts_none e Hno), (scoring_alerts_none _ Hrot).
    simpl. split; [lia|congruence].
  - pose proof (fetch_step_alerts cfg st0 env) as Halerts.
    pose proof (fetch_step_checked cfg st0 env) as Hck.
    pose proof (fetch_step_unchecked cfg st0 env) as Hun.
    assert (Forall (fun g => scoring_event g ∈ scoring_labels)
              (live_games (reconciled cfg st0 env)) \/ candidates cfg env = [])
      as Hlabels.
    { destruct (decide (candidates cfg env = [])) as [He|Hne]; [now right|left].
      destruct (reconciled_selection cfg st0 env Hne) as (-> & _).
      apply Forall_forall. intros g Hg%list_elem_of_In%reconcile_games_from_candidates.
      apply candidate_extracted in Hg as [[ev He] _].
      now apply extracted_label in He. }
    unfold reconciled in *.
    destruct (fetch_step cfg st0 env) as [[s e] r]. simpl in *.
    pose proof (rotate_no_alert cfg s (current_time env)) as Hrot.
    destruct (decide (candidates cfg env = [])) as [He|Hne].
    + destruct (Hun He) as [_ ->]. simpl.
      rewrite !scoring_alerts_app, Hrank, Halerts, (scoring_alerts_none _ Hrot).
      simpl. split; [lia|congruence].
    + destruct (Hck Hne) as [_ ->]. destruct Hlabels as [Hl|]; [|contradiction].
      assert ((length (ck_alerts (_check_scoring_events (scoring_alerts_enabled cfg)
                         (favorite_teams cfg) (last_scoring_events st0)
                         (live_games s))) <= 1)%nat /\
              (ck_raised (_check_scoring_events (scoring_alerts_enabled cfg)
                            (favorite_teams cfg) (last_scoring_events st0)
                            (live_games s)) = true <->
               ck_alerts (_check_scoring_events (scoring_alerts_enabled cfg)
                            (favorite_teams cfg) (last_scoring_events st0)
                            (live_games s)) <> [])) as [Hlen Hiff].
      { unfold _check_scoring_events. destruct (scoring_alerts_enabled cfg); simpl.
        - now apply check_loop_one_alert.
        - split; [lia|]. split; [discriminate|congruence]. }
      destruct (ck_raised _) eqn:Hr; simpl.
      * rewrite scoring_alerts_app, Hrank, Halerts. simpl.
        rewrite length_fmap. split; [exact Hlen|reflexivity].
      * rewrite !scoring_alerts_app, Hrank, Halerts, (scoring_alerts_none _ Hrot).
        simpl. rewrite app_nil_r, length_fmap. split; [exact Hlen|].
        intros Hne'. exfalso.
        destruct (ck_alerts _) eqn:Ea; [now apply Hne'|].
        assert (false = true) by (apply Hiff; discriminate). discriminate.
Qed.

(** The selection stays valid, whatever the feed. *)
Lemma test_mode_step_pointer st :
  selection_valid st -> index_in_range st ->
  selection_valid (test_mode_step st).1 /\ index_in_range (test_mode_step st).1.
Proof.
  intros Hsel Hidx. unfold test_mode_step.
  destruct (current_game st) as [g|] eqn:Hcur; [|now split].
  destruct (is_live g); [|now split].
  destruct (TestClock.simulate_clock g) as [g'|]; [|now split].
  unfold selection_valid in Hsel. rewrite Hcur in Hsel. symmetry in Hsel.
  apply lookup_lt_Some in Hsel as Hlt. simpl. split.
  - unfold selection_valid. simpl. symmetry. now apply list_lookup_insert_eq.
  - unfold index_in_range. simpl. now rewrite length_insert.
Qed.

Lemma reconcile_pointer st now clk new :
  selection_valid st -> index_in_range st ->
  selection_valid (reconcile st now clk new) /\ index_in_range (reconcile st now clk new).
Proof.
  intros Hsel Hidx. unfold reconcile.
  destruct (bool_decide (id_set new ≠ id_set (live_games st))).
  - assert (forall games,
              let reset := set_selection games (games !! 0%nat) 0 now st in
              selection_valid reset /\ index_in_range reset) as Hreset.
    { intros games. split; [reflexivity|]. unfold index_in_range. simpl.
      destruct games; [congruence|simpl; lia]. }
    unfold replace_games.
    destruct (current_game st) as [cur|]; [|apply Hreset].
    destruct (bool_decide (game_id cur ∈ id_set new)); [|apply Hreset].
    destruct (index_of_id (game_id cur) (sorted_by_start clk new)) as [i|] eqn:Hi;
      [|apply Hreset].
    destruct (index_of_id_Some _ _ _ Hi) as (g & Hg & _).
    split; [reflexivity|]. unfold index_in_range. simpl. intros _.
    now apply lookup_lt_Some in Hg.
  - rewrite refresh_games_spec. split.
    + unfold selection_valid in *. simpl. now rewrite list_lookup_fmap, Hsel.
    + unfold index_in_range in *. simpl. rewrite length_fmap. intros Hne.
      apply Hidx. intros E. apply Hne. now rewrite E.
Qed.

Lemma rotate_pointer cfg st now :
  selection_valid st -> index_in_range st ->
  selection_valid (rotate cfg st now).1 /\ index_in_range (rotate cfg st now).1.
Proof.
  intros Hsel Hidx. unfold rotate.
  destruct (rotation_due cfg st now) eqn:E; [|now split].
  apply rotation_due_iff in E as (_ & Hlen & _).
  split; [reflexivity|]. unfold index_in_range. simpl. intros _.
  apply Nat.mod_upper_bound. lia.
Qed.

Lemma fetch_step_pointer cfg st env :
  selection_valid st -> index_in_range st ->
  selection_valid (fetch_step cfg st env).1.1 /\ index_in_range (fetch_step cfg st env).1.1.
Proof.
  intros Hsel Hidx. unfold fetch_step.
  destruct (data env) as [events|].
  - assert (selection_valid (log_step cfg st (current_time_for_log env)
                               (collect_live_games cfg events)).1 /\
            index_in_range (log_step cfg st (current_time_for_log env)
                              (collect_live_games cfg events)).1) as Hlog.
    { unfold log_step. now destruct (should_log _ _ _ _). }
    destruct (log_step _ _ _ _) as [st1 logged]. simpl in Hlog.
    destruct (collect_live_games cfg events) as [|g new]; simpl.
    + split; [reflexivity|]. unfold index_in_range. simpl. congruence.
    + destruct Hlog as [H1 H2].
      destruct (reconcile_pointer st1 (current_time env) (key_clock env) (g :: new) H1 H2).
      now split.
  - unfold fetch_failed. destruct (live_games st) eqn:E; simpl; [|now split].
    split; [reflexivity|].
    unfold index_in_range. simpl. congruence.
Qed.

(** X21: "Current" is always valid or none: if the selected game is the
    list slot at the index, and the index is in range when the list is
    not empty, the same holds after any tick on any feed; and then no
    game is selected exactly when the LiveSet is empty. *)
Theorem selection_stays_valid cfg st env :
  selection_valid st -> index_in_range st ->
  selection_valid (out_state (update cfg st env)) /\
  index_in_range (out_state (update cfg st env)) /\
  (current_game (out_state (update cfg st env)) = None <->
   live_games (out_state (update cfg st env)) = []).
Proof.
  intros Hsel Hidx.
  assert (selection_valid (out_state (update cfg st env)) /\
          index_in_range (out_state (update cfg st env))) as [H1 H2].
  { destruct (is_enabled cfg && poll_due cfg st (current_time env)) eqn:Hdue.
    2: { now rewrite update_idle. }
    rewrite update_due by assumption. cbv zeta.
    set (st0 := set_last_update (current_time env) st).
    assert (selection_valid (poll_body cfg st0 env).1.1 /\
            index_in_range (poll_body cfg st0 env).1.1) as [Hb1 Hb2].
    { unfold poll_body. destruct (test_mode cfg).
      - pose proof (test_mode_step_pointer st0 Hsel Hidx).
        now destruct (test_mode_step st0).
      - pose proof (fetch_step_pointer cfg st0 env Hsel Hidx).
        now destruct (fetch_step cfg st0 env) as [[? ?] ?]. }
    destruct (poll_body cfg st0 env) as [[st1 eff1] raised]. simpl in *.
    destruct raised; simpl; [now split|]. now apply rotate_pointer. }
  split; [exact H1|]. split; [exact H2|].
  unfold selection_valid in H1. unfold index_in_range in H2. rewrite H1. split.
  - intros Hnone. destruct (live_games (out_state (update cfg st env))) eqn:E;
      [reflexivity|].
    apply lookup_ge_None in Hnone. specialize (H2 ltac:(discriminate)).
    lia.
  - intros ->. reflexivity.
Qed.

Lemma selection_stays_valid_witness :
  selection_valid (out_state (update (config false) initial (env_at 1000 doubled_feed))) /\
  index_in_range (out_state (update (config false) initial (env_at 1000 doubled_feed))) /\
  (current_game (out_state (update (config false) initial (env_at 1000 doubled_feed)))
     = None <->
   live_games (out_state (update (config false) initial (env_at 1000 doubled_feed))) = []).
Proof.
  apply (selection_stays_valid (config false) initial (env_at 1000 doubled_feed)).
  - reflexivity.
  - intros H. now contradiction H.
Defined.

(** X22: a due poll outside test mode whose feed has events but no
    candidate clears the LiveSet: no games, no selection, index 0, no
    rotation and no exception; the end of the games is logged once,
    and only if games were tracked before; the tracker and the rotation
    clock are left as they were. *)
Theorem empty_candidates_clear cfg st env (events : list Event) :
  is_enabled cfg && poll_due cfg st (current_time env) = true ->
  test_mode cfg = false ->
  data env = Some events -> collect_live_games cfg events = [] ->
  live_games (out_state (update cfg st env)) = [] /\
  current_game (out_state (update cfg st env)) = None /\
  current_game_index (out_state (update cfg st env)) = 0%nat /\
  out_raised (update cfg st env) = false /\
  last_scoring_events (out_state (update cfg st env)) = last_scoring_events st /\
  last_game_switch (out_state (update cfg st env)) = last_game_switch st /\
  List.filter (fun e => bool_decide (e = LogEnded)) (out_effects (update cfg st env))
    = (if decide (live_games st = []) then [] else [LogEnded]).
Proof.
  intros Hdue Ht Hd Hc. rewrite update_due by assumption.
  unfold poll_body, fetch_step. rewrite Ht, Hd, Hc. cbv zeta.
  set (st0 := set_last_update (current_time env) st).
  assert (live_games (log_step cfg st0 (current_time_for_log env) []).1 = live_games st /\
          last_scoring_events (log_step cfg st0 (current_time_for_log env) []).1
            = last_scoring_events st /\
          last_game_switch (log_step cfg st0 (current_time_for_log env) []).1
            = last_game_switch st /\
          List.filter (fun e => bool_decide (e = LogEnded))
            (log_step cfg st0 (current_time_for_log env) []).2 = []) as Hlog.
  { unfold log_step. destruct (should_log _ _ _ _); simpl; auto. }
  destruct (log_step cfg st0 (current_time_for_log env) []) as [st1 logged].
  simpl in Hlog. destruct Hlog as (Hl & Htr & Hsw & Hf).
  unfold clear_games, odds_effects. simpl.
  assert (rotation_due cfg
            (set_selection [] None 0 (last_game_switch st1) st1) (current_time env)
          = false) as Hrot.
  { unfold rotation_due. simpl. now rewrite andb_false_r. }
  unfold rotate. rewrite Hrot. simpl.
  repeat split; auto.
  rewrite app_nil_r, List.filter_app.
  assert (List.filter (fun e => bool_decide (e = LogEnded))
            (if show_ranking cfg then [CallFetchRankings] else []) = []) as ->
    by now destruct (show_ranking cfg).
  assert ((if show_odds cfg then [] else []) = @nil Effect) as ->
    by now destruct (show_odds cfg).
  rewrite app_nil_l, List.app_comm_cons, List.filter_app.
  assert (List.filter (fun e => bool_decide (e = LogEnded))
            (CallFetchData :: [] ++ logged) = [])
    as -> by exact Hf.
  rewrite Hl. now destruct (live_games st).
Qed.

Lemma empty_candidates_clear_witness :
  live_games (out_state (update (config false) two_game_state (env_at 115 (Some []))))
    = [] /\
  current_game (out_state (update (config false) two_game_state (env_at 115 (Some []))))
    = None /\
  List.filter (fun e => bool_decide (e = LogEnded))
    (out_effects (update (config false) two_game_state (env_at 115 (Some []))))
    = [LogEnded].
Proof.
  destruct (empty_candidates_clear (config false) two_game_state
              (env_at 115 (Some [])) [] eq_refl eq_refl eq_refl eq_refl)
    as (H1 & H2 & _ & _ & _ & _ & H7).
  split; [exact H1|]. split; [exact H2|exact H7].
Defined.

(** X23: a reconciliation that resets the selection also resets the
    rotation clock, so with a positive display duration the rotation
    cannot fire on the same tick: the tick ends with the first game
    selected, index 0 and the rotation clock at the tick time. *)
Theorem reset_blocks_rotation cfg st env :
  is_enabled cfg && poll_due cfg st (current_time env) = true ->
  test_mode cfg = false ->
  candidates cfg env <> [] ->
  id_set (candidates cfg env) <> id_set (live_games st) ->
  (forall cur, current_game st = Some cur ->
               game_id cur ∉ id_set (candidates cfg env)) ->
  0 < game_display_duration cfg ->
  current_game_index (out_state (update cfg st env)) = 0%nat /\
  current_game (out_state (update cfg st env))
    = live_games (out_state (update cfg st env)) !! 0%nat /\
  last_game_switch (out_state (update cfg st env)) = current_time env.
Proof.
  intros Hdue Ht Hne Hdiff Hgone Hpos.
  set (st0 := set_last_update (current_time env) st).
  destruct (reconciled_selection cfg st0 env Hne) as (Hl & Hc & Hi & Hs).
  destruct (reconcile_replaces st0 (current_time env) (key_clock env)
              (candidates cfg env) Hne Hdiff) as (_ & _ & _ & Hreset).
  destruct (Hreset Hgone) as (g & Hg & Hcur & Hidx & Hsw).
  rewrite <- Hl in Hg. rewrite <- Hc in Hcur. rewrite <- Hi in Hidx.
  rewrite <- Hs in Hsw. clear Hl Hc Hi Hs Hreset.
  rewrite update_due by assumption. unfold poll_body, reconciled in *. rewrite Ht.
  fold st0. destruct (fetch_step cfg st0 env) as [[st1 eff] raised]. simpl in *.
  destruct raised; simpl.
  - rewrite Hidx, Hcur, Hg, Hsw. auto.
  - rewrite rotate_rests.
    + simpl. rewrite Hidx, Hcur, Hg, Hsw. auto.
    + unfold rotation_due. rewrite Hsw.
      destruct (Z.leb_spec (game_display_duration cfg)
                  (current_time env - current_time env)); [lia|].
      now rewrite andb_false_r.
Qed.

Lemma reset_blocks_rotation_witness :
  current_game_index (out_state (update (config false) initial
                                   (env_at 1000 two_game_feed))) = 0%nat /\
  current_game (out_state (update (config false) initial (env_at 1000 two_game_feed)))
    = live_games (out_state (update (config false) initial
                               (env_at 1000 two_game_feed))) !! 0%nat /\
  last_game_switch (out_state (update (config false) initial
                                 (env_at 1000 two_game_feed)))
    = current_time (env_at 1000 two_game_feed).
Proof.
  apply (reset_blocks_rotation (config false) initial (env_at 1000 two_game_feed)).
  - reflexivity.
  - reflexivity.
  - vm_compute. discriminate.
  - vm_compute. discriminate.
  - intros cur Hcur. discriminate Hcur.
  - reflexivity.
Defined.

(** Rotations that are each due, one display duration or more after
    the one before, walk through the LiveSet in order and wrap around:
    after k of them the index is (index + k) mod N, the selected game
    is the list slot there and the list is untouched. *)
Lemma rotations_walk cfg (times : list Z) st :
  test_mode cfg = false -> (1 < length (live_games st))%nat ->
  (current_game_index st < length (live_games st))%nat ->
  spaced (game_display_duration cfg) (last_game_switch st) times ->
  live_games (rotations cfg st times) = live_games st /\
  current_game_index (rotations cfg st times)
    = ((current_game_index st + length times) mod length (live_games st))%nat /\
  (times <> [] ->
   current_game (rotations cfg st times)
     = live_games st !! current_game_index (rotations cfg st times)).
Proof.
  intros Ht. unfold rotations. revert st.
  induction times as [|t times IH]; intros st Hlen Hidx Hsp.
  { simpl. repeat split; auto; [|congruence].
    rewrite Nat.add_0_r. symmetry. now apply Nat.mod_small. }
  destruct Hsp as [Hd Hsp]. simpl foldl.
  assert (rotation_due cfg st t = true) as Hdue by (apply rotation_due_iff; auto).
  rewrite rotate_fires by assumption. cbv zeta.
  set (idx1 := ((current_game_index st + 1) mod length (live_games st))%nat).
  set (st1 := set_selection (live_games st) (live_games st !! idx1) idx1 t st).
  assert (idx1 < length (live_games st))%nat as Hidx1
    by (apply Nat.mod_upper_bound; lia).
  destruct (IH st1 Hlen Hidx1 Hsp) as (Hl & Hi & Hc).
  change (live_games st1) with (live_games st) in *.
  change (current_game_index st1) with idx1 in *.
  split; [exact Hl|]. split.
  - rewrite Hi. unfold idx1. rewrite Nat.Div0.add_mod_idemp_l.
    f_equal. simpl. lia.
  - intros _. destruct times as [|t' times'].
    + reflexivity.
    + apply Hc. discriminate.
Qed.

(** X24: rotation walks and wraps: with test mode off and N > 1 tracked
    games, k rotation steps, each at least the display duration after
    the switch before it, leave the list as it is and the index at
    (index + k) mod N, with the game of that slot selected; k = N
    brings the index back to where it was. *)
Theorem rotation_walks_and_wraps cfg st (times : list Z) :
  test_mode cfg = false -> (1 < length (live_games st))%nat ->
  (current_game_index st < length (live_games st))%nat ->
  spaced (game_display_duration cfg) (last_game_switch st) times ->
  live_games (rotations cfg st times) = live_games st /\
  current_game_index (rotations cfg st times)
    = ((current_game_index st + length times) mod length (live_games st))%nat /\
  (times <> [] ->
   current_game (rotations cfg st times)
     = live_games st !! current_game_index (rotations cfg st times)) /\
  (length times = length (live_games st) ->
   current_game_index (rotations cfg st times) = current_game_index st).
Proof.
  intros Ht Hlen Hidx Hsp.
  destruct (rotations_walk cfg times st Ht Hlen Hidx Hsp) as (Hl & Hi & Hc).
  repeat split; auto.
  intros Hn. rewrite Hi, Hn.
  rewrite <- Nat.Div0.add_mod_idemp_r, Nat.Div0.mod_same, Nat.add_0_r.
  now apply Nat.mod_small.
Qed.

Lemma rotation_walks_and_wraps_witness :
  live_games (rotations (config false) two_game_state [100; 120]) = live_games two_game_state /\
  current_game_index (rotations (config false) two_game_state [100; 120])
    = ((current_game_index two_game_state + length [100; 120])
         mod length (live_games two_game_state))%nat /\
  ([100; 120] <> [] ->
   current_game (rotations (config false) two_game_state [100; 120])
     = live_games two_game_state
         !! current_game_index (rotations (config false) two_game_state [100; 120])) /\
  (length [100; 120] = length (live_games two_game_state) ->
   current_game_index (rotations (config false) two_game_state [100; 120])
     = current_game_index two_game_state).
Proof.
  apply (rotation_walks_and_wraps (config false) two_game_state [100; 120]).
  - reflexivity.
  - simpl. lia.
  - simpl. lia.
  - simpl. lia.
Defined.

(** X25: with intervals that are not negative, [last_update] never moves
    backwards, whatever the clock of a tick reads. *)
Theorem last_update_never_decreases cfg st env :
  0 <= update_interval cfg -> 0 <= no_data_interval cfg ->
  last_update st <= last_update (out_state (update cfg st env)).
Proof.
  intros Hu Hn. rewrite update_last_update.
  destruct (is_enabled cfg); simpl; [|lia].
  unfold poll_due, poll_interval.
  destruct (Z.leb_spec
              (if bool_decide (live_games st = []) && negb (test_mode cfg)
               then no_data_interval cfg else update_interval cfg)
              (current_time env - last_update st)) as [H|H]; [|lia].
  destruct (bool_decide (live_games st = []) && negb (test_mode cfg)); lia.
Qed.

Lemma last_update_never_decreases_witness :
  last_update two_game_state
    <= last_update (out_state (update (config false) two_game_state (env_at 50 None))).
Proof.
  apply (last_update_never_decreases (config false) two_game_state (env_at 50 None));
    simpl; lia.
Defined.

(** Where two lists hold different ids at the same position. *)
Lemma ids_differ_pairwise_spec (old new : list Game) :
  ids_differ_pairwise old new = true <->
  exists i g1 g2, old !! i = Some g1 /\ new !! i = Some g2 /\ game_id g1 <> game_id g2.
Proof.
  revert new. induction old as [|g1 old IH]; intros new; simpl.
  { split; [discriminate|]. intros (i & h1 & h2 & H & _). now destruct i. }
  destruct new as [|g2 new].
  { split; [discriminate|]. intros (i & h1 & h2 & _ & H & _). now destruct i. }
  rewrite orb_true_iff, negb_true_iff, IH. split.
  - intros [Hne|(i & h1 & h2 & H1 & H2 & H3)].
    + exists 0%nat, g1, g2. repeat split. now apply String.eqb_neq.
    + exists (S i), h1, h2. auto.
  - intros (i & h1 & h2 & H1 & H2 & H3). destruct i as [|i]; simpl in *.
    + left. apply String.eqb_neq. congruence.
    + right. eauto 6.
Qed.

(** X26: the log throttle: the summary of a fetch is written exactly when
    the log interval has passed since the last summary, or the number
    of candidates differs from the number of tracked games, or some
    position holds another id than before; then [last_log_time] is the
    time of this summary, and otherwise nothing is written nor noted. *)
Theorem summary_logged_iff cfg st (now_log : Z) (new : list Game) :
  (should_log cfg st now_log new = true <->
     log_interval cfg <= now_log - last_log_time st \/
     length new <> length (live_games st) \/
     exists i g1 g2, live_games st !! i = Some g1 /\ new !! i = Some g2 /\
                     game_id g1 <> game_id g2) /\
  (should_log cfg st now_log new = true ->
     last_log_time (log_step cfg st now_log new).1 = now_log /\
     (log_step cfg st now_log new).2 <> [] /\
     length (log_step cfg st now_log new).2
       = (if decide (new = []) then 1 else 1 + length new)%nat) /\
  (should_log cfg st now_log new = false -> log_step cfg st now_log new = (st, [])).
Proof.
  split; [|split].
  - unfold should_log.
    rewrite !orb_true_iff, Z.leb_le, negb_true_iff, Nat.eqb_neq,
      ids_differ_pairwise_spec, andb_true_iff, negb_true_iff,
      bool_decide_eq_true, bool_decide_eq_false.
    split; [|tauto].
    intros [[[H|H]|H]|[H1 H2]]; auto.
    right. left. rewrite H1. destruct new; [congruence|discriminate].
  - intros H. unfold log_step. rewrite H. simpl.
    destruct new as [|g new]; simpl.
    + repeat split; discriminate.
    + repeat split; [discriminate|]. now rewrite length_fmap.
  - intros H. unfold log_step. now rewrite H.
Qed.

(** X27: test mode never touches the feed or the tracking: a tick in test
    mode fetches nothing, alerts nobody, raises nothing and leaves the
    number of tracked games, the index, the rotation clock, the log
    time and the tracker as they were; its only effects are the
    ranking fetch and the warning for a clock that does not parse. *)
Theorem test_mode_only_simulates cfg st env :
  test_mode cfg = true ->
  out_raised (update cfg st env) = false /\
  (forall e, e ∈ out_effects (update cfg st env) ->
             e = CallFetchRankings \/ e = WarnClock) /\
  length (live_games (out_state (update cfg st env))) = length (live_games st) /\
  current_game_index (out_state (update cfg st env)) = current_game_index st /\
  last_game_switch (out_state (update cfg st env)) = last_game_switch st /\
  last_log_time (out_state (update cfg st env)) = last_log_time st /\
  last_scoring_events (out_state (update cfg st env)) = last_scoring_events st.
Proof.
  intros Ht.
  destruct (is_enabled cfg && poll_due cfg st (current_time env)) eqn:Hdue.
  2: { rewrite update_idle by assumption. simpl. repeat split; auto.
       intros e He. inversion He. }
  rewrite update_due by assumption. unfold poll_body. rewrite Ht. cbv zeta.
  set (st0 := set_last_update (current_time env) st).
  assert ((forall e, e ∈ (test_mode_step st0).2 -> e = WarnClock) /\
          length (live_games (test_mode_step st0).1) = length (live_games st) /\
          current_game_index (test_mode_step st0).1 = current_game_index st /\
          last_game_switch (test_mode_step st0).1 = last_game_switch st /\
          last_log_time (test_mode_step st0).1 = last_log_time st /\
          last_scoring_events (test_mode_step st0).1 = last_scoring_events st) as Hstep.
  { unfold test_mode_step.
    repeat case_match; simpl; rewrite ?length_insert; repeat split; auto;
      intros e He; rewrite ?elem_of_cons, ?elem_of_nil in He; tauto. }
  destruct (test_mode_step st0) as [s e]. simpl in *.
  destruct Hstep as (He & H1 & H2 & H3 & H4 & H5).
  rewrite rotate_rests by (unfold rotation_due; now rewrite Ht).
  simpl. repeat split; auto.
  intros x. rewrite app_nil_r, elem_of_app.
  intros [Hx|Hx]; [|right; now apply He].
  left. destruct (show_ranking cfg); rewrite ?elem_of_cons, ?elem_of_nil in Hx; tauto.
Qed.

Lemma test_mode_only_simulates_witness :
  out_raised (update (config true) one_game_state one_game_env) = false /\
  length (live_games (out_state (update (config true) one_game_state one_game_env)))
    = length (live_games one_game_state) /\
  last_scoring_events (out_state (update (config true) one_game_state one_game_env))
    = last_scoring_events one_game_state.
Proof.
  destruct (test_mode_only_simulates (config true) one_game_state one_game_env eq_refl)
    as (H1 & _ & H3 & _ & _ & _ & H7).
  split; [exact H1|]. split; [exact H3|exact H7].
Defined.

End UpdateMore.
(* ================================================================== *)
(** ** Drawing *)
(* ================================================================== *)

Section DisplayProperties.
Import Display.

(** The calls of one of the two loops. *)
Lemma elem_of_pixel_pairs (first second : Z -> SetPixel) (count : Z) (p : SetPixel) :
  p ∈ flat_map (fun z => [first z; second z]) (seqZ 0 count) <->
  exists z, 0 <= z < count /\ (p = first z \/ p = second z).
Proof.
  rewrite list_elem_of_In, List.in_flat_map. split.
  - intros (z & Hz%list_elem_of_In%elem_of_seqZ & Hp). exists z. split; [lia|].
    simpl in Hp. intuition.
  - intros (z & Hz & Hp). exists z. split.
    + apply list_elem_of_In, elem_of_seqZ. lia.
    + simpl. intuition.
Qed.

(** X28: on a matrix with at least one row and one column the border is
    exactly the frame: a pixel is set if and only if it lies on the
    first or last row or column, every set pixel is inside the matrix
    and has the given color, and the calls number twice the width plus
    twice the height (each corner is set twice). *)
Theorem border_is_the_frame (width height : Z) (color : Color) (p : SetPixel) :
  1 <= width -> 1 <= height ->
  (p ∈ _draw_border width height color <->
     pcolor p = color /\ 0 <= px p < width /\ 0 <= py p < height /\
     (px p = 0 \/ px p = width - 1 \/ py p = 0 \/ py p = height - 1)) /\
  Z.of_nat (length (_draw_border width height color)) = 2 * width + 2 * height.
Proof.
  intros Hw Hh. split.
  - unfold _draw_border. rewrite elem_of_app, !elem_of_pixel_pairs.
    destruct p as [x y c]. simpl. split.
    + intros [(z & Hz & [E|E])|(z & Hz & [E|E])];
        injection E as -> -> ->; repeat split; auto; lia.
    + intros (-> & Hx & Hy & [E|[E|[E|E]]]); subst.
      * right. exists y. auto.
      * right. exists y. auto.
      * left. exists x. auto.
      * left. exists x. auto.
  - unfold _draw_border. rewrite length_app.
    assert (forall (f : Z -> list SetPixel) (l : list Z),
              (forall z, length (f z) = 2%nat) ->
              length (flat_map f l) = (2 * length l)%nat) as Hlen.
    { intros f l Hf. induction l as [|z l IH]; simpl; [reflexivity|].
      rewrite length_app, Hf, IH. lia. }
    rewrite !Hlen by reflexivity. rewrite !length_seqZ. lia.
Qed.

Lemma border_is_the_frame_witness :
  ({| px := 63; py := 5; pcolor := (0, 34, 68) |} ∈ _draw_border 64 32 (0, 34, 68) <->
     pcolor {| px := 63; py := 5; pcolor := (0, 34, 68) |} = (0, 34, 68) /\
     0 <= px {| px := 63; py := 5; pcolor := (0, 34, 68) |} < 64 /\
     0 <= py {| px := 63; py := 5; pcolor := (0, 34, 68) |} < 32 /\
     (px {| px := 63; py := 5; pcolor := (0, 34, 68) |} = 0 \/
      px {| px := 63; py := 5; pcolor := (0, 34, 68) |} = 64 - 1 \/
      py {| px := 63; py := 5; pcolor := (0, 34, 68) |} = 0 \/
      py {| px := 63; py := 5; pcolor := (0, 34, 68) |} = 32 - 1)) /\
  Z.of_nat (length (_draw_border 64 32 (0, 34, 68))) = 2 * 64 + 2 * 32.
Proof.
  apply (border_is_the_frame 64 32 (0, 34, 68)
           {| px := 63; py := 5; pcolor := (0, 34, 68) |}); lia.
Defined.

Lemma away_timeout_bars_eq (h t : Z) :
  away_timeout_bars h t =
    [ {| x0 := 2; y0 := h - 3; x1 := 6; y1 := h - 1;
         fill := if (0 <? t)%Z then white else gray |};
      {| x0 := 7; y0 := h - 3; x1 := 11; y1 := h - 1;
         fill := if (1 <? t)%Z then white else gray |};
      {| x0 := 12; y0 := h - 3; x1 := 16; y1 := h - 1;
         fill := if (2 <? t)%Z then white else gray |} ].
Proof.
  unfold away_timeout_bars, timeout_bar_width, timeout_bar_height, timeout_spacing.
  change (seqZ 0 3) with [0; 1; 2].
  simpl. repeat (apply f_equal2; [f_equal; lia|]). reflexivity.
Qed.

Lemma home_timeout_bars_eq (w h t : Z) :
  home_timeout_bars w h t =
    [ {| x0 := w - 16; y0 := h - 3; x1 := w - 12; y1 := h - 1;
         fill := if (0 <? t)%Z then white else gray |};
      {| x0 := w - 11; y0 := h - 3; x1 := w - 7; y1 := h - 1;
         fill := if (1 <? t)%Z then white else gray |};
      {| x0 := w - 6; y0 := h - 3; x1 := w - 2; y1 := h - 1;
         fill := if (2 <? t)%Z then white else gray |} ].
Proof.
  unfold home_timeout_bars, timeout_bar_width, timeout_bar_height, timeout_spacing.
  change (seqZ 0 3) with [0; 1; 2].
  simpl. repeat (apply f_equal2; [f_equal; lia|]). reflexivity.
Qed.

(** X29: the timeout bars: each side shows as many white bars as it has
    timeouts left, cut to the range 0 to 3, the rest gray; on a display
    at least 33 wide and 3 high all six bars lie inside the display and
    no two of them share a pixel. *)
Theorem timeout_bars_layout (w h away home : Z) :
  white_bars (away_timeout_bars h away) = Z.to_nat (Z.min 3 (Z.max 0 away)) /\
  white_bars (home_timeout_bars w h home) = Z.to_nat (Z.min 3 (Z.max 0 home)) /\
  (33 <= w -> 3 <= h ->
   let bars := away_timeout_bars h away ++ home_timeout_bars w h home in
   (forall b, b ∈ bars -> 0 <= x0 b <= x1 b /\ x1 b < w /\ 0 <= y0 b <= y1 b /\ y1 b < h) /\
   (forall i j b c x y, bars !! i = Some b -> bars !! j = Some c ->
      bar_pixel b x y -> bar_pixel c x y -> i = j)).
Proof.
  rewrite away_timeout_bars_eq, home_timeout_bars_eq.
  assert (forall t a b c d e f g i j k l m : Z,
            white_bars
              [ {| x0 := a; y0 := b; x1 := c; y1 := d;
                   fill := if (0 <? t)%Z then white else gray |};
                {| x0 := e; y0 := f; x1 := g; y1 := i;
                   fill := if (1 <? t)%Z then white else gray |};
                {| x0 := j; y0 := k; x1 := l; y1 := m;
                   fill := if (2 <? t)%Z then white else gray |} ]
            = Z.to_nat (Z.min 3 (Z.max 0 t))) as Hwhite.
  { intros t a b c d e f g i j k l m. unfold white_bars. simpl.
    destruct (Z.ltb_spec 0 t), (Z.ltb_spec 1 t), (Z.ltb_spec 2 t); try lia; simpl.
    - replace (Z.min 3 (Z.max 0 t)) with 3 by lia. reflexivity.
    - replace (Z.min 3 (Z.max 0 t)) with 2 by lia. reflexivity.
    - replace (Z.min 3 (Z.max 0 t)) with 1 by lia. reflexivity.
    - replace (Z.min 3 (Z.max 0 t)) with 0 by lia. reflexivity. }
  split; [apply Hwhite|]. split; [apply Hwhite|].
  intros Hw Hh. cbv zeta. split.
  - intros b Hb. simpl in Hb.
    rewrite !elem_of_cons, elem_of_nil in Hb.
    destruct Hb as [->|[->|[->|[->|[->|[->|[]]]]]]]; simpl; lia.
  - intros i j b c x y Hi Hj [Hbx _] [Hcx _].
    destruct i as [|[|[|[|[|[|i]]]]]]; simpl in Hi; try discriminate;
      injection Hi as <-;
      destruct j as [|[|[|[|[|[|j]]]]]]; simpl in Hj; try discriminate;
      injection Hj as <-; simpl in *; try reflexivity; lia.
Qed.

End DisplayProperties.
(* ================================================================== *)
(** ** Reconciliation followed by the rotation of the same tick *)
(* ================================================================== *)

Section ReconcilingTicks.
Import Samples.

Implicit Types (cfg : Config) (st : State) (env : Env) (new games : list Game).

(** Reconciliation neither reads nor writes [last_update]. *)
Lemma reconcile_set_last_update st t now clk new :
  reconcile (set_last_update t st) now clk new =
  set_last_update t (reconcile st now clk new).
Proof.
  unfold reconcile, replace_games, refresh_games. simpl.
  repeat case_match; reflexivity.
Qed.

(** A due poll outside test mode that found candidates: the list is
    the one [reconcile] computes from the state before the tick, and
    so is the selection unless the rotation is reached and fires, which
    moves it one slot on, as on any due poll. *)
Lemma tick_selection cfg st env :
  is_enabled cfg && poll_due cfg st (current_time env) = true ->
  test_mode cfg = false ->
  candidates cfg env <> [] ->
  let now := current_time env in
  let r := reconcile st now (key_clock env) (candidates cfg env) in
  let out := update cfg st env in
  let next := ((current_game_index r + 1) mod length (live_games r))%nat in
  live_games (out_state out) = live_games r /\
  (rotation_fires cfg out (length (live_games r)) (now - last_game_switch r) = false ->
     current_game_index (out_state out) = current_game_index r /\
     current_game (out_state out) = current_game r /\
     last_game_switch (out_state out) = last_game_switch r) /\
  (rotation_fires cfg out (length (live_games r)) (now - last_game_switch r) = true ->
     current_game_index (out_state out) = next /\
     current_game (out_state out) = live_games r !! next /\
     last_game_switch (out_state out) = now).
Proof.
  intros Hdue Ht Hne. cbv zeta.
  set (st0 := set_last_update (current_time env) st).
  destruct (reconciled_selection cfg st0 env Hne) as (Hl & Hc & Hi & Hs).
  unfold st0 in Hl, Hc, Hi, Hs. rewrite reconcile_set_last_update in Hl, Hc, Hi, Hs.
  simpl in Hl, Hc, Hi, Hs. fold st0 in Hl, Hc, Hi, Hs.
  set (r := reconcile st (current_time env) (key_clock env) (candidates cfg env)) in *.
  unfold rotation_fires.
  rewrite update_due by assumption. unfold poll_body, reconciled in *. rewrite Ht.
  fold st0. destruct (fetch_step cfg st0 env) as [[st1 eff] raised]. simpl in *.
  destruct raised; simpl.
  - repeat split; auto; discriminate.
  - assert (rotation_due cfg st1 (current_time env)
            = (1 <? length (live_games r))%nat
              && (game_display_duration cfg <=? current_time env - last_game_switch r)%Z)
      as Hrot by (unfold rotation_due; now rewrite Ht, Hl, Hs).
    destruct ((1 <? length (live_games r))%nat
              && (game_display_duration cfg <=? current_time env - last_game_switch r)%Z).
    + rewrite rotate_fires by exact Hrot. simpl. rewrite Hl, Hi.
      repeat split; auto; discriminate.
    + rewrite rotate_rests by exact Hrot. simpl.
      repeat split; auto; discriminate.
Qed.

(** C1 (as stated, refuted): games 1 and 2 are tracked with game 2
    selected since time 80; the poll at 115 finds games 1, 2 and 3, so
    the id set changed and the selected id is still a candidate; the
    tick ends with game 3 selected and the rotation clock at 115. *)
Lemma kept_selection_rotates_away :
  candidates (config false) (env_at 115 three_game_feed) <> [] /\
  id_set (candidates (config false) (env_at 115 three_game_feed))
    <> id_set (live_games second_selected_state) /\
  game_id <$> current_game second_selected_state = Some "2"%string /\
  "2"%string ∈ id_set (candidates (config false) (env_at 115 three_game_feed)) /\
  game_id <$> current_game (out_state (update (config false) second_selected_state
                                         (env_at 115 three_game_feed)))
    = Some "3"%string /\
  last_game_switch second_selected_state = 80 /\
  last_game_switch (out_state (update (config false) second_selected_state
                                 (env_at 115 three_game_feed))) = 115.
Proof.
  split; [vm_compute; discriminate|].
  split; [vm_compute; discriminate|].
  split; [reflexivity|].
  split.
  { apply elem_of_id_set. vm_compute.
    apply list_elem_of_further, list_elem_of_here. }
  split; [vm_compute; reflexivity|].
  split; vm_compute; reflexivity.
Qed.

(** C1 (amended): on a due poll outside test mode whose candidate list
    is not empty and whose id set differs from the tracked one, the
    tick leaves the candidates in ascending order of start time as the
    LiveSet.  Reconciliation selects the game with the previously
    selected id at its new index, keeping the rotation clock, when
    that id is among the candidate ids, and otherwise the first game,
    index 0, with the rotation clock at the tick time; the tick ends
    with that selection unless the rotation of the same tick fires
    (the scoring check raised nothing, more than one game, display
    duration elapsed on that rotation clock), which selects the next
    slot and sets the rotation clock to the tick time. *)
Theorem live_set_replaced_then_rotated cfg st env :
  is_enabled cfg && poll_due cfg st (current_time env) = true ->
  test_mode cfg = false ->
  candidates cfg env <> [] ->
  id_set (candidates cfg env) <> id_set (live_games st) ->
  let now := current_time env in
  let out := update cfg st env in
  let st' := out_state out in
  let N := length (live_games st') in
  live_games st' ≡ₚ candidates cfg env /\
  StronglySorted by_start (live_games st') /\
  (forall cur, current_game st = Some cur ->
               game_id cur ∈ id_set (candidates cfg env) ->
     exists i g,
       live_games st' !! i = Some g /\ game_id g = game_id cur /\
       (rotation_fires cfg out N (now - last_game_switch st) = false ->
          current_game_index st' = i /\ current_game st' = Some g /\
          last_game_switch st' = last_game_switch st) /\
       (rotation_fires cfg out N (now - last_game_switch st) = true ->
          current_game_index st' = ((i + 1) mod N)%nat /\
          current_game st' = live_games st' !! ((i + 1) mod N)%nat /\
          last_game_switch st' = now)) /\
  ((forall cur, current_game st = Some cur ->
                game_id cur ∉ id_set (candidates cfg env)) ->
     exists g,
       live_games st' !! 0%nat = Some g /\
       (rotation_fires cfg out N 0 = false ->
          current_game_index st' = 0%nat /\ current_game st' = Some g /\
          last_game_switch st' = now) /\
       (rotation_fires cfg out N 0 = true ->
          current_game_index st' = 1%nat /\
          current_game st' = live_games st' !! 1%nat /\
          last_game_switch st' = now)).
Proof.
  intros Hdue Ht Hne Hdiff. cbv zeta.
  destruct (tick_selection cfg st env Hdue Ht Hne) as (Hl & Hrest & Hturn).
  destruct (reconcile_replaces st (current_time env) (key_clock env)
              (candidates cfg env) Hne Hdiff) as (Hperm & Hsort & Hkept & Hreset).
  cbv zeta in Hl, Hrest, Hturn, Hperm, Hsort, Hkept, Hreset.
  set (r := reconcile st (current_time env) (key_clock env) (candidates cfg env)) in *.
  rewrite Hl. split; [exact Hperm|]. split; [exact Hsort|]. split.
  - intros cur Hcur Hin.
    destruct (Hkept cur Hcur Hin) as (g & Hg & Hsel & Hid & Hsw).
    rewrite Hsw in Hrest, Hturn.
    exists (current_game_index r), g. split; [exact Hg|]. split; [exact Hid|]. split.
    + intros H. destruct (Hrest H) as (-> & -> & ->). auto.
    + intros H. destruct (Hturn H) as (-> & -> & ->). auto.
  - intros Hgone.
    destruct (Hreset Hgone) as (g & Hg & Hsel & Hidx & Hsw).
    rewrite Hsw, Z.sub_diag in Hrest, Hturn. rewrite Hidx in Hturn.
    exists g. split; [exact Hg|]. split.
    + intros H. destruct (Hrest H) as (-> & -> & ->). auto.
    + intros H. destruct (Hturn H) as (Hi & Hc & ->).
      assert ((0 + 1) mod length (live_games r) = 1)%nat as Hone.
      { apply Nat.mod_small. unfold rotation_fires in H.
        apply andb_true_iff in H as [H _]. apply andb_true_iff in H as [_ H].
        now apply Nat.ltb_lt in H. }
      rewrite Hone in Hi, Hc. auto.
Qed.

Lemma live_set_replaced_then_rotated_witness :
  exists i g,
    live_games (out_state (update (config false) second_selected_state
                             (env_at 115 three_game_feed))) !! i = Some g /\
    game_id g = "2"%string /\
    current_game_index (out_state (update (config false) second_selected_state
                                     (env_at 115 three_game_feed)))
      = ((i + 1) mod 3)%nat /\
    last_game_switch (out_state (update (config false) second_selected_state
                                   (env_at 115 three_game_feed))) = 115.
Proof.
  destruct (live_set_replaced_then_rotated (config false) second_selected_state
              (env_at 115 three_game_feed) eq_refl eq_refl)
    as (_ & _ & Hkept & _).
  - vm_compute. discriminate.
  - vm_compute. discriminate.
  - destruct (Hkept (game "2" (Some 70) "14" "") eq_refl) as (i & g & Hg & Hid & _ & Hturn).
    { apply elem_of_id_set. vm_compute.
      apply list_elem_of_further, list_elem_of_here. }
    destruct (Hturn eq_refl) as (Hi & _ & Hsw).
    exists i, g. split; [exact Hg|]. split; [exact Hid|]. split; [exact Hi|exact Hsw].
Defined.

(** The merge leaves a merged record as it is. *)
Lemma refreshed_lookup new games (i : nat) :
  refreshed new <$> ((refreshed new <$> games) !! i) = (refreshed new <$> games) !! i.
Proof.
  rewrite list_lookup_fmap. destruct (games !! i); simpl; [|reflexivity].
  now rewrite refreshed_twice.
Qed.

(** C5 (as stated, refuted): games 1 and 2 are tracked with game 1
    selected since time 80; the poll at 115 finds the same two ids, and
    the tick ends with index 1 and game 2 selected; the poll of the
    same list at 135 moves the selection again. *)
Lemma refreshing_tick_moves_pointer :
  candidates (config false) (env_at 115 two_game_feed) <> [] /\
  id_set (candidates (config false) (env_at 115 two_game_feed))
    = id_set (live_games two_game_state) /\
  current_game_index two_game_state = 0%nat /\
  game_id <$> current_game two_game_state = Some "1"%string /\
  current_game_index (out_state (update (config false) two_game_state
                                   (env_at 115 two_game_feed))) = 1%nat /\
  game_id <$> current_game (out_state (update (config false) two_game_state
                                         (env_at 115 two_game_feed)))
    = Some "2"%string /\
  current_game_index
    (out_state (update (config false)
                  (out_state (update (config false) two_game_state
                                (env_at 115 two_game_feed)))
                  (env_at 135 two_game_feed))) = 0%nat.
Proof.
  split; [vm_compute; discriminate|].
  split.
  { change (candidates (config false) (env_at 115 two_game_feed)) with two_games.
    reflexivity. }
  repeat split; vm_compute; reflexivity.
Qed.

(** C5 (amended): on a due poll outside test mode whose candidate id
    set equals the tracked id set, the tick replaces each tracked
    record, in the existing order, by the candidate record with the
    same id; the index, the id of the selected game and the rotation
    clock are what they were unless the rotation of the same tick
    fires (the scoring check raised nothing, more than one game,
    display duration elapsed), which selects the next slot.  A second
    due poll of the same candidate list leaves the list as the first
    left it, and the selection too unless the rotation fires on it. *)
Theorem live_set_refreshed_then_rotated cfg st env :
  is_enabled cfg && poll_due cfg st (current_time env) = true ->
  test_mode cfg = false ->
  candidates cfg env <> [] ->
  id_set (candidates cfg env) = id_set (live_games st) ->
  let new := candidates cfg env in
  let now := current_time env in
  let out := update cfg st env in
  let st' := out_state out in
  let N := length (live_games st) in
  let next := ((current_game_index st + 1) mod N)%nat in
  Forall2 (fun old fresh => fresh ∈ new /\ game_id fresh = game_id old /\
                            temp_game_dict new !! game_id old = Some fresh)
          (live_games st) (live_games st') /\
  game_id <$> live_games st' = game_id <$> live_games st /\
  (rotation_fires cfg out N (now - last_game_switch st) = false ->
     current_game_index st' = current_game_index st /\
     current_game st' = refreshed new <$> current_game st /\
     game_id <$> current_game st' = game_id <$> current_game st /\
     last_game_switch st' = last_game_switch st) /\
  (rotation_fires cfg out N (now - last_game_switch st) = true ->
     current_game_index st' = next /\
     current_game st' = live_games st' !! next /\
     last_game_switch st' = now) /\
  (forall env2,
     candidates cfg env2 = new ->
     is_enabled cfg && poll_due cfg st' (current_time env2) = true ->
     live_games (out_state (update cfg st' env2)) = live_games st' /\
     (rotation_fires cfg (update cfg st' env2) N
        (current_time env2 - last_game_switch st') = false ->
        current_game_index (out_state (update cfg st' env2)) = current_game_index st' /\
        current_game (out_state (update cfg st' env2)) = current_game st' /\
        last_game_switch (out_state (update cfg st' env2)) = last_game_switch st') /\
     (rotation_fires cfg (update cfg st' env2) N
        (current_time env2 - last_game_switch st') = true ->
        current_game_index (out_state (update cfg st' env2))
          = ((current_game_index st' + 1) mod N)%nat /\
        current_game (out_state (update cfg st' env2))
          = live_games st' !! ((current_game_index st' + 1) mod N)%nat /\
        last_game_switch (out_state (update cfg st' env2)) = current_time env2)).
Proof.
  intros Hdue Ht Hne Heq. cbv zeta.
  destruct (tick_selection cfg st env Hdue Ht Hne) as (Hl & Hrest & Hturn).
  destruct (reconcile_refreshes st (current_time env) (key_clock env) _ Heq)
    as (Rl & Rc & Ri & Rs & _).
  cbv zeta in Hl, Hrest, Hturn, Rl, Rc, Ri, Rs.
  rewrite Rl in Hl. rewrite Rl, Rs, Ri, length_fmap in Hrest, Hturn. rewrite Rc in Hrest.
  set (new := candidates cfg env) in *.
  set (st' := out_state (update cfg st env)) in *.
  set (N := length (live_games st)) in *.
  assert (refreshed new <$> current_game st' = current_game st') as Hfix.
  { destruct (rotation_fires cfg (update cfg st env) N
                (current_time env - last_game_switch st)) eqn:E.
    - destruct (Hturn eq_refl) as (_ & -> & _). apply refreshed_lookup.
    - destruct (Hrest eq_refl) as (_ & -> & _).
      destruct (current_game st); simpl; [|reflexivity].
      now rewrite refreshed_twice. }
  split; [|split; [|split; [|split]]].
  - rewrite Hl. apply Forall2_fmap_r, Forall_Forall2_diag, Forall_forall.
    intros g Hg%list_elem_of_In.
    destruct (temp_game_dict_is_Some new (game_id g)) as [f Hf].
    { rewrite Heq. apply elem_of_id_set, list_elem_of_fmap. eauto. }
    unfold compose, refreshed. rewrite Hf. simpl.
    destruct (temp_game_dict_Some new _ _ Hf). auto.
  - rewrite Hl. apply refreshed_ids.
  - intros H. destruct (Hrest H) as (Hi & Hc & Hs).
    repeat split; auto. rewrite Hc.
    destruct (current_game st); simpl; [|reflexivity]. now rewrite refreshed_id.
  - intros H. destruct (Hturn H) as (Hi & Hc & Hs). rewrite Hl. auto.
  - intros env2 Hsame Hdue2.
    assert (candidates cfg env2 <> []) as Hne2 by now rewrite Hsame.
    assert (id_set (candidates cfg env2) = id_set (live_games st')) as Heq2.
    { rewrite Hsame, Heq, Hl. unfold id_set. now rewrite refreshed_ids. }
    destruct (tick_selection cfg st' env2 Hdue2 Ht Hne2) as (Hl2 & Hrest2 & Hturn2).
    destruct (reconcile_refreshes st' (current_time env2) (key_clock env2) _ Heq2)
      as (Rl2 & Rc2 & Ri2 & Rs2 & _).
    cbv zeta in Hl2, Hrest2, Hturn2, Rl2, Rc2, Ri2, Rs2.
    rewrite Hsame in Rl2, Rc2, Ri2, Rs2, Hl2, Hrest2, Hturn2.
    assert (refreshed new <$> live_games st' = live_games st') as Hlfix.
    { rewrite Hl, <- list_fmap_compose. apply list_fmap_ext.
      intros i g _. apply refreshed_twice. }
    rewrite Hlfix in Rl2. rewrite Hfix in Rc2.
    assert (length (live_games st') = N) as HN by (rewrite Hl; apply length_fmap).
    rewrite Rl2 in Hl2. rewrite Rl2, Rs2, Ri2, HN in Hrest2, Hturn2. rewrite Rc2 in Hrest2.
    auto.
Qed.

Lemma live_set_refreshed_then_rotated_witness :
  game_id <$> live_games (out_state (update (config false) two_game_state
                                       (env_at 115 two_game_feed_later)))
    = game_id <$> live_games two_game_state /\
  current_game_index (out_state (update (config false) two_game_state
                                   (env_at 115 two_game_feed_later))) = 1%nat /\
  last_game_switch (out_state (update (config false) two_game_state
                                 (env_at 115 two_game_feed_later))) = 115.
Proof.
  destruct (live_set_refreshed_then_rotated (config false) two_game_state
              (env_at 115 two_game_feed_later) eq_refl eq_refl)
    as (_ & Hids & _ & Hturn & _).
  - vm_compute. discriminate.
  - apply id_set_perm.
    change (candidates (config false) (env_at 115 two_game_feed_later))
      with [game "2" (Some 70) "14" ""; game "1" (Some 50) "14" ""].
    apply Permutation_swap.
  - destruct (Hturn eq_refl) as (Hi & _ & Hsw).
    split; [exact Hids|]. split; [exact Hi|exact Hsw].
Defined.

End ReconcilingTicks.
(* ================================================================== *)
(** ** The scoring check on whole ticks with several games *)
(* ================================================================== *)

Section ScoringTicks.
Import Samples.
Local Open Scope string_scope.

(** C3 (the code at the failing input): games 1 and 2 are tracked,
    both with the favorite KC in possession, and polled four times.
    Game 2, the second of the LiveSet, carries the labels "",
    TOUCHDOWN, TOUCHDOWN, "" while game 1 carries "", FIELD GOAL, PAT,
    "".  On the second and on the third poll the alert of game 1 is
    dispatched, [trigger_wled_effect] is not a name the method can
    see, and the exception leaves the loop before game 2 is looked at:
    no alert for the touchdown is ever dispatched and the tracker never
    holds an entry for game 2. *)
Theorem second_scorer_never_alerted :
  (fun out => game_id <$> live_games (out_state out))
    <$> ticks (config false) initial two_scorer_feeds
    = [["1"; "2"]; ["1"; "2"]; ["1"; "2"]; ["1"; "2"]] /\
  (fun out => scoring_event <$> live_games (out_state out))
    <$> ticks (config false) initial two_scorer_feeds
    = [[""; ""]; ["FIELD GOAL"; "TOUCHDOWN"]; ["PAT"; "TOUCHDOWN"]; [""; ""]] /\
  (fun out => alert_due (favorite_teams (config false))
                <$> live_games (out_state out))
    <$> ticks (config false) initial two_scorer_feeds
    = [[Some "KC"; Some "KC"]; [Some "KC"; Some "KC"];
       [Some "KC"; Some "KC"]; [Some "KC"; Some "KC"]] /\
  (fun out => scoring_alerts (out_effects out))
    <$> ticks (config false) initial two_scorer_feeds
    = [[]; [ScoringAlert "KC" "FIELD GOAL"]; [ScoringAlert "KC" "PAT"]; []] /\
  out_raised <$> ticks (config false) initial two_scorer_feeds
    = [false; true; true; false] /\
  (fun out => last_scoring_events (out_state out) !! "2")
    <$> ticks (config false) initial two_scorer_feeds
    = [None; None; None; None].
Proof. repeat split; vm_compute; reflexivity. Qed.

End ScoringTicks.
